(** * Double-buffer injection (src/pass/inject_double_buffer.cc)

    A shallow embedding of the three cooperating traversals of the pass
    (DoubleBufferDetector, StripDoubleBufferWrite, DoubleBufferInjector)
    over a first-order model of the statement and expression IR, followed by
    the properties of the pass.

    Conventions of the embedding:
    - nodes that the pass compares by address carry that address: a variable
      its [var_id], a loop its [addr]; a new variable takes the next address
      of a counter kept with the members of the injector;
    - the members of the injector are threaded through the traversal as the
      state of a state-and-failure computation; a failed [CHECK] (and any
      dereference of a null node) is the result [Fatal];
    - the utilities that the pass calls but does not define are embedded at
      their interface and marked as such. *)

From Stdlib Require Import ZArith Lia List.
From stdpp Require Import gmap strings list.

Set Warnings "-register-all,-clear-no-such-hyp".
Local Open Scope string_scope.
Local Open Scope Z_scope.
Local Open Scope list_scope.

(** ** The IR *)

Inductive TypeCode := kInt | kUInt | kFloat | kHandle.

Record DataType := mkDataType { dt_code : TypeCode; dt_bits : Z; dt_lanes : Z }.

Definition Int32 : DataType := mkDataType kInt 32 1.
Definition Bool_ (lanes : Z) : DataType := mkDataType kUInt 1 lanes.
Definition Handle : DataType := mkDataType kHandle 64 1.

(** A [Variable] node.  The pass compares variables by address
    ([const Variable*]); [var_id] is that address. *)
Record Var := mkVar { var_id : nat; name_hint : string; var_dtype : DataType }.

(** [const Variable*]: [None] is the null pointer that [as<Variable>()]
    returns on a node of another kind. *)
Abbreviation VarPtr := (option nat).

Definition get (v : Var) : VarPtr := Some (var_id v).

Inductive BinOp :=
| Add | Sub | Mul | Div | Mod | FloorDiv | FloorMod | Min | Max
| EQ | NE | LT | LE | GT | GE | And | Or.

Inductive Expr :=
| IntImm (t : DataType) (value : Z)
| StringImm (value : string)
| Variable_ (v : Var)
| Cast (t : DataType) (value : Expr)
| Binary (op : BinOp) (a b : Expr)
| Not (a : Expr)
| Select (condition true_value false_value : Expr)
| Load (t : DataType) (buffer_var : Var) (index predicate : Expr)
| Let_ (v : Var) (value body : Expr)
| Call (t : DataType) (name : string) (args : list Expr).

(** The [node] field of an [AttrStmt] is an arbitrary node reference. *)
Inductive NodeRef :=
| NodeVar (v : Var)
| NodeOther (key : string).

Definition as_Variable (n : NodeRef) : VarPtr :=
  match n with NodeVar v => get v | NodeOther _ => None end.

Inductive ForType := Serial | Parallel | Vectorized | Unrolled.
Inductive DeviceAPI := DevNone | DevHost.

(** Statements.  [For] carries [addr], the address of the node in the input
    tree: the pass keys its per-loop tables by [const For*].  Rebuilt loops
    keep the [addr] of the node they were rebuilt from. *)
Inductive Stmt :=
| LetStmt (v : Var) (value : Expr) (body : Stmt)
| AttrStmt (node : NodeRef) (attr_key : string) (value : Expr) (body : Stmt)
| AssertStmt (condition message : Expr) (body : Stmt)
| Store (buffer_var : Var) (value index predicate : Expr)
| Allocate (buffer_var : Var) (t : DataType) (extents : list Expr)
           (condition : Expr) (body : Stmt)
| Free (buffer_var : Var)
| For (addr : nat) (loop_var : Var) (min extent : Expr)
      (for_type : ForType) (device_api : DeviceAPI) (body : Stmt)
| IfThenElse (condition : Expr) (then_case : Stmt) (else_case : option Stmt)
| SeqStmt (seq : list Stmt)
| Evaluate (value : Expr).

(** Attribute keys of [namespace attr]. *)
Module attr.
Definition storage_scope : string := "storage_scope".
Definition double_buffer_scope : string := "double_buffer_scope".
Definition double_buffer_write : string := "double_buffer_write".
End attr.

(** Induction principles that reach through the nested lists. *)
Section Expr_rect_nested.
Variable P : Expr -> Prop.
Hypothesis HInt : forall t z, P (IntImm t z).
Hypothesis HStr : forall s, P (StringImm s).
Hypothesis HVar : forall v, P (Variable_ v).
Hypothesis HCast : forall t a, P a -> P (Cast t a).
Hypothesis HBin : forall op a b, P a -> P b -> P (Binary op a b).
Hypothesis HNot : forall a, P a -> P (Not a).
Hypothesis HSel : forall c a b, P c -> P a -> P b -> P (Select c a b).
Hypothesis HLoad : forall t bv i p, P i -> P p -> P (Load t bv i p).
Hypothesis HLet : forall v a b, P a -> P b -> P (Let_ v a b).
Hypothesis HCall : forall t n args, Forall P args -> P (Call t n args).

Fixpoint Expr_ind_nested (e : Expr) : P e :=
  match e with
  | IntImm t z => HInt t z
  | StringImm s => HStr s
  | Variable_ v => HVar v
  | Cast t a => HCast t a (Expr_ind_nested a)
  | Binary op a b => HBin op a b (Expr_ind_nested a) (Expr_ind_nested b)
  | Not a => HNot a (Expr_ind_nested a)
  | Select c a b =>
      HSel c a b (Expr_ind_nested c) (Expr_ind_nested a) (Expr_ind_nested b)
  | Load t bv i p => HLoad t bv i p (Expr_ind_nested i) (Expr_ind_nested p)
  | Let_ v a b => HLet v a b (Expr_ind_nested a) (Expr_ind_nested b)
  | Call t n args =>
      HCall t n args
        ((fix go (l : list Expr) : Forall P l :=
            match l with
            | [] => @List.Forall_nil _ P
            | x :: r => @List.Forall_cons _ P x _ (Expr_ind_nested x) (go r)
            end) args)
  end.
End Expr_rect_nested.

Section Stmt_rect_nested.
Variable P : Stmt -> Prop.
Hypothesis HLetS : forall v e b, P b -> P (LetStmt v e b).
Hypothesis HAttr : forall n k v b, P b -> P (AttrStmt n k v b).
Hypothesis HAssert : forall c m b, P b -> P (AssertStmt c m b).
Hypothesis HStore : forall bv v i p, P (Store bv v i p).
Hypothesis HAlloc : forall bv t ex c b, P b -> P (Allocate bv t ex c b).
Hypothesis HFree : forall bv, P (Free bv).
Hypothesis HFor : forall a lv mn ex ft da b, P b -> P (For a lv mn ex ft da b).
Hypothesis HIfSome : forall c t e, P t -> P e -> P (IfThenElse c t (Some e)).
Hypothesis HIfNone : forall c t, P t -> P (IfThenElse c t None).
Hypothesis HSeq : forall l, Forall P l -> P (SeqStmt l).
Hypothesis HEval : forall e, P (Evaluate e).

Fixpoint Stmt_ind_nested (s : Stmt) : P s :=
  match s with
  | LetStmt v e b => HLetS v e b (Stmt_ind_nested b)
  | AttrStmt n k v b => HAttr n k v b (Stmt_ind_nested b)
  | AssertStmt c m b => HAssert c m b (Stmt_ind_nested b)
  | Store bv v i p => HStore bv v i p
  | Allocate bv t ex c b => HAlloc bv t ex c b (Stmt_ind_nested b)
  | Free bv => HFree bv
  | For a lv mn ex ft da b => HFor a lv mn ex ft da b (Stmt_ind_nested b)
  | IfThenElse c t (Some e) =>
      HIfSome c t e (Stmt_ind_nested t) (Stmt_ind_nested e)
  | IfThenElse c t None => HIfNone c t (Stmt_ind_nested t)
  | SeqStmt l =>
      HSeq l
        ((fix go (l : list Stmt) : Forall P l :=
            match l with
            | [] => @List.Forall_nil _ P
            | x :: r => @List.Forall_cons _ P x _ (Stmt_ind_nested x) (go r)
            end) l)
  | Evaluate e => HEval e
  end.
End Stmt_rect_nested.

(** The values [0 .. n-1] taken by the counter of a loop
    [for (i = 0; i < n; ++i)]. *)
Definition iota (n : Z) : list Z := map Z.of_nat (seq 0 (Z.to_nat n)).

(** ** External collaborators

    The pass relies on utilities that live outside its own file.  They are
    embedded here at their interface. *)

(** Modelled from the spec: [Expr::dtype()], the static type of an
    expression, which belongs to the IR node system.  Arithmetic takes the
    type of its left operand; comparisons and logic are boolean. *)
Fixpoint dtype (e : Expr) : DataType :=
  match e with
  | IntImm t _ => t
  | StringImm _ => Handle
  | Variable_ v => var_dtype v
  | Cast t _ => t
  | Binary op a _ =>
      match op with
      | EQ | NE | LT | LE | GT | GE | And | Or => Bool_ (dt_lanes (dtype a))
      | _ => dtype a
      end
  | Not a => Bool_ (dt_lanes (dtype a))
  | Select _ a _ => dtype a
  | Load t _ _ _ => t
  | Let_ _ _ b => dtype b
  | Call t _ _ => t
  end.

(** Modelled from the spec: [make_const] and the overloaded expression
    operators of expr_operator.h.  Each builds the node of its operation; the
    constant folding that the operators may apply does not change the value
    of the expression and is not modelled.  [a / b] is the division of C,
    [indexmod] the floor modulus. *)
Definition make_const (t : DataType) (value : Z) : Expr := IntImm t value.
Definition add_ (a b : Expr) : Expr := Binary Add a b.
Definition sub_ (a b : Expr) : Expr := Binary Sub a b.
Definition mul_ (a b : Expr) : Expr := Binary Mul a b.
Definition div_ (a b : Expr) : Expr := Binary Div a b.
Definition lt_ (a b : Expr) : Expr := Binary LT a b.
Definition indexmod (a b : Expr) : Expr := Binary FloorMod a b.

(** Modelled from the spec: [is_zero] and [is_const] of expr_operator.h and
    [is_no_op] of ir_util.h. *)
Definition is_zero (e : Expr) : bool :=
  match e with IntImm _ 0 => true | _ => false end.

Definition is_const (e : Expr) : bool :=
  match e with IntImm _ _ => true | _ => false end.

Definition is_no_op (s : Stmt) : bool :=
  match s with
  | Evaluate v => is_const v
  | SeqStmt [] => true
  | _ => false
  end.

(** Modelled from the spec: [arith::ComputeReduce<Mul>(values, Expr())], the
    arithmetic reduction utility ("fold a sequence of extents into one product
    expression").  The empty sequence gives the undefined expression. *)
Definition ComputeReduce_Mul (values : list Expr) : option Expr :=
  match values with
  | [] => None
  | v :: rest => Some (fold_left mul_ rest v)
  end.

(** Modelled from the spec: [SeqStmt::Flatten], the sequence-flatten utility.
    Nested sequences are spliced in; a single statement is returned bare. *)
Fixpoint flatten_into (s : Stmt) : list Stmt :=
  match s with
  | SeqStmt l =>
      (fix go (l : list Stmt) : list Stmt :=
         match l with
         | [] => []
         | x :: r => flatten_into x ++ go r
         end) l
  | _ => [s]
  end.

Definition Flatten (args : list Stmt) : Stmt :=
  match flat_map flatten_into args with
  | [s] => s
  | seq => SeqStmt seq
  end.

(** A fallible result: [Fatal] is a failed [CHECK] (or a crash), which aborts
    the pass. *)
Inductive Result (A : Type) :=
| Ok (a : A)
| Fatal (msg : string).
Arguments Ok {A} a.
Arguments Fatal {A} msg.

(** Modelled from the spec: [MergeNest] of ir_util.h, the
    allocation-nest-merge utility.  Each statement of the nest, from the last
    to the first, receives the body built so far in its empty body slot. *)
Definition merge_one (s body : Stmt) : Result Stmt :=
  match s with
  | For a lv mn ex ft da b =>
      if is_no_op b then Ok (For a lv mn ex ft da body) else Fatal "MergeNest: body"
  | LetStmt v e b =>
      if is_no_op b then Ok (LetStmt v e body) else Fatal "MergeNest: body"
  | AttrStmt n k v b =>
      if is_no_op b then Ok (AttrStmt n k v body) else Fatal "MergeNest: body"
  | IfThenElse c t None =>
      if is_no_op t then Ok (IfThenElse c body None) else Fatal "MergeNest: body"
  | AssertStmt c m b =>
      if is_no_op b then Ok (AssertStmt c m body) else Fatal "MergeNest: body"
  | Allocate bv t ex c b =>
      if is_no_op b then Ok (Allocate bv t ex c body) else Fatal "MergeNest: body"
  | SeqStmt l =>
      match last l with
      | Some b =>
          if is_no_op b then Ok (SeqStmt (removelast l ++ [body]))
          else Fatal "MergeNest: body"
      | None => Fatal "MergeNest: body"
      end
  | _ => Fatal "not supported nest type"
  end.

Definition MergeNest (nest : list Stmt) (body : Stmt) : Result Stmt :=
  fold_right (fun s acc =>
                match acc with
                | Ok b => merge_one s b
                | Fatal m => Fatal m
                end) (Ok body) nest.

(** Modelled from the spec: [Substitute], the substitution utility.  Every
    occurrence of a variable of the map in value position is replaced by its
    image; binding positions and buffer fields are left alone. *)
Fixpoint Substitute_expr (vmap : gmap nat Expr) (e : Expr) : Expr :=
  match e with
  | IntImm _ _ | StringImm _ => e
  | Variable_ v =>
      match vmap !! var_id v with
      | Some e' => e'
      | None => e
      end
  | Cast t a => Cast t (Substitute_expr vmap a)
  | Binary op a b => Binary op (Substitute_expr vmap a) (Substitute_expr vmap b)
  | Not a => Not (Substitute_expr vmap a)
  | Select c a b =>
      Select (Substitute_expr vmap c) (Substitute_expr vmap a)
             (Substitute_expr vmap b)
  | Load t bv i p => Load t bv (Substitute_expr vmap i) (Substitute_expr vmap p)
  | Let_ v a b => Let_ v (Substitute_expr vmap a) (Substitute_expr vmap b)
  | Call t n args => Call t n (map (Substitute_expr vmap) args)
  end.

Fixpoint Substitute (vmap : gmap nat Expr) (s : Stmt) : Stmt :=
  match s with
  | LetStmt v e b => LetStmt v (Substitute_expr vmap e) (Substitute vmap b)
  | AttrStmt n k v b => AttrStmt n k (Substitute_expr vmap v) (Substitute vmap b)
  | AssertStmt c m b =>
      AssertStmt (Substitute_expr vmap c) (Substitute_expr vmap m)
                 (Substitute vmap b)
  | Store bv v i p =>
      Store bv (Substitute_expr vmap v) (Substitute_expr vmap i)
            (Substitute_expr vmap p)
  | Allocate bv t ex c b =>
      Allocate bv t (map (Substitute_expr vmap) ex) (Substitute_expr vmap c)
               (Substitute vmap b)
  | Free bv => Free bv
  | For a lv mn ex ft da b =>
      For a lv (Substitute_expr vmap mn) (Substitute_expr vmap ex) ft da
          (Substitute vmap b)
  | IfThenElse c t e =>
      IfThenElse (Substitute_expr vmap c) (Substitute vmap t)
                 (match e with
                  | Some e' => Some (Substitute vmap e')
                  | None => None
                  end)
  | SeqStmt l => SeqStmt (map (Substitute vmap) l)
  | Evaluate e => Evaluate (Substitute_expr vmap e)
  end.

(** ** DoubleBufferDetector

    A read-only walk; [touched_] is threaded through the visit in the order
    of the generic visitor (children left to right). *)
Module DoubleBufferDetector.

Definition VisitExpr_Variable (op : Var) (touched_ : gset VarPtr) : gset VarPtr :=
  if decide (get op ∈ touched_) then touched_ ∖ {[get op]} else touched_.

Fixpoint VisitExpr (e : Expr) (touched_ : gset VarPtr) : gset VarPtr :=
  match e with
  | IntImm _ _ | StringImm _ => touched_
  | Variable_ v => VisitExpr_Variable v touched_
  | Cast _ a => VisitExpr a touched_
  | Binary _ a b => VisitExpr b (VisitExpr a touched_)
  | Not a => VisitExpr a touched_
  | Select c a b => VisitExpr b (VisitExpr a (VisitExpr c touched_))
  | Load _ _ i p => VisitExpr p (VisitExpr i touched_)
  | Let_ _ a b => VisitExpr b (VisitExpr a touched_)
  | Call _ _ args =>
      (fix go (l : list Expr) (acc : gset VarPtr) : gset VarPtr :=
         match l with
         | [] => acc
         | x :: r => go r (VisitExpr x acc)
         end) args touched_
  end.

Definition VisitExprs (l : list Expr) (touched_ : gset VarPtr) : gset VarPtr :=
  fold_left (fun acc x => VisitExpr x acc) l touched_.

Fixpoint VisitStmt (s : Stmt) (touched_ : gset VarPtr) : gset VarPtr :=
  match s with
  | LetStmt _ e b => VisitStmt b (VisitExpr e touched_)
  | AttrStmt node attr_key value body =>
      if String.eqb attr_key attr.double_buffer_scope then
        VisitStmt body (VisitExpr value ({[as_Variable node]} ∪ touched_))
      else
        VisitStmt body (VisitExpr value touched_)
  | AssertStmt c m b => VisitStmt b (VisitExpr m (VisitExpr c touched_))
  | Store _ v i p => VisitExpr p (VisitExpr i (VisitExpr v touched_))
  | Allocate _ _ ex c b => VisitExpr c (VisitStmt b (VisitExprs ex touched_))
  | Free _ => touched_
  | For _ _ mn ex _ _ b => VisitStmt b (VisitExpr ex (VisitExpr mn touched_))
  | IfThenElse c t e =>
      let acc := VisitStmt t (VisitExpr c touched_) in
      match e with
      | Some e' => VisitStmt e' acc
      | None => acc
      end
  | SeqStmt l =>
      (fix go (l : list Stmt) (acc : gset VarPtr) : gset VarPtr :=
         match l with
         | [] => acc
         | x :: r => go r (VisitStmt x acc)
         end) l touched_
  | Evaluate e => VisitExpr e touched_
  end.

(** [detector(stmt)] on a fresh detector. *)
Definition run (stmt : Stmt) : gset VarPtr := VisitStmt stmt ∅.

End DoubleBufferDetector.

(** ** StripDoubleBufferWrite

    A statement mutator: expressions are not entered. *)
Module StripDoubleBufferWrite.

Fixpoint VisitStmt (s : Stmt) : Stmt :=
  match s with
  | AttrStmt node attr_key value body =>
      if String.eqb attr_key attr.double_buffer_write then
        VisitStmt body
      else
        AttrStmt node attr_key value (VisitStmt body)
  | LetStmt v e b => LetStmt v e (VisitStmt b)
  | AssertStmt c m b => AssertStmt c m (VisitStmt b)
  | Store bv v i p => Store bv v i p
  | Allocate bv t ex c b => Allocate bv t ex c (VisitStmt b)
  | Free bv => Free bv
  | For a lv mn ex ft da b => For a lv mn ex ft da (VisitStmt b)
  | IfThenElse c t e =>
      IfThenElse c (VisitStmt t)
                 (match e with
                  | Some e' => Some (VisitStmt e')
                  | None => None
                  end)
  | SeqStmt l => SeqStmt (map VisitStmt l)
  | Evaluate e => Evaluate e
  end.

End StripDoubleBufferWrite.

(** ** DoubleBufferInjector *)
Module DoubleBufferInjector.

(** What the pass reads through a [const For*]: the address (the key of the
    per-loop tables) and the fields of the node it points to. *)
Record ForPtr := mkForPtr {
  for_addr : nat;
  for_loop_var : Var;
  for_min : Expr;
  for_extent : Expr
}.

(** Storage entry for those who need double buffering.  [None] is an
    undefined expression or a null pointer.  [switch_write_var] is a
    [VarExpr], which always holds a variable. *)
Record StorageEntry := mkStorageEntry {
  stride : option Expr;
  loop : option ForPtr;
  switch_write_var : Var;
  switch_read_var : option Expr;
  scope : string
}.

(** Modelled from the spec: the default constructor of [VarExpr], which
    belongs to the node system and not to this file.  Every storage entry
    has a write-phase variable, and a store has no other checks than the
    scope flag and the stride: the variable an entry holds before an
    annotation gives it one is what [Var()] constructs, a variable named v
    of type int32 on a node of its own, here at address [a]. *)
Definition VarExpr_default (a : nat) : Var := mkVar a "v" Int32.

(** The entry [operator[]] inserts: every member default-constructed. *)
Definition StorageEntry_init (a : nat) : StorageEntry :=
  mkStorageEntry None None (VarExpr_default a) None "".

(** The mutable members of the injector.  [loop_nest_] is a vector: the
    innermost loop is last.  [log_] collects the buffers of [LOG(WARNING)]
    and [heap_] is the address the next new [Variable] receives. *)
Record Injector := mkInjector {
  in_double_buffer_scope_ : bool;
  loop_nest_ : list ForPtr;
  loop_allocs_ : gmap nat (list Stmt);
  loop_pre_ : gmap nat (list Stmt);
  dbuffer_info_ : gmap VarPtr StorageEntry;
  log_ : list NodeRef;
  heap_ : nat
}.

Definition set_in_scope (b : bool) (st : Injector) : Injector :=
  mkInjector b (loop_nest_ st) (loop_allocs_ st) (loop_pre_ st)
             (dbuffer_info_ st) (log_ st) (heap_ st).
Definition set_loop_nest (l : list ForPtr) (st : Injector) : Injector :=
  mkInjector (in_double_buffer_scope_ st) l (loop_allocs_ st) (loop_pre_ st)
             (dbuffer_info_ st) (log_ st) (heap_ st).
Definition set_loop_allocs (m : gmap nat (list Stmt)) (st : Injector) : Injector :=
  mkInjector (in_double_buffer_scope_ st) (loop_nest_ st) m (loop_pre_ st)
             (dbuffer_info_ st) (log_ st) (heap_ st).
Definition set_loop_pre (m : gmap nat (list Stmt)) (st : Injector) : Injector :=
  mkInjector (in_double_buffer_scope_ st) (loop_nest_ st) (loop_allocs_ st) m
             (dbuffer_info_ st) (log_ st) (heap_ st).
Definition set_dbuffer_info (m : gmap VarPtr StorageEntry) (st : Injector) : Injector :=
  mkInjector (in_double_buffer_scope_ st) (loop_nest_ st) (loop_allocs_ st)
             (loop_pre_ st) m (log_ st) (heap_ st).
Definition set_log (l : list NodeRef) (st : Injector) : Injector :=
  mkInjector (in_double_buffer_scope_ st) (loop_nest_ st) (loop_allocs_ st)
             (loop_pre_ st) (dbuffer_info_ st) l (heap_ st).
Definition set_heap (n : nat) (st : Injector) : Injector :=
  mkInjector (in_double_buffer_scope_ st) (loop_nest_ st) (loop_allocs_ st)
             (loop_pre_ st) (dbuffer_info_ st) (log_ st) n.

(** The traversal as a state-and-failure computation over the members. *)
Definition M (A : Type) : Type := Injector -> Result (A * Injector).

Definition ret {A} (a : A) : M A := fun st => Ok (a, st).
Definition bind {A B} (m : M A) (f : A -> M B) : M B :=
  fun st =>
    match m st with
    | Ok (a, st') => f a st'
    | Fatal msg => Fatal msg
    end.
Definition fatal {A} (msg : string) : M A := fun _ => Fatal msg.
Definition CHECK (b : bool) (msg : string) : M unit :=
  fun st => if b then Ok (tt, st) else Fatal msg.
Definition this : M Injector := fun st => Ok (st, st).
Definition modify (f : Injector -> Injector) : M unit :=
  fun st => Ok (tt, f st).

Notation "'let*' x ':=' m 'in' k" := (bind m (fun x => k))
  (at level 10, x name, m at level 100, k at level 200, only parsing).

Section mapM.
Context {A B : Type} (f : A -> M B).
Fixpoint mapM (l : list A) : M (list B) :=
  match l with
  | [] => ret []
  | x :: r =>
      let* x' := f x in
      let* r' := mapM r in
      ret (x' :: r')
  end.
End mapM.

(** [Var(name, dtype)]: a new variable node at a fresh address. *)
Definition new_Var (name : string) (t : DataType) : M Var :=
  fun st => Ok (mkVar (heap_ st) name t, set_heap (S (heap_ st)) st).

(** [vector::back] and [vector::pop_back]. *)
Definition back {A} (l : list A) : option A := last l.
Definition pop_back {A} (l : list A) : list A := removelast l.

Section Pass.
(** [split_loop_]: the unroll factor given to the constructor. *)
Variable split_loop_ : Z.

Definition VisitExpr_Variable (op : Var) : M Expr :=
  let* st := this in
  let* _chk := CHECK (negb (bool_decide (is_Some (dbuffer_info_ st !! get op))))
                  "CHECK(!dbuffer_info_.count(op))" in
  ret (Variable_ op).

(** The part of [VisitExpr_] for [Load] after the generic visit. *)
Definition VisitExpr_Load (t : DataType) (buffer_var : Var)
           (index predicate : Expr) : M Expr :=
  let* st := this in
  match dbuffer_info_ st !! get buffer_var with
  | Some e =>
      match stride e with
      | None => fatal "CHECK(e.stride.defined())"
      | Some e_stride =>
          match switch_read_var e with
          | None => fatal "CHECK(e.switch_read_var.defined())"
          | Some e_switch_read_var =>
              ret (Load t buffer_var
                        (add_ (mul_ e_switch_read_var e_stride) index)
                        predicate)
          end
      end
  | None => ret (Load t buffer_var index predicate)
  end.

(** The expression traversal. *)
Fixpoint VisitExpr (e : Expr) : M Expr :=
  match e with
  | IntImm _ _ | StringImm _ => ret e
  | Variable_ v => VisitExpr_Variable v
  | Cast t a =>
      let* a' := VisitExpr a in
      ret (Cast t a')
  | Binary op a b =>
      let* a' := VisitExpr a in
      let* b' := VisitExpr b in
      ret (Binary op a' b')
  | Not a =>
      let* a' := VisitExpr a in
      ret (Not a')
  | Select c a b =>
      let* c' := VisitExpr c in
      let* a' := VisitExpr a in
      let* b' := VisitExpr b in
      ret (Select c' a' b')
  | Load t bv i p =>
      let* i' := VisitExpr i in
      let* p' := VisitExpr p in
      VisitExpr_Load t bv i' p'
  | Let_ v a b =>
      let* a' := VisitExpr a in
      let* b' := VisitExpr b in
      ret (Let_ v a' b')
  | Call t n args =>
      let* args' :=
        (fix go (l : list Expr) : M (list Expr) :=
           match l with
           | [] => ret []
           | x :: r =>
               let* x' := VisitExpr x in
               let* r' := go r in
               ret (x' :: r')
           end) args in
      ret (Call t n args')
  end.

(** The part of [VisitStmt_] for [Store] after the generic visit.  The
    write-phase variable is used as the entry holds it, whether or not an
    annotation has set it. *)
Definition VisitStmt_Store (buffer_var : Var) (value index predicate : Expr)
  : M Stmt :=
  let* st := this in
  match dbuffer_info_ st !! get buffer_var with
  | Some e =>
      let* _chk :=
        CHECK (in_double_buffer_scope_ st) "CHECK(in_double_buffer_scope_)" in
      match stride e with
      | None => fatal "CHECK(e.stride.defined())"
      | Some e_stride =>
          ret (Store buffer_var value
                     (add_ (mul_ (Variable_ (switch_write_var e)) e_stride)
                           index)
                     predicate)
      end
  | None => ret (Store buffer_var value index predicate)
  end.

(** The part of [VisitStmt_] for [Allocate] for a tracked buffer after
    the generic visit has produced [extents], [condition] and [body].  The
    entry is read anew: the visit of the body has set its loop.  The last
    case cannot occur: the table never loses an entry and the extents are
    not empty here. *)
Definition hoist_Allocate (buffer_var : Var) (t : DataType)
           (extents : list Expr) (condition : Expr) (body : Stmt) : M Stmt :=
  let* st := this in
  match dbuffer_info_ st !! get buffer_var, extents with
  | Some e, e0 :: _ =>
      let new_extents := make_const (dtype e0) 2 :: extents in
      match loop e with
      | None => fatal "CHECK(it->second.loop != nullptr)"
      | Some e_loop =>
          let alloc_nest :=
            default [] (loop_allocs_ st !! for_addr e_loop) in
          let alloc_nest :=
            alloc_nest ++
              [AttrStmt (NodeVar buffer_var) attr.storage_scope
                        (StringImm (scope e)) (Evaluate (IntImm Int32 0))] in
          let alloc_nest :=
            alloc_nest ++
              [Allocate buffer_var t new_extents condition
                        (Evaluate (IntImm Int32 0))] in
          let* _upd :=
            modify (fun st =>
                      set_loop_allocs
                        (<[for_addr e_loop := alloc_nest]> (loop_allocs_ st))
                        st) in
          ret body
      end
  | _, _ => fatal "unreachable"
  end.

Definition set_stride (e_stride : Expr) (e : StorageEntry) : StorageEntry :=
  mkStorageEntry (Some e_stride) (loop e) (switch_write_var e)
                 (switch_read_var e) (scope e).
Definition set_scope (s : string) (e : StorageEntry) : StorageEntry :=
  mkStorageEntry (stride e) (loop e) (switch_write_var e)
                 (switch_read_var e) s.

(** [VisitStmt_] for [Allocate].  For a tracked buffer the stride is recorded
    before the generic visit, from the extents as they stand; the product of
    no extent is the undefined expression, whose multiplication dereferences
    a null node: it is a [Fatal] here. *)
Definition VisitStmt_Allocate (visit_body : M Stmt) (buffer_var : Var)
           (t : DataType) (extents : list Expr) (condition : Expr) : M Stmt :=
  let* st := this in
  match dbuffer_info_ st !! get buffer_var with
  | Some e =>
      match ComputeReduce_Mul extents with
      | None => fatal "undefined product of extents"
      | Some prod =>
          let e_stride := mul_ prod (make_const (dtype prod) (dt_lanes t)) in
          let* _upd :=
            modify (set_dbuffer_info
                      (<[get buffer_var := set_stride e_stride e]>
                         (dbuffer_info_ st))) in
          let* extents' := mapM VisitExpr extents in
          let* body' := visit_body in
          let* condition' := VisitExpr condition in
          hoist_Allocate buffer_var t extents' condition' body'
      end
  | None =>
      let* extents' := mapM VisitExpr extents in
      let* body' := visit_body in
      let* condition' := VisitExpr condition in
      ret (Allocate buffer_var t extents' condition' body')
  end.

Definition lift {A} (r : Result A) : M A :=
  fun st => match r with Ok a => Ok (a, st) | Fatal m => Fatal m end.

(** The read-phase selector and the steady-state write-phase selector of
    a loop variable, as [MakeProducer] builds them. *)
Definition read_phase (loop_var : Var) : Expr :=
  indexmod (Variable_ loop_var) (make_const (var_dtype loop_var) 2).
Definition shifted (loop_var : Var) : Expr :=
  add_ (Variable_ loop_var) (make_const (var_dtype loop_var) 1).
Definition write_phase (loop_var : Var) : Expr :=
  indexmod (shifted loop_var) (make_const (var_dtype loop_var) 2).

(** The two substitution maps of [MakeProducer], in the order the
    assignments to [vmap] are made. *)
Definition vmap_prologue (w loop_var : Var) (zero : Expr) : gmap nat Expr :=
  <[var_id loop_var := zero]> (<[var_id w := zero]> ∅).
Definition vmap_steady (w loop_var : Var) (zero loop_shift two : Expr)
  : gmap nat Expr :=
  <[var_id w := indexmod loop_shift two]>
    (<[var_id loop_var := loop_shift]> (vmap_prologue w loop_var zero)).

(** [MakeProducer(op)] for the annotation [op] with node [op_node], whose
    body is traversed by [visit_body].  A failed [Downcast] and the cases
    marked unreachable (the table never loses an entry, the stack is not
    empty after the check) are [Fatal]. *)
Definition MakeProducer (visit_body : M Stmt) (op_node : NodeRef) : M Stmt :=
  match op_node with
  | NodeOther _ => fatal "Downcast to VarExpr failed"
  | NodeVar buffer =>
      let* st := this in
      let* _chk :=
        CHECK (negb (Nat.eqb (length (loop_nest_ st)) 0))
              "Double buffer scope must be inside a loop" in
      match dbuffer_info_ st !! get buffer, back (loop_nest_ st) with
      | None, _ =>
          let* _upd := modify (fun st => set_log (log_ st ++ [op_node]) st) in
          visit_body
      | Some e, Some e_loop =>
          let lv := for_loop_var e_loop in
          let zero := make_const (var_dtype lv) 0 in
          let two := make_const (var_dtype lv) 2 in
          let loop_shift := shifted lv in
          let* w := new_Var (name_hint lv ++ ".db")%string (var_dtype lv) in
          let* _upd :=
            modify (fun st =>
                      set_dbuffer_info
                        (<[get buffer :=
                             mkStorageEntry (stride e) (Some e_loop) w
                                            (Some (read_phase lv)) (scope e)]>
                           (dbuffer_info_ st)) st) in
          let* _upd := modify (set_in_scope true) in
          let* body := visit_body in
          let* _upd := modify (set_in_scope false) in
          (* [e] is a reference into the table: its fields are read anew *)
          let* st := this in
          match dbuffer_info_ st !! get buffer with
          | Some e =>
              match loop e with
              | Some e_loop =>
                  let e_w := switch_write_var e in
                  let lv := for_loop_var e_loop in
                  let pre := default [] (loop_pre_ st !! for_addr e_loop) in
                  let* _upd :=
                    modify (fun st =>
                              set_loop_pre
                                (<[for_addr e_loop :=
                                     pre ++ [Substitute
                                               (vmap_prologue e_w lv zero)
                                               body]]>
                                   (loop_pre_ st)) st) in
                  let body :=
                    Substitute (vmap_steady e_w lv zero loop_shift two) body in
                  let body :=
                    AttrStmt (NodeVar buffer) attr.double_buffer_write
                             (IntImm Int32 1) body in
                  let body :=
                    IfThenElse (lt_ loop_shift (for_extent e_loop)) body None in
                  ret body
              | None => fatal "unreachable"
              end
          | None => fatal "unreachable"
          end
      | Some _, None => fatal "unreachable"
      end
  end.

Definition set_entry_scope (buf : VarPtr) (e : StorageEntry) (s : string)
           (st : Injector) : Injector :=
  set_dbuffer_info (<[buf := set_scope s e]> (dbuffer_info_ st)) st.

(** [VisitStmt_] for [AttrStmt].  A storage scope that is not a string
    immediate dereferences a null node: it is a [Fatal] here. *)
Definition VisitStmt_AttrStmt (visit_body : M Stmt) (node : NodeRef)
           (attr_key : string) (value : Expr) : M Stmt :=
  let generic :=
    let* value' := VisitExpr value in
    let* body' := visit_body in
    ret (AttrStmt node attr_key value' body') in
  if String.eqb attr_key attr.storage_scope then
    let buf := as_Variable node in
    let* st := this in
    match dbuffer_info_ st !! buf with
    | Some e =>
        match value with
        | StringImm s =>
            let* _upd := modify (set_entry_scope buf e s) in
            visit_body
        | _ => fatal "storage scope is not a string"
        end
    | None => generic
    end
  else if String.eqb attr_key attr.double_buffer_scope then
    MakeProducer visit_body node
  else generic.

(** The block of [VisitStmt_] for [For] under [if (split_loop_ != 0)]: the
    explicit unrolling of a loop that received a prologue. *)
Definition unroll (addr : nat) (loop_var : Var) (min extent : Expr)
           (for_type : ForType) (device_api : DeviceAPI) (body : Stmt)
  : M Stmt :=
  let* _chk :=
    CHECK ((Z.rem split_loop_ 2 =? 0) || (split_loop_ =? 1))
          "It is better to split with multiple of 2" in
  let* _chk := CHECK (is_zero min) "CHECK(is_zero(old_loop->min))" in
  let zero := min in
  let new_ext := sub_ extent (make_const (var_dtype loop_var) 1) in
  let factor := make_const (dtype new_ext) split_loop_ in
  let outer_ext := div_ new_ext factor in
  let tail_base := mul_ outer_ext factor in
  let* outer_var :=
    new_Var (name_hint loop_var ++ ".outer")%string (var_dtype loop_var) in
  let loop_seq :=
    map (fun i =>
           Substitute
             {[var_id loop_var :=
                 add_ (mul_ (Variable_ outer_var) factor)
                      (make_const (dtype factor) i)]}
             body)
        (iota split_loop_) in
  let loop_ :=
    For addr outer_var zero outer_ext for_type device_api
        (Flatten loop_seq) in
  let tail_body := StripDoubleBufferWrite.VisitStmt body in
  let tail_seq :=
    map (fun i =>
           let idx := add_ tail_base (make_const (dtype tail_base) i) in
           IfThenElse (lt_ idx extent)
                      (Substitute {[var_id loop_var := idx]} tail_body)
                      None)
        (iota split_loop_) in
  ret (Flatten (loop_ :: tail_seq)).

(** [VisitStmt_] for [For]. *)
Definition VisitStmt_For (visit_body : M Stmt) (addr : nat) (loop_var : Var)
           (min extent : Expr) (for_type : ForType)
           (device_api : DeviceAPI) : M Stmt :=
  let op := mkForPtr addr loop_var min extent in
  let* _upd := modify (fun st => set_loop_nest (loop_nest_ st ++ [op]) st) in
  let* min' := VisitExpr min in
  let* extent' := VisitExpr extent in
  let* body' := visit_body in
  let stmt := For addr loop_var min' extent' for_type device_api body' in
  let* st := this in
  let* stmt :=
    match loop_pre_ st !! addr with
    | Some pre =>
        let* stmt :=
          if negb (split_loop_ =? 0) then
            unroll addr loop_var min' extent' for_type device_api body'
          else ret stmt in
        ret (Flatten (pre ++ [stmt]))
    | None => ret stmt
    end in
  let* st := this in
  let* stmt :=
    match loop_allocs_ st !! addr with
    | Some nest => lift (MergeNest nest stmt)
    | None => ret stmt
    end in
  let* _upd := modify (fun st => set_loop_nest (pop_back (loop_nest_ st)) st) in
  ret stmt.

(** The statement traversal: the overriding visitors on their node kinds,
    the generic mutator (children left to right) on the others. *)
Fixpoint VisitStmt (s : Stmt) : M Stmt :=
  match s with
  | LetStmt v value body =>
      let* value' := VisitExpr value in
      let* body' := VisitStmt body in
      ret (LetStmt v value' body')
  | AttrStmt node attr_key value body =>
      VisitStmt_AttrStmt (VisitStmt body) node attr_key value
  | AssertStmt c m body =>
      let* c' := VisitExpr c in
      let* m' := VisitExpr m in
      let* body' := VisitStmt body in
      ret (AssertStmt c' m' body')
  | Store bv value index predicate =>
      let* value' := VisitExpr value in
      let* index' := VisitExpr index in
      let* predicate' := VisitExpr predicate in
      VisitStmt_Store bv value' index' predicate'
  | Allocate bv t extents condition body =>
      VisitStmt_Allocate (VisitStmt body) bv t extents condition
  | Free bv => ret (Free bv)
  | For addr lv mn ex ft da body =>
      VisitStmt_For (VisitStmt body) addr lv mn ex ft da
  | IfThenElse c t e =>
      let* c' := VisitExpr c in
      let* t' := VisitStmt t in
      match e with
      | Some e0 =>
          let* e' := VisitStmt e0 in
          ret (IfThenElse c' t' (Some e'))
      | None => ret (IfThenElse c' t' None)
      end
  | SeqStmt l =>
      let* l' :=
        (fix go (l : list Stmt) : M (list Stmt) :=
           match l with
           | [] => ret []
           | x :: r =>
               let* x' := VisitStmt x in
               let* r' := go r in
               ret (x' :: r')
           end) l in
      ret (SeqStmt l')
  | Evaluate e =>
      let* e' := VisitExpr e in
      ret (Evaluate e')
  end.

(** One fresh entry per candidate, the write-phase variable of each on a
    node of its own, from address [a] on.  The constructor iterates over an
    unordered set: the candidates are taken in the order of [elements]. *)
Fixpoint fresh_entries (l : list VarPtr) (a : nat)
  : gmap VarPtr StorageEntry :=
  match l with
  | [] => ∅
  | b :: r => <[b := StorageEntry_init a]> (fresh_entries r (S a))
  end.

(** The injector as constructed, with one fresh entry per candidate;
    [heap] is the first address not used by a variable. *)
Definition init (touched_ : gset VarPtr) (heap : nat) : Injector :=
  mkInjector false [] ∅ ∅ (fresh_entries (elements touched_) heap) []
             (heap + length (elements touched_)).

(** [Inject].  [ConvertSSA] is the renormalization utility applied to the
    result; [heap] is the first address not used by a variable. *)
Definition Inject (ConvertSSA : Stmt -> Stmt) (heap : nat) (stmt : Stmt)
  : Result Stmt :=
  let touched_ := DoubleBufferDetector.run stmt in
  if decide (touched_ = ∅) then Ok stmt
  else
    match VisitStmt stmt (init touched_ heap) with
    | Ok (r, _) => Ok (ConvertSSA r)
    | Fatal m => Fatal m
    end.

End Pass.
End DoubleBufferInjector.

(** [InjectDoubleBuffer(stmt, split_loop)]. *)
Definition InjectDoubleBuffer (ConvertSSA : Stmt -> Stmt) (heap : nat)
           (stmt : Stmt) (split_loop : Z) : Result Stmt :=
  DoubleBufferInjector.Inject split_loop ConvertSSA heap stmt.

(** ** Evaluation

    A reference reading of the IR, used to state what the generated guards,
    phase selectors and loop nests compute.  Integer expressions evaluate
    under an environment for variables; memory is not modelled, so a load or a
    call has no value.  Running a statement yields the sequence of values of
    the [Evaluate] statements reached, in execution order. *)
Definition Env := nat -> Z.

Definition bind_var (env : Env) (v : Var) (x : Z) : Env :=
  fun n => if Nat.eqb n (var_id v) then x else env n.

Definition of_bool (b : bool) : Z := if b then 1 else 0.

Definition eval_binop (op : BinOp) (x y : Z) : option Z :=
  match op with
  | Add => Some (x + y)
  | Sub => Some (x - y)
  | Mul => Some (x * y)
  | Div => if y =? 0 then None else Some (Z.quot x y)
  | Mod => if y =? 0 then None else Some (Z.rem x y)
  | FloorDiv => if y =? 0 then None else Some (x / y)
  | FloorMod => if y =? 0 then None else Some (x mod y)
  | Min => Some (Z.min x y)
  | Max => Some (Z.max x y)
  | EQ => Some (of_bool (x =? y))
  | NE => Some (of_bool (negb (x =? y)))
  | LT => Some (of_bool (x <? y))
  | LE => Some (of_bool (x <=? y))
  | GT => Some (of_bool (x >? y))
  | GE => Some (of_bool (x >=? y))
  | And => Some (of_bool (negb (x =? 0) && negb (y =? 0)))
  | Or => Some (of_bool (negb (x =? 0) || negb (y =? 0)))
  end.

Fixpoint eval (env : Env) (e : Expr) : option Z :=
  match e with
  | IntImm _ z => Some z
  | Variable_ v => Some (env (var_id v))
  | Cast _ a => eval env a
  | Binary op a b =>
      match eval env a, eval env b with
      | Some x, Some y => eval_binop op x y
      | _, _ => None
      end
  | Not a =>
      match eval env a with
      | Some x => Some (of_bool (x =? 0))
      | None => None
      end
  | Select c a b =>
      match eval env c with
      | Some x => if x =? 0 then eval env b else eval env a
      | None => None
      end
  | Let_ v a b =>
      match eval env a with
      | Some x => eval (bind_var env v x) b
      | None => None
      end
  | StringImm _ | Load _ _ _ _ | Call _ _ _ => None
  end.

Fixpoint exec (env : Env) (s : Stmt) : list Z :=
  match s with
  | Evaluate e =>
      match eval env e with
      | Some v => [v]
      | None => []
      end
  | SeqStmt l =>
      (fix go (l : list Stmt) : list Z :=
         match l with
         | [] => []
         | x :: r => exec env x ++ go r
         end) l
  | IfThenElse c t e =>
      match eval env c with
      | Some z =>
          if z =? 0 then
            match e with
            | Some e' => exec env e'
            | None => []
            end
          else exec env t
      | None => []
      end
  | For _ lv mn ex _ _ b =>
      match eval env mn, eval env ex with
      | Some m, Some n =>
          flat_map (fun j => exec (bind_var env lv (m + j)) b) (iota n)
      | _, _ => []
      end
  | LetStmt v e b =>
      match eval env e with
      | Some x => exec (bind_var env v x) b
      | None => []
      end
  | AttrStmt _ _ _ b | AssertStmt _ _ b | Allocate _ _ _ _ b => exec env b
  | Store _ _ _ _ | Free _ => []
  end.

(** ** Predicates on trees used to state the properties *)

(** [has_attr key s]: some [AttrStmt] of [s] carries the key [key]. *)
Fixpoint has_attr (key : string) (s : Stmt) : bool :=
  match s with
  | AttrStmt _ k _ b => String.eqb k key || has_attr key b
  | LetStmt _ _ b | AssertStmt _ _ b | Allocate _ _ _ _ b
  | For _ _ _ _ _ _ b => has_attr key b
  | IfThenElse _ t e =>
      has_attr key t || match e with Some e' => has_attr key e' | None => false end
  | SeqStmt l => existsb (has_attr key) l
  | Store _ _ _ _ | Free _ | Evaluate _ => false
  end.

(** [annotates b s]: some double-buffer scope annotation of [s] names [b]. *)
Fixpoint annotates (b : VarPtr) (s : Stmt) : bool :=
  match s with
  | AttrStmt n k _ body =>
      (String.eqb k attr.double_buffer_scope && bool_decide (as_Variable n = b))
      || annotates b body
  | LetStmt _ _ body | AssertStmt _ _ body | Allocate _ _ _ _ body
  | For _ _ _ _ _ _ body => annotates b body
  | IfThenElse _ t e =>
      annotates b t || match e with Some e' => annotates b e' | None => false end
  | SeqStmt l => existsb (annotates b) l
  | Store _ _ _ _ | Free _ | Evaluate _ => false
  end.

(** [refers_expr b e], [refers b s]: [b] occurs as a bare value, that is as a
    [Variable_] node (not as the buffer field of an access). *)
Fixpoint refers_expr (b : VarPtr) (e : Expr) : bool :=
  match e with
  | IntImm _ _ | StringImm _ => false
  | Variable_ v => bool_decide (get v = b)
  | Cast _ a | Not a => refers_expr b a
  | Binary _ x y | Load _ _ x y | Let_ _ x y => refers_expr b x || refers_expr b y
  | Select c x y => refers_expr b c || refers_expr b x || refers_expr b y
  | Call _ _ args => existsb (refers_expr b) args
  end.

Fixpoint refers (b : VarPtr) (s : Stmt) : bool :=
  match s with
  | LetStmt _ e body | AttrStmt _ _ e body => refers_expr b e || refers b body
  | AssertStmt c m body => refers_expr b c || refers_expr b m || refers b body
  | Store _ v i p => refers_expr b v || refers_expr b i || refers_expr b p
  | Allocate _ _ ex c body =>
      existsb (refers_expr b) ex || refers_expr b c || refers b body
  | Free _ => false
  | For _ _ mn ex _ _ body => refers_expr b mn || refers_expr b ex || refers b body
  | IfThenElse c t e =>
      refers_expr b c || refers b t
      || match e with Some e' => refers b e' | None => false end
  | SeqStmt l => existsb (refers b) l
  | Evaluate e => refers_expr b e
  end.

(** The probe body of a loop: it reports the value of the loop variable. *)
Definition probe (i : Var) : Stmt := Evaluate (Variable_ i).

(** ** Relations on the members of the injector used to state invariants *)

(** [preserves R m]: every successful run of [m] relates the members before
    to the members after by [R]. *)
Definition preserves {A} (R : DoubleBufferInjector.Injector ->
                              DoubleBufferInjector.Injector -> Prop)
           (m : DoubleBufferInjector.M A) : Prop :=
  forall st a st', m st = Ok (a, st') -> R st st'.

(** Two entries agree on the loop and on both phase selectors. *)
Definition same_phase (e e' : DoubleBufferInjector.StorageEntry) : Prop :=
  DoubleBufferInjector.loop e' = DoubleBufferInjector.loop e /\
  DoubleBufferInjector.switch_write_var e'
  = DoubleBufferInjector.switch_write_var e /\
  DoubleBufferInjector.switch_read_var e'
  = DoubleBufferInjector.switch_read_var e.

(** [keeps b st st']: the entry of [b], if any, is still there in [st'] with
    the same loop and phase selectors. *)
Definition keeps (b : VarPtr) (st st' : DoubleBufferInjector.Injector) : Prop :=
  forall e, DoubleBufferInjector.dbuffer_info_ st !! b = Some e ->
            exists e', DoubleBufferInjector.dbuffer_info_ st' !! b = Some e' /\
                       same_phase e e'.

(** [phases_ok st]: every defined read-phase selector is the parity of the
    loop variable of the entry's loop. *)
Definition phases_ok (st : DoubleBufferInjector.Injector) : Prop :=
  forall b e rd,
    DoubleBufferInjector.dbuffer_info_ st !! b = Some e ->
    DoubleBufferInjector.switch_read_var e = Some rd ->
    exists L, DoubleBufferInjector.loop e = Some L /\
              rd = DoubleBufferInjector.read_phase
                     (DoubleBufferInjector.for_loop_var L).

(** The step relation that carries [phases_ok] along. *)
Definition phases_step (st st' : DoubleBufferInjector.Injector) : Prop :=
  phases_ok st -> phases_ok st'.

(** The product of the values of a list of extents. *)
Fixpoint eval_product (env : Env) (l : list Expr) : option Z :=
  match l with
  | [] => Some 1
  | x :: r =>
      match eval env x, eval_product env r with
      | Some a, Some b => Some (a * b)
      | _, _ => None
      end
  end.

(** [mentions_tracked info e]: [e] contains a load from, or a bare reference
    to, a buffer that has an entry in [info].  The traversal returns every
    other expression as it is. *)
Fixpoint mentions_tracked (info : gmap VarPtr DoubleBufferInjector.StorageEntry)
         (e : Expr) : bool :=
  match e with
  | IntImm _ _ | StringImm _ => false
  | Variable_ v => bool_decide (is_Some (info !! get v))
  | Cast _ a | Not a => mentions_tracked info a
  | Binary _ x y | Let_ _ x y => mentions_tracked info x || mentions_tracked info y
  | Load _ bv x y =>
      bool_decide (is_Some (info !! get bv))
      || mentions_tracked info x || mentions_tracked info y
  | Select c x y =>
      mentions_tracked info c || mentions_tracked info x || mentions_tracked info y
  | Call _ _ args => existsb (mentions_tracked info) args
  end.


(** ** The bookkeeping of prologues along a traversal *)

(** An unroll factor that the check in the loop visitor rejects. *)
Definition rejected_factor (k : Z) : Prop := k <> 0 /\ Z.rem k 2 <> 0 /\ k <> 1.

(** [step_ok st st']: what a completed traversal step guarantees about the
    loop stack, the prologue table and the loops of the entries.  The stack
    is restored; prologues are only added, and only for loops that are on
    the stack; no entry is lost; and an entry whose loop was changed points
    to a loop that has a prologue. *)
Definition step_ok (st st' : DoubleBufferInjector.Injector) : Prop :=
  DoubleBufferInjector.loop_nest_ st' = DoubleBufferInjector.loop_nest_ st
  /\ (forall a, is_Some (DoubleBufferInjector.loop_pre_ st !! a) ->
                is_Some (DoubleBufferInjector.loop_pre_ st' !! a))
  /\ (forall a, is_Some (DoubleBufferInjector.loop_pre_ st' !! a) ->
                is_Some (DoubleBufferInjector.loop_pre_ st !! a) \/
                In a (map DoubleBufferInjector.for_addr
                          (DoubleBufferInjector.loop_nest_ st)))
  /\ (forall b, is_Some (DoubleBufferInjector.dbuffer_info_ st !! b) ->
                is_Some (DoubleBufferInjector.dbuffer_info_ st' !! b))
  /\ (forall b e' L,
         DoubleBufferInjector.dbuffer_info_ st' !! b = Some e' ->
         DoubleBufferInjector.loop e' = Some L ->
         is_Some (DoubleBufferInjector.loop_pre_ st'
                    !! DoubleBufferInjector.for_addr L) \/
         exists e, DoubleBufferInjector.dbuffer_info_ st !! b = Some e /\
                   DoubleBufferInjector.loop e = Some L).

(** [run_ok k s]: every successful traversal of [s] with factor [k] is a
    [step_ok] step, and leaves a prologue behind if [s] annotates a tracked
    buffer. *)
Definition run_ok (k : Z) (s : Stmt) : Prop :=
  forall st r st',
    DoubleBufferInjector.VisitStmt k s st = Ok (r, st') ->
    step_ok st st' /\
    (forall b, annotates b s = true ->
               is_Some (DoubleBufferInjector.dbuffer_info_ st !! b) ->
               exists a, is_Some (DoubleBufferInjector.loop_pre_ st' !! a)).

(** ** Variables bound and used in a tree *)

(** [binds_expr x e], [binds x s]: the variable at address [x] is bound by a
    [Let_], a [LetStmt] or a [For] of the tree. *)
Fixpoint binds_expr (x : nat) (e : Expr) : bool :=
  match e with
  | IntImm _ _ | StringImm _ | Variable_ _ => false
  | Cast _ a | Not a => binds_expr x a
  | Binary _ a b | Load _ _ a b => binds_expr x a || binds_expr x b
  | Select c a b => binds_expr x c || binds_expr x a || binds_expr x b
  | Let_ v a b => Nat.eqb (var_id v) x || binds_expr x a || binds_expr x b
  | Call _ _ args => existsb (binds_expr x) args
  end.

Fixpoint binds (x : nat) (s : Stmt) : bool :=
  match s with
  | LetStmt v e b => Nat.eqb (var_id v) x || binds_expr x e || binds x b
  | AttrStmt _ _ e b => binds_expr x e || binds x b
  | AssertStmt c m b => binds_expr x c || binds_expr x m || binds x b
  | Store _ v i p => binds_expr x v || binds_expr x i || binds_expr x p
  | Allocate _ _ ex c b => existsb (binds_expr x) ex || binds_expr x c || binds x b
  | Free _ => false
  | For _ lv mn ex _ _ b =>
      Nat.eqb (var_id lv) x || binds_expr x mn || binds_expr x ex || binds x b
  | IfThenElse c t e =>
      binds_expr x c || binds x t
      || match e with Some e' => binds x e' | None => false end
  | SeqStmt l => existsb (binds x) l
  | Evaluate e => binds_expr x e
  end.

(** [uses_expr x e], [uses x s]: the variable at address [x] occurs in the
    tree, as a value or as a bound variable. *)
Fixpoint uses_expr (x : nat) (e : Expr) : bool :=
  match e with
  | IntImm _ _ | StringImm _ => false
  | Variable_ v => Nat.eqb (var_id v) x
  | Cast _ a | Not a => uses_expr x a
  | Binary _ a b | Load _ _ a b => uses_expr x a || uses_expr x b
  | Select c a b => uses_expr x c || uses_expr x a || uses_expr x b
  | Let_ v a b => Nat.eqb (var_id v) x || uses_expr x a || uses_expr x b
  | Call _ _ args => existsb (uses_expr x) args
  end.

Fixpoint uses (x : nat) (s : Stmt) : bool :=
  match s with
  | LetStmt v e b => Nat.eqb (var_id v) x || uses_expr x e || uses x b
  | AttrStmt _ _ e b => uses_expr x e || uses x b
  | AssertStmt c m b => uses_expr x c || uses_expr x m || uses x b
  | Store _ v i p => uses_expr x v || uses_expr x i || uses_expr x p
  | Allocate _ _ ex c b => existsb (uses_expr x) ex || uses_expr x c || uses x b
  | Free _ => false
  | For _ lv mn ex _ _ b =>
      Nat.eqb (var_id lv) x || uses_expr x mn || uses_expr x ex || uses x b
  | IfThenElse c t e =>
      uses_expr x c || uses x t
      || match e with Some e' => uses x e' | None => false end
  | SeqStmt l => existsb (uses x) l
  | Evaluate e => uses_expr x e
  end.

(** [stable bound env e v]: [e] has the value [v] in every environment that
    agrees with [env] on the variables that are not [bound]. *)
Definition stable (bound : nat -> bool) (env : Env) (e : Expr) (v : Z) : Prop :=
  forall env', (forall y, bound y = false -> env' y = env y) ->
               eval env' e = Some v.
(** The loop-variable values covered by the structure that explicit
    unrolling by [k] builds for the loop [for i in [0, N)] around the probe:
    the values the probe reports when that structure runs. *)
Definition covered (k N : Z) (i : Var) : option (list Z) :=
  let ext := IntImm (var_dtype i) N in
  match DoubleBufferInjector.unroll k 0%nat i (IntImm (var_dtype i) 0) ext
          Serial DevNone (probe i)
          (DoubleBufferInjector.init ∅ (S (var_id i))) with
  | Ok (s, _) => Some (exec (fun _ => 0) s)
  | Fatal _ => None
  end.

(** ** Sample trees *)
Module Sample.
Definition buf : Var := mkVar 1 "buf" Handle.
Definition A : Var := mkVar 2 "A" Handle.
Definition C : Var := mkVar 3 "C" Handle.
Definition i : Var := mkVar 4 "i" Int32.
Definition stale : Var := mkVar 5 "stale" Handle.
Definition heap : nat := 10.
Definition c (z : Z) : Expr := IntImm Int32 z.
Definition true_ : Expr := IntImm (Bool_ 1) 1.

(** The producer fills [buf] from [A]; the consumer reads [buf]. *)
Definition producer : Stmt :=
  Store buf (Load Int32 A (Variable_ i) true_) (c 0) true_.
Definition consumer : Stmt :=
  Store C (Load Int32 buf (c 0) true_) (Variable_ i) true_.
Definition scoped : Stmt :=
  AttrStmt (NodeVar buf) attr.double_buffer_scope (c 1) producer.
Definition allocation : Stmt :=
  Allocate buf Int32 [c 16] true_ (SeqStmt [scoped; consumer]).

(** Loop [i] in [0, 8), buffer [buf] of extent [16]. *)
Definition loop8 : Stmt :=
  For 100 i (c 0) (c 8) Serial DevNone
      (AttrStmt (NodeVar buf) attr.storage_scope (StringImm "shared")
                allocation).

(** The same loop without any annotation. *)
Definition plain : Stmt :=
  For 100 i (c 0) (c 8) Serial DevNone
      (Store C (Load Int32 A (Variable_ i) true_) (Variable_ i) true_).

(** An annotation outside every loop whose buffer is referred to as a bare
    value, followed by the annotated loop. *)
Definition stale_then_loop : Stmt :=
  SeqStmt [AttrStmt (NodeVar stale) attr.double_buffer_scope (c 1)
                    (Evaluate (Variable_ stale));
           loop8].

(** The loop of [loop8] as the injector refers to it, the write-phase
    variable the entry of [buf] is constructed with and the one its
    annotation creates, the stride of [buf] and the entry of [buf] once its
    annotation is being rewritten. *)
Definition L8 : DoubleBufferInjector.ForPtr :=
  DoubleBufferInjector.mkForPtr 100 i (c 0) (c 8).
Definition v0 : Var := DoubleBufferInjector.VarExpr_default heap.
Definition w : Var := mkVar (S heap) "i.db" Int32.
Definition stride16 : Expr := mul_ (c 16) (make_const Int32 1).
Definition entry : DoubleBufferInjector.StorageEntry :=
  DoubleBufferInjector.mkStorageEntry
    (Some stride16) (Some L8) w
    (Some (DoubleBufferInjector.read_phase i)) "shared".

(** The members while the producer of [loop8] is traversed. *)
Definition in_scope8 : DoubleBufferInjector.Injector :=
  DoubleBufferInjector.mkInjector
    true [L8] ∅ ∅ {[get buf := entry]} [] (S (S heap)).

(** The members on entry to the allocation of [loop8], after the storage
    scope attribute has been recorded. *)
Definition in_alloc8 : DoubleBufferInjector.Injector :=
  DoubleBufferInjector.mkInjector
    false [L8] ∅ ∅
    {[get buf := DoubleBufferInjector.mkStorageEntry None None v0 None
                                                     "shared"]}
    [] (S heap).

(** The members on entry to the annotation of [loop8], after the
    allocation has recorded the stride. *)
Definition in_body8 : DoubleBufferInjector.Injector :=
  DoubleBufferInjector.mkInjector
    false [L8] ∅ ∅
    {[get buf := DoubleBufferInjector.mkStorageEntry (Some stride16) None
                                                     v0 None "shared"]}
    [] (S heap).

(** The members on entry to the body of [loop8]. *)
Definition in_loop8 : DoubleBufferInjector.Injector :=
  DoubleBufferInjector.mkInjector
    false [DoubleBufferInjector.mkForPtr 100 i (c 0) (c 8)] ∅ ∅
    {[get buf := DoubleBufferInjector.StorageEntry_init heap]} [] (S heap).
End Sample.


(** ** Further predicates on trees *)

(** [visited_refers b s]: [b] occurs as a bare value at a place that the
    injector is sure to visit: anywhere but in the value of a storage-scope
    or double-buffer scope attribute, which the overriding visitors do not
    enter. *)
Fixpoint visited_refers (b : VarPtr) (s : Stmt) : bool :=
  match s with
  | LetStmt _ e body => refers_expr b e || visited_refers b body
  | AttrStmt _ k e body =>
      (negb (String.eqb k attr.storage_scope)
       && negb (String.eqb k attr.double_buffer_scope)
       && refers_expr b e)
      || visited_refers b body
  | AssertStmt c m body =>
      refers_expr b c || refers_expr b m || visited_refers b body
  | Store _ v i p => refers_expr b v || refers_expr b i || refers_expr b p
  | Allocate _ _ ex c body =>
      existsb (refers_expr b) ex || refers_expr b c || visited_refers b body
  | Free _ => false
  | For _ _ mn ex _ _ body =>
      refers_expr b mn || refers_expr b ex || visited_refers b body
  | IfThenElse c t e =>
      refers_expr b c || visited_refers b t
      || match e with Some e' => visited_refers b e' | None => false end
  | SeqStmt l => existsb (visited_refers b) l
  | Evaluate e => refers_expr b e
  end.

(** [stores_unscoped b s]: some store to [b] lies below no double-buffer
    scope annotation of [s]. *)
Fixpoint stores_unscoped (b : VarPtr) (s : Stmt) : bool :=
  match s with
  | Store bv _ _ _ => bool_decide (get bv = b)
  | AttrStmt _ k _ body =>
      negb (String.eqb k attr.double_buffer_scope) && stores_unscoped b body
  | LetStmt _ _ body | AssertStmt _ _ body | Allocate _ _ _ _ body
  | For _ _ _ _ _ _ body => stores_unscoped b body
  | IfThenElse _ t e =>
      stores_unscoped b t
      || match e with Some e' => stores_unscoped b e' | None => false end
  | SeqStmt l => existsb (stores_unscoped b) l
  | Free _ | Evaluate _ => false
  end.

(** [scope_outside_loop s]: some double-buffer scope annotation of [s] lies
    below no loop of [s]. *)
Fixpoint scope_outside_loop (s : Stmt) : bool :=
  match s with
  | AttrStmt _ k _ body =>
      String.eqb k attr.double_buffer_scope || scope_outside_loop body
  | For _ _ _ _ _ _ _ => false
  | LetStmt _ _ body | AssertStmt _ _ body | Allocate _ _ _ _ body =>
      scope_outside_loop body
  | IfThenElse _ t e =>
      scope_outside_loop t
      || match e with Some e' => scope_outside_loop e' | None => false end
  | SeqStmt l => existsb scope_outside_loop l
  | Store _ _ _ _ | Free _ | Evaluate _ => false
  end.

(** [touches info s]: [s] holds something that the injector rewrites when the
    buffers of [info] are tracked: a double-buffer scope annotation, a
    storage scope, an allocation, a store, a load or a bare reference of a
    tracked buffer. *)
Fixpoint touches (info : gmap VarPtr DoubleBufferInjector.StorageEntry)
         (s : Stmt) : bool :=
  match s with
  | LetStmt _ e body => mentions_tracked info e || touches info body
  | AttrStmt n k e body =>
      String.eqb k attr.double_buffer_scope
      || (String.eqb k attr.storage_scope
          && bool_decide (is_Some (info !! as_Variable n)))
      || mentions_tracked info e || touches info body
  | AssertStmt c m body =>
      mentions_tracked info c || mentions_tracked info m || touches info body
  | Store bv v i p =>
      bool_decide (is_Some (info !! get bv))
      || mentions_tracked info v || mentions_tracked info i
      || mentions_tracked info p
  | Allocate bv _ ex c body =>
      bool_decide (is_Some (info !! get bv))
      || existsb (mentions_tracked info) ex || mentions_tracked info c
      || touches info body
  | Free _ => false
  | For _ _ mn ex _ _ body =>
      mentions_tracked info mn || mentions_tracked info ex || touches info body
  | IfThenElse c t e =>
      mentions_tracked info c || touches info t
      || match e with Some e' => touches info e' | None => false end
  | SeqStmt l => existsb (touches info) l
  | Evaluate e => mentions_tracked info e
  end.

(** The addresses of the loops of a tree. *)
Fixpoint loop_addrs (s : Stmt) : list nat :=
  match s with
  | For a _ _ _ _ _ body => a :: loop_addrs body
  | LetStmt _ _ body | AttrStmt _ _ _ body | AssertStmt _ _ body
  | Allocate _ _ _ _ body => loop_addrs body
  | IfThenElse _ t e =>
      loop_addrs t ++ match e with Some e' => loop_addrs e' | None => [] end
  | SeqStmt l => flat_map loop_addrs l
  | Store _ _ _ _ | Free _ | Evaluate _ => []
  end.

(** ** Further relations on the members of the injector *)

(** [same_tracked st st']: the same buffers have an entry. *)
Definition same_tracked (st st' : DoubleBufferInjector.Injector) : Prop :=
  forall b, is_Some (DoubleBufferInjector.dbuffer_info_ st' !! b) <->
            is_Some (DoubleBufferInjector.dbuffer_info_ st !! b).

(** [same_stack st st']: the loop stack is the same. *)
Definition same_stack (st st' : DoubleBufferInjector.Injector) : Prop :=
  DoubleBufferInjector.loop_nest_ st' = DoubleBufferInjector.loop_nest_ st.

(** [flag_not_raised st st']: the scope flag is not set in [st'] unless it
    was in [st]. *)
Definition flag_not_raised (st st' : DoubleBufferInjector.Injector) : Prop :=
  DoubleBufferInjector.in_double_buffer_scope_ st' = true ->
  DoubleBufferInjector.in_double_buffer_scope_ st = true.

(** [extends m m']: every list of the table [m] is still in [m'], with
    statements appended at its end at most. *)
Definition extends (m m' : gmap nat (list Stmt)) : Prop :=
  forall a l, m !! a = Some l -> exists more, m' !! a = Some (l ++ more).

(** [only_grows st st']: prologues, hoisted allocations and warnings are
    appended, never dropped or reordered, and no address is handed out
    twice. *)
Definition only_grows (st st' : DoubleBufferInjector.Injector) : Prop :=
  extends (DoubleBufferInjector.loop_pre_ st)
          (DoubleBufferInjector.loop_pre_ st')
  /\ extends (DoubleBufferInjector.loop_allocs_ st)
             (DoubleBufferInjector.loop_allocs_ st')
  /\ (exists more, DoubleBufferInjector.log_ st'
                   = DoubleBufferInjector.log_ st ++ more)
  /\ (DoubleBufferInjector.heap_ st <= DoubleBufferInjector.heap_ st')%nat.

(** [empty_slot s]: [s] is a storage-scope attribute or an allocation whose
    body is the placeholder [Evaluate(0)]. *)
Definition empty_slot (s : Stmt) : bool :=
  match s with
  | AttrStmt (NodeVar _) k (StringImm _) (Evaluate (IntImm _ 0)) =>
      String.eqb k attr.storage_scope
  | Allocate _ _ _ _ (Evaluate (IntImm _ 0)) => true
  | _ => false
  end.

(** [allocs_ok st]: the hoisted allocations are made of such statements. *)
Definition allocs_ok (st : DoubleBufferInjector.Injector) : Prop :=
  forall a nest,
    DoubleBufferInjector.loop_allocs_ st !! a = Some nest ->
    forallb empty_slot nest = true.

(** The step relation that carries [allocs_ok] along. *)
Definition allocs_step (st st' : DoubleBufferInjector.Injector) : Prop :=
  allocs_ok st -> allocs_ok st'.

(** [clean key st]: no prologue and no hoisted allocation of [st] holds an
    attribute with the key [key]. *)
Definition clean (key : string) (st : DoubleBufferInjector.Injector) : Prop :=
  (forall a l, DoubleBufferInjector.loop_pre_ st !! a = Some l ->
               existsb (has_attr key) l = false)
  /\ (forall a l, DoubleBufferInjector.loop_allocs_ st !! a = Some l ->
                  existsb (has_attr key) l = false).

(** [decides b f refd]: the walk [f] over candidate sets treats [b] on its
    own.  Whether [b] is in the result depends on the argument through the
    membership of [b] only, and monotonically; [b] is in the result either
    whatever the argument, or because it was in the argument and the walk
    met no reference to it ([refd] tells whether it met one). *)
Definition decides (b : VarPtr) (f : gset VarPtr -> gset VarPtr) (refd : bool)
  : Prop :=
  (forall T T', (b ∈ T -> b ∈ T') -> b ∈ f T -> b ∈ f T')
  /\ (forall T, b ∈ f T -> b ∈ f ∅ \/ (b ∈ T /\ refd = false))
  /\ (refd = false -> forall T, b ∈ T -> b ∈ f T).

(** ** Places at which the injector is sure to abort *)

(** [refers_some T e]: [e] holds a bare reference to a variable of [T]. *)
Fixpoint refers_some (T : gset VarPtr) (e : Expr) : bool :=
  match e with
  | IntImm _ _ | StringImm _ => false
  | Variable_ v => bool_decide (get v ∈ T)
  | Cast _ a | Not a => refers_some T a
  | Binary _ x y | Load _ _ x y | Let_ _ x y => refers_some T x || refers_some T y
  | Select c x y => refers_some T c || refers_some T x || refers_some T y
  | Call _ _ args => existsb (refers_some T) args
  end.

(** [sure_abort T in_loop scoped s]: read off the tree, a reason for which
    the injector aborts on [s] when the buffers of [T] are tracked.
    [in_loop = false] says that the loop stack is empty when [s] is entered,
    [scoped = false] that the scope flag is clear; [true] says nothing.  The
    reasons are: a bare reference to a buffer of [T] in an expression that
    is visited, a store to a buffer of [T] with the flag clear, and a
    double-buffer scope annotation met with an empty loop stack or on a node
    that is not a variable. *)
Fixpoint sure_abort (T : gset VarPtr) (in_loop scoped : bool) (s : Stmt) : bool :=
  match s with
  | LetStmt _ e body => refers_some T e || sure_abort T in_loop scoped body
  | AttrStmt n k e body =>
      if String.eqb k attr.storage_scope then
        sure_abort T in_loop scoped body
      else if String.eqb k attr.double_buffer_scope then
        negb in_loop
        || match n with NodeOther _ => true | NodeVar _ => false end
        || sure_abort T in_loop true body
      else refers_some T e || sure_abort T in_loop scoped body
  | AssertStmt c m body =>
      refers_some T c || refers_some T m || sure_abort T in_loop scoped body
  | Store bv v i p =>
      refers_some T v || refers_some T i || refers_some T p
      || (bool_decide (get bv ∈ T) && negb scoped)
  | Allocate _ _ ex c body =>
      existsb (refers_some T) ex || refers_some T c
      || sure_abort T in_loop scoped body
  | Free _ => false
  | For _ _ mn ex _ _ body =>
      refers_some T mn || refers_some T ex || sure_abort T true scoped body
  | IfThenElse c t e =>
      refers_some T c || sure_abort T in_loop scoped t
      || match e with
         | Some e' => sure_abort T in_loop scoped e'
         | None => false
         end
  | SeqStmt l => existsb (sure_abort T in_loop scoped) l
  | Evaluate e => refers_some T e
  end.

(** [context_ok T in_loop scoped st]: the members [st] are as [sure_abort]
    assumes them. *)
Definition context_ok (T : gset VarPtr) (in_loop scoped : bool)
           (st : DoubleBufferInjector.Injector) : Prop :=
  (forall b, b ∈ T -> is_Some (DoubleBufferInjector.dbuffer_info_ st !! b))
  /\ (in_loop = false -> DoubleBufferInjector.loop_nest_ st = [])
  /\ (scoped = false -> DoubleBufferInjector.in_double_buffer_scope_ st = false).


(** ** Consumers that run ahead of the producer *)

(** [loads_expr b e]: [e] holds a load from the buffer [b]. *)
Fixpoint loads_expr (b : VarPtr) (e : Expr) : bool :=
  match e with
  | IntImm _ _ | StringImm _ | Variable_ _ => false
  | Cast _ a | Not a => loads_expr b a
  | Binary _ x y | Let_ _ x y => loads_expr b x || loads_expr b y
  | Load _ bv x y =>
      bool_decide (get bv = b) || loads_expr b x || loads_expr b y
  | Select c x y => loads_expr b c || loads_expr b x || loads_expr b y
  | Call _ _ args => existsb (loads_expr b) args
  end.

(** [early_load b s]: in the order of the traversal, a load from [b] is
    visited before any double-buffer scope annotation of [b] is. *)
Fixpoint early_load (b : VarPtr) (s : Stmt) : bool :=
  match s with
  | LetStmt _ e body => loads_expr b e || early_load b body
  | AttrStmt n k e body =>
      if String.eqb k attr.storage_scope then early_load b body
      else if String.eqb k attr.double_buffer_scope then
        negb (bool_decide (as_Variable n = b)) && early_load b body
      else loads_expr b e || early_load b body
  | AssertStmt c m body =>
      loads_expr b c || loads_expr b m || early_load b body
  | Store _ v i p => loads_expr b v || loads_expr b i || loads_expr b p
  | Allocate _ _ ex c body =>
      existsb (loads_expr b) ex || early_load b body
      || (negb (annotates b body) && loads_expr b c)
  | Free _ => false
  | For _ _ mn ex _ _ body =>
      loads_expr b mn || loads_expr b ex || early_load b body
  | IfThenElse c t e =>
      loads_expr b c || early_load b t
      || (negb (annotates b t)
          && match e with Some e' => early_load b e' | None => false end)
  | SeqStmt l =>
      (fix go (l : list Stmt) : bool :=
         match l with
         | [] => false
         | x :: r => early_load b x || (negb (annotates b x) && go r)
         end) l
  | Evaluate e => loads_expr b e
  end.

(** [unresolved b st]: [b] is tracked and its read phase is not set yet. *)
Definition unresolved (b : VarPtr) (st : DoubleBufferInjector.Injector) : Prop :=
  exists e, DoubleBufferInjector.dbuffer_info_ st !! b = Some e /\
            DoubleBufferInjector.switch_read_var e = None.

(** ** Further sample trees *)
Module Case.
Import Sample.

(** The loop of [loop8] after a bare reference to its buffer. *)
Definition reference_then_loop : Stmt :=
  SeqStmt [Evaluate (Variable_ buf); loop8].

(** A loop that stores to [buf] before the annotated producer. *)
Definition early_store : Stmt :=
  For 100 i (c 0) (c 8) Serial DevNone (SeqStmt [producer; scoped]).

(** An annotation whose node is not a variable, inside a loop. *)
Definition odd_node : Stmt :=
  For 100 i (c 0) (c 8) Serial DevNone
      (AttrStmt (NodeOther "buffer") attr.double_buffer_scope (c 1) producer).

(** The loop of [loop8] starting at [1]. *)
Definition loop_from_1 : Stmt :=
  For 100 i (c 1) (c 8) Serial DevNone
      (AttrStmt (NodeVar buf) attr.storage_scope (StringImm "shared")
                allocation).

(** A loop whose consumer comes before the annotated producer. *)
Definition consumer_first : Stmt :=
  For 100 i (c 0) (c 8) Serial DevNone
      (AttrStmt (NodeVar buf) attr.storage_scope (StringImm "shared")
                (Allocate buf Int32 [c 16] true_
                          (SeqStmt [consumer; scoped]))).

(** An annotation of [buf] whose body is a loop that annotates [buf]
    again, and the loop of [loop8] around it. *)
Definition j : Var := mkVar 6 "j" Int32.
Definition inner4 : Stmt :=
  For 101 j (c 0) (c 4) Serial DevNone
      (AttrStmt (NodeVar buf) attr.double_buffer_scope (c 1)
                (Store buf (Load Int32 A (Variable_ j) true_) (Variable_ j)
                       true_)).
Definition nested_scope : Stmt :=
  AttrStmt (NodeVar buf) attr.double_buffer_scope (c 1) inner4.
Definition nested_loop8 : Stmt :=
  For 100 i (c 0) (c 8) Serial DevNone
      (AttrStmt (NodeVar buf) attr.storage_scope (StringImm "shared")
                (Allocate buf Int32 [c 16] true_
                          (SeqStmt [nested_scope; consumer]))).

(** Two double-buffered buffers in one loop; the producer of [buf] also
    stores to [buf2]. *)
Definition buf2 : Var := mkVar 7 "buf2" Handle.
Definition foreign_store : Stmt :=
  For 100 i (c 0) (c 8) Serial DevNone
      (AttrStmt
         (NodeVar buf) attr.storage_scope (StringImm "shared")
         (Allocate
            buf Int32 [c 16] true_
            (AttrStmt
               (NodeVar buf2) attr.storage_scope (StringImm "shared")
               (Allocate
                  buf2 Int32 [c 16] true_
                  (SeqStmt
                     [AttrStmt (NodeVar buf2) attr.double_buffer_scope (c 1)
                               (Store buf2 (Load Int32 A (Variable_ i) true_)
                                      (c 0) true_);
                      AttrStmt (NodeVar buf) attr.double_buffer_scope (c 1)
                               (SeqStmt [producer;
                                         Store buf2 (c 7) (c 1) true_]);
                      consumer]))))).
End Case.
(** ** Stores to a buffer and their phase selectors *)

(** The indices of the stores to the buffer [b] in a tree, in the order of
    the tree. *)
Fixpoint store_indices (b : VarPtr) (s : Stmt) : list Expr :=
  match s with
  | Store bv _ idx _ => if bool_decide (get bv = b) then [idx] else []
  | LetStmt _ _ body | AttrStmt _ _ _ body | AssertStmt _ _ body
  | Allocate _ _ _ _ body | For _ _ _ _ _ _ body => store_indices b body
  | IfThenElse _ t e =>
      store_indices b t
      ++ match e with Some e' => store_indices b e' | None => [] end
  | SeqStmt l => flat_map (store_indices b) l
  | Free _ | Evaluate _ => []
  end.

(** [selects p idx]: the index [idx] is [p * stride + index] for some stride
    and some index: [p] is its phase selector. *)
Definition selects (p idx : Expr) : Prop :=
  exists sd x, idx = add_ (mul_ p sd) x.

(** [stores_select b p s]: every store to [b] in [s] has the phase selector
    [p]. *)
Definition stores_select (b : VarPtr) (p : Expr) (s : Stmt) : Prop :=
  Forall (selects p) (store_indices b s).

(** [fresh_heap st]: [heap_ st] is above the address of every variable the
    members hold: the variables of the loops on the stack and of the loops
    of the entries, and the write-phase variables of the entries. *)
Definition fresh_heap (st : DoubleBufferInjector.Injector) : Prop :=
  (forall L, In L (DoubleBufferInjector.loop_nest_ st) ->
             (var_id (DoubleBufferInjector.for_loop_var L)
              < DoubleBufferInjector.heap_ st)%nat)
  /\ (forall c e,
         DoubleBufferInjector.dbuffer_info_ st !! c = Some e ->
         (var_id (DoubleBufferInjector.switch_write_var e)
          < DoubleBufferInjector.heap_ st)%nat
         /\ forall L, DoubleBufferInjector.loop e = Some L ->
                      (var_id (DoubleBufferInjector.for_loop_var L)
                       < DoubleBufferInjector.heap_ st)%nat).

(** [unvisited s st]: no loop of [s] has a prologue or a hoisted allocation
    yet. *)
Definition unvisited (s : Stmt) (st : DoubleBufferInjector.Injector) : Prop :=
  forall a, In a (loop_addrs s) ->
            DoubleBufferInjector.loop_pre_ st !! a = None
            /\ DoubleBufferInjector.loop_allocs_ st !! a = None.

(** [writes_with b w A st]: the members while the body of the annotation of
    [b] is traversed, [w] being the write-phase variable of [b]: [w] is the
    variable of the entry of [b] and of nothing else the members hold, and
    every store to [b] that waits in a table of a loop whose address
    satisfies [A] has the phase selector [w]. *)
Definition writes_with (b : VarPtr) (w : Var) (A : nat -> Prop)
           (st : DoubleBufferInjector.Injector) : Prop :=
  (var_id w < DoubleBufferInjector.heap_ st)%nat
  /\ (forall L, In L (DoubleBufferInjector.loop_nest_ st) ->
                var_id (DoubleBufferInjector.for_loop_var L) <> var_id w)
  /\ (exists e, DoubleBufferInjector.dbuffer_info_ st !! b = Some e
                /\ DoubleBufferInjector.switch_write_var e = w)
  /\ (forall c e,
         DoubleBufferInjector.dbuffer_info_ st !! c = Some e ->
         (forall L, DoubleBufferInjector.loop e = Some L ->
                    var_id (DoubleBufferInjector.for_loop_var L) <> var_id w)
         /\ (c <> b ->
             var_id (DoubleBufferInjector.switch_write_var e) <> var_id w))
  /\ (forall a l, A a -> DoubleBufferInjector.loop_pre_ st !! a = Some l ->
                  Forall (stores_select b (Variable_ w)) l)
  /\ (forall a l, A a -> DoubleBufferInjector.loop_allocs_ st !! a = Some l ->
                  Forall (stores_select b (Variable_ w)) l).

(** ** The walk of the detector as a sequence of events *)

(** What the walk of the detector does to a buffer at a node: an annotation
    inserts it, a bare reference erases it. *)
Inductive Event := Annotated | Referenced.

(** The events of the buffer [b] in a tree, in the order of the visit. *)
Fixpoint events_expr (b : VarPtr) (e : Expr) : list Event :=
  match e with
  | IntImm _ _ | StringImm _ => []
  | Variable_ v => if bool_decide (get v = b) then [Referenced] else []
  | Cast _ a | Not a => events_expr b a
  | Binary _ x y | Load _ _ x y | Let_ _ x y =>
      events_expr b x ++ events_expr b y
  | Select c x y => events_expr b c ++ events_expr b x ++ events_expr b y
  | Call _ _ args => flat_map (events_expr b) args
  end.

Fixpoint events (b : VarPtr) (s : Stmt) : list Event :=
  match s with
  | LetStmt _ e body => events_expr b e ++ events b body
  | AttrStmt n k e body =>
      (if String.eqb k attr.double_buffer_scope
          && bool_decide (as_Variable n = b)
       then [Annotated] else [])
      ++ events_expr b e ++ events b body
  | AssertStmt c m body => events_expr b c ++ events_expr b m ++ events b body
  | Store _ v i p => events_expr b v ++ events_expr b i ++ events_expr b p
  | Allocate _ _ ex c body =>
      flat_map (events_expr b) ex ++ events b body ++ events_expr b c
  | Free _ => []
  | For _ _ mn ex _ _ body =>
      events_expr b mn ++ events_expr b ex ++ events b body
  | IfThenElse c t e =>
      events_expr b c ++ events b t
      ++ match e with Some e' => events b e' | None => [] end
  | SeqStmt l => flat_map (events b) l
  | Evaluate e => events_expr b e
  end.

(** [outcome evs before]: whether a buffer is a candidate after the events
    [evs], [before] telling whether it was one before them: the last event
    decides. *)
Definition outcome (evs : list Event) (before : Prop) : Prop :=
  match last evs with
  | Some ev => ev = Annotated
  | None => before
  end.

(** [follows b f evs]: the walk [f] over candidate sets does to [b] what the
    events [evs] say. *)
Definition follows (b : VarPtr) (f : gset VarPtr -> gset VarPtr)
           (evs : list Event) : Prop :=
  forall T, b ∈ f T <-> outcome evs (b ∈ T).

(** * Properties *)

Import DoubleBufferInjector.

(** ** Lists of loop-counter values *)
Lemma exec_SeqStmt env l : exec env (SeqStmt l) = flat_map (exec env) l.
Proof. simpl. induction l as [|x r IH]; simpl; [reflexivity | now rewrite IH]. Qed.

Lemma flatten_into_SeqStmt l : flatten_into (SeqStmt l) = flat_map flatten_into l.
Proof. simpl. induction l as [|x r IH]; simpl; [reflexivity | now rewrite IH]. Qed.

Lemma exec_flatten_into env s : flat_map (exec env) (flatten_into s) = exec env s.
Proof.
  induction s using Stmt_ind_nested;
    try (cbn [flatten_into flat_map]; apply app_nil_r).
  rewrite flatten_into_SeqStmt, exec_SeqStmt.
  induction H as [|x r Hx Hr IH]; [reflexivity|].
  cbn [flat_map]. rewrite flat_map_app, Hx, IH. reflexivity.
Qed.

Lemma exec_Flatten env l : exec env (Flatten l) = flat_map (exec env) l.
Proof.
  assert (E : flat_map (exec env) (flat_map flatten_into l) = flat_map (exec env) l).
  { induction l as [|x r IH]; [reflexivity|].
    cbn [flat_map]. rewrite flat_map_app, exec_flatten_into, IH. reflexivity. }
  unfold Flatten. rewrite <- E.
  destruct (flat_map flatten_into l) as [|s [|s' r]].
  - reflexivity.
  - cbn [flat_map]. now rewrite app_nil_r.
  - apply exec_SeqStmt.
Qed.

Lemma iota_succ n : 0 <= n -> iota (n + 1) = iota n ++ [n].
Proof.
  intros Hn. unfold iota.
  replace (Z.to_nat (n + 1)) with (S (Z.to_nat n)) by lia.
  rewrite seq_S, map_app. simpl. rewrite Z2Nat.id by lia. reflexivity.
Qed.

Lemma iota_app a b :
  0 <= a -> 0 <= b -> iota (a + b) = iota a ++ map (Z.add a) (iota b).
Proof.
  intros Ha Hb. rewrite <- (Z2Nat.id b Hb). generalize (Z.to_nat b) as n.
  induction n as [|n IH].
  - simpl. rewrite Z.add_0_r, app_nil_r. reflexivity.
  - rewrite Nat2Z.inj_succ. unfold Z.succ.
    rewrite Z.add_assoc, !iota_succ, IH, map_app by lia.
    rewrite <- app_assoc. reflexivity.
Qed.

Lemma In_iota x n : In x (iota n) <-> 0 <= x < n.
Proof.
  unfold iota. rewrite in_map_iff. split.
  - intros [m [<- Hm]]. apply in_seq in Hm. lia.
  - intros Hx. exists (Z.to_nat x). split; [lia|]. apply in_seq. lia.
Qed.

Lemma flat_map_map_comp {A B C} (f : A -> B) (g : B -> list C) l :
  flat_map g (map f l) = flat_map (fun x => g (f x)) l.
Proof. induction l as [|x r IH]; simpl; [reflexivity | now rewrite IH]. Qed.

Lemma flat_map_In_ext {A B} (f g : A -> list B) l :
  (forall x, In x l -> f x = g x) -> flat_map f l = flat_map g l.
Proof.
  induction l as [|x r IH]; intros H; simpl; [reflexivity|].
  rewrite H by (left; reflexivity). rewrite IH; [reflexivity|].
  intros y Hy. apply H. right. exact Hy.
Qed.

Lemma flat_map_singleton {A B} (f : A -> B) l :
  flat_map (fun x => [f x]) l = map f l.
Proof. induction l as [|x r IH]; simpl; [reflexivity | now rewrite IH]. Qed.

Lemma flat_map_nil {A B} (l : list A) :
  flat_map (fun _ => @nil B) l = [].
Proof. induction l as [|x r IH]; simpl; [reflexivity | exact IH]. Qed.

(** The steady-state nest enumerates [0 .. q*k - 1]. *)
Lemma steady_indices k q :
  0 <= k -> 0 <= q ->
  flat_map (fun o => map (fun j => o * k + j) (iota k)) (iota q) = iota (q * k).
Proof.
  intros Hk Hq. rewrite <- (Z2Nat.id q Hq). generalize (Z.to_nat q) as n.
  induction n as [|n IH]; [reflexivity|].
  rewrite Nat2Z.inj_succ. unfold Z.succ.
  rewrite iota_succ, flat_map_app, IH by lia. cbn [flat_map].
  rewrite app_nil_r, Z.mul_add_distr_r, Z.mul_1_l, iota_app by nia.
  reflexivity.
Qed.

(** The guarded tail enumerates [base .. N - 1]. *)
Lemma tail_indices base N k :
  0 <= N - base <= k ->
  flat_map (fun j => if base + j <? N then [base + j] else []) (iota k)
  = map (Z.add base) (iota (N - base)).
Proof.
  intros H.
  replace k with ((N - base) + (k - (N - base))) at 1 by lia.
  rewrite iota_app, flat_map_app by lia.
  rewrite (flat_map_In_ext _ (fun j => [base + j]) (iota (N - base))).
  2:{ intros x Hx. apply In_iota in Hx.
      destruct (Z.ltb_spec (base + x) N); [reflexivity | lia]. }
  rewrite flat_map_singleton, flat_map_map_comp.
  rewrite (flat_map_In_ext _ (fun _ => []) (iota (k - (N - base)))).
  2:{ intros x Hx. apply In_iota in Hx.
      destruct (Z.ltb_spec (base + (N - base + x)) N); [lia | reflexivity]. }
  rewrite flat_map_nil, app_nil_r. reflexivity.
Qed.


(** ** The detector *)

Ltac expr_induction e :=
  induction e as [t z|s|v|t a IHa|op a b IHa IHb|a IHa|c a b IHc IHa IHb
                 |t bv i p IHi IHp|v a b IHa IHb|t n args IHargs]
    using Expr_ind_nested.

Ltac stmt_induction s :=
  induction s as [v e b IHb|n k v b IHb|c m b IHb|bv v i p|bv t ex c b IHb|bv
                 |a lv mn ex ft da b IHb|c t e IHt IHe|c t IHt|l IHl|e]
    using Stmt_ind_nested.

Section DetectorFacts.
Import DoubleBufferDetector.

Lemma Detector_SeqStmt l T :
  VisitStmt (SeqStmt l) T = fold_left (fun acc x => VisitStmt x acc) l T.
Proof.
  cbn [VisitStmt]. revert T.
  induction l as [|x r IH]; intros T; [reflexivity | apply IH].
Qed.

(** Expressions only ever erase. *)
Lemma Detector_VisitExpr_subseteq e : forall T, VisitExpr e T ⊆ T.
Proof.
  expr_induction e; intros T; cbn [VisitExpr];
    try (unfold VisitExpr_Variable; case_decide); try set_solver.
  revert T. induction IHargs as [|x r Hx Hr IH]; intros T; [set_solver|].
  rewrite IH. apply Hx.
Qed.

Lemma Detector_VisitExprs_subseteq l : forall T, VisitExprs l T ⊆ T.
Proof.
  unfold VisitExprs. induction l as [|x r IH]; intros T; cbn [fold_left].
  - set_solver.
  - rewrite IH. apply Detector_VisitExpr_subseteq.
Qed.

(** A variable that is not referred to stays. *)
Lemma Detector_VisitExpr_keeps x e :
  forall T, refers_expr x e = false -> x ∈ T -> x ∈ VisitExpr e T.
Proof.
  expr_induction e; intros T Hr Hx; cbn [VisitExpr refers_expr] in *;
    repeat match goal with
           | H : (_ || _)%bool = false |- _ =>
               apply orb_false_iff in H; destruct H
           end; auto.
  - unfold VisitExpr_Variable. apply bool_decide_eq_false in Hr.
    case_decide; set_solver.
  - revert T Hx. induction IHargs as [|y r Hy Hrest IH]; intros T Hx; [done|].
    cbn [existsb] in Hr. apply orb_false_iff in Hr as [Hr1 Hr2].
    apply IH; auto.
Qed.

Lemma Detector_VisitExprs_keeps x l :
  forall T, existsb (refers_expr x) l = false -> x ∈ T -> x ∈ VisitExprs l T.
Proof.
  unfold VisitExprs. induction l as [|y r IH]; intros T Hr Hx; [done|].
  cbn [existsb fold_left] in *. apply orb_false_iff in Hr as [Hr1 Hr2].
  apply IH; [done|]. apply Detector_VisitExpr_keeps; done.
Qed.

Lemma Detector_VisitStmt_keeps x s :
  forall T, refers x s = false -> x ∈ T -> x ∈ VisitStmt s T.
Proof.
  stmt_induction s; intros T Hr Hx; cbn [VisitStmt refers] in *;
    repeat match goal with
           | H : (_ || _)%bool = false |- _ =>
               apply orb_false_iff in H; destruct H
           end;
    try solve [auto using Detector_VisitExpr_keeps, Detector_VisitExprs_keeps].
  - destruct (String.eqb k attr.double_buffer_scope);
      apply IHb, Detector_VisitExpr_keeps; auto. set_solver.
  - revert T Hx. induction IHl as [|y r Hy Hrest IH]; intros T Hx; [done|].
    cbn [existsb] in Hr. apply orb_false_iff in Hr as [Hr1 Hr2].
    apply IH; auto.
Qed.

(** A variable that no annotation names is never inserted. *)
Lemma Detector_VisitStmt_not_inserted x s :
  forall T, annotates x s = false -> x ∉ T -> x ∉ VisitStmt s T.
Proof.
  assert (HE : forall e T, x ∉ T -> x ∉ VisitExpr e T).
  { intros e T Hx Hin. apply Detector_VisitExpr_subseteq in Hin. done. }
  assert (HEs : forall l T, x ∉ T -> x ∉ VisitExprs l T).
  { intros l T Hx Hin. apply Detector_VisitExprs_subseteq in Hin. done. }
  stmt_induction s; intros T Ha Hx; cbn [VisitStmt annotates] in *;
    repeat match goal with
           | H : (_ || _)%bool = false |- _ =>
               apply orb_false_iff in H; destruct H
           end;
    try solve [auto].
  - destruct (String.eqb k attr.double_buffer_scope) eqn:Ek.
    + cbn [andb] in H. apply bool_decide_eq_false in H.
      apply IHb, HE; [done|]. set_solver.
    + auto.
  - revert T Hx. induction IHl as [|y r Hy Hrest IH]; intros T Hx; [done|].
    cbn [existsb] in Ha. apply orb_false_iff in Ha as [Ha1 Ha2].
    apply IH; auto.
Qed.

Lemma annotates_has_attr x s :
  has_attr attr.double_buffer_scope s = false -> annotates x s = false.
Proof.
  stmt_induction s; cbn [has_attr annotates]; intros Hs;
    repeat match goal with
           | H : (_ || _)%bool = false |- _ =>
               apply orb_false_iff in H; destruct H
           end; auto.
  - rewrite IHb by done. rewrite H. reflexivity.
  - rewrite IHt, IHe by done. reflexivity.
  - rewrite IHt by done. reflexivity.
  - induction IHl as [|y r Hy Hrest IH]; [done|].
    cbn [existsb] in *. apply orb_false_iff in Hs as [Hs1 Hs2].
    rewrite Hy, IH by done. reflexivity.
Qed.

Lemma Detector_no_annotation s :
  has_attr attr.double_buffer_scope s = false -> run s = ∅.
Proof.
  intros Hs. apply set_eq. intros x. split; [|set_solver].
  intros Hx. exfalso. revert Hx.
  apply Detector_VisitStmt_not_inserted; [|set_solver].
  apply annotates_has_attr, Hs.
Qed.
End DetectorFacts.

(** ** The write-strip rewriter *)
Section StripFacts.
Import StripDoubleBufferWrite.

Lemma Strip_no_marker s :
  has_attr attr.double_buffer_write (VisitStmt s) = false.
Proof.
  stmt_induction s; cbn [VisitStmt has_attr]; auto.
  - destruct (String.eqb k attr.double_buffer_write) eqn:Ek; [done|].
    cbn [has_attr]. rewrite Ek, IHb. reflexivity.
  - rewrite IHt, IHe. reflexivity.
  - rewrite IHt. reflexivity.
  - induction IHl as [|y r Hy Hrest IH]; [done|].
    cbn [map existsb]. rewrite Hy, IH. reflexivity.
Qed.

Lemma Strip_unmarked s :
  has_attr attr.double_buffer_write s = false -> VisitStmt s = s.
Proof.
  stmt_induction s; cbn [VisitStmt has_attr]; intros Hs;
    repeat match goal with
           | H : (_ || _)%bool = false |- _ =>
               apply orb_false_iff in H; destruct H
           end;
    try solve [f_equal; auto].
  - rewrite H, IHb by done. reflexivity.
  - rewrite IHt, IHe by done. reflexivity.
  - f_equal. induction IHl as [|y r Hy Hrest IH]; [done|].
    cbn [map existsb] in *. apply orb_false_iff in Hs as [Hs1 Hs2].
    rewrite Hy, IH by done. reflexivity.
Qed.

Lemma Substitute_has_attr key vmap s :
  has_attr key (Substitute vmap s) = has_attr key s.
Proof.
  stmt_induction s; cbn [Substitute has_attr]; auto.
  - rewrite IHb. reflexivity.
  - rewrite IHt, IHe. reflexivity.
  - rewrite IHt. reflexivity.
  - induction IHl as [|y r Hy Hrest IH]; [done|].
    cbn [map existsb]. rewrite Hy, IH. reflexivity.
Qed.

Lemma Strip_exec env s : exec env (VisitStmt s) = exec env s.
Proof.
  revert env.
  stmt_induction s; intros env; cbn [VisitStmt exec]; auto.
  - destruct (eval env e); auto.
  - destruct (String.eqb k attr.double_buffer_write); cbn [exec]; auto.
  - destruct (eval env mn), (eval env ex); auto.
    apply flat_map_In_ext. auto.
  - rewrite IHt, IHe. reflexivity.
  - rewrite IHt. reflexivity.
  - induction IHl as [|y r Hy Hrest IH]; [done|].
    cbn [map]. rewrite Hy, IH. reflexivity.
Qed.
End StripFacts.

(** ** The injector: reasoning about the traversal *)

Lemma bind_Ok {A B} (m : M A) (f : A -> M B) st r st' :
  bind m f st = Ok (r, st') <->
  exists a st1, m st = Ok (a, st1) /\ f a st1 = Ok (r, st').
Proof.
  unfold bind. destruct (m st) as [[a st1]|msg]; split.
  - intros H. exists a, st1. split; [reflexivity | exact H].
  - intros (a' & st1' & H1 & H2). inversion H1; subst. exact H2.
  - discriminate.
  - intros (a' & st1' & H1 & H2). discriminate.
Qed.

Ltac monad_inv :=
  repeat match goal with
    | H : bind _ _ _ = Ok _ |- _ =>
        apply bind_Ok in H; destruct H as (? & ? & ? & H)
    | H : ret _ _ = Ok _ |- _ => unfold ret in H; inversion H; subst; clear H
    | H : this _ = Ok _ |- _ => unfold this in H; inversion H; subst; clear H
    | H : modify _ _ = Ok _ |- _ =>
        unfold modify in H; inversion H; subst; clear H
    | H : fatal _ _ = Ok _ |- _ => discriminate H
    | H : CHECK ?b _ _ = Ok _ |- _ =>
        unfold CHECK in H; destruct b eqn:?; [|discriminate H];
        inversion H; subst; clear H
    end.

Lemma VisitExpr_Call t n args :
  VisitExpr (Call t n args)
  = bind (mapM VisitExpr args) (fun args' => ret (Call t n args')).
Proof. reflexivity. Qed.

Lemma VisitStmt_SeqStmt k l :
  VisitStmt k (SeqStmt l)
  = bind (mapM (VisitStmt k) l) (fun l' => ret (SeqStmt l')).
Proof. reflexivity. Qed.

Lemma VisitExpr_Load_state t bv i p st e' st' :
  VisitExpr_Load t bv i p st = Ok (e', st') -> st' = st.
Proof.
  unfold VisitExpr_Load. intros H. monad_inv.
  destruct (dbuffer_info_ _ !! _) as [e|]; [|monad_inv; reflexivity].
  destruct (stride e); [|discriminate H].
  destruct (switch_read_var e); [|discriminate H].
  monad_inv. reflexivity.
Qed.

Lemma mapM_state {A B} (f : A -> M B) l :
  Forall (fun x => forall st r st', f x st = Ok (r, st') -> st' = st) l ->
  forall st l' st', mapM f l st = Ok (l', st') -> st' = st.
Proof.
  induction 1 as [|y r Hy Hrest IH]; intros st l' st' H; cbn [mapM] in H;
    monad_inv; [reflexivity|].
  match goal with
  | H1 : f y _ = Ok _, H2 : mapM f r _ = Ok _ |- _ =>
      apply Hy in H1; subst; apply IH in H2; exact H2
  end.
Qed.

(** Visiting an expression reads the members but never writes them. *)
Lemma VisitExpr_state e :
  forall st e' st', VisitExpr e st = Ok (e', st') -> st' = st.
Proof.
  expr_induction e; intros st e' st' H;
    try rewrite VisitExpr_Call in H; cbn [VisitExpr] in H;
    try unfold VisitExpr_Variable in H; monad_inv;
    repeat match goal with
      | IH : forall st e' st', VisitExpr ?a st = Ok _ -> _,
        H : VisitExpr ?a _ = Ok _ |- _ => apply IH in H; subst
      end; try reflexivity.
  - match goal with
    | H : VisitExpr_Load _ _ _ _ _ = Ok _ |- _ =>
        apply VisitExpr_Load_state in H; exact H
    end.
  - match goal with
    | H : mapM _ _ _ = Ok _ |- _ => eapply mapM_state in H; eassumption
    end.
Qed.

Lemma mapM_VisitExpr_state l :
  forall st l' st', mapM VisitExpr l st = Ok (l', st') -> st' = st.
Proof.
  apply mapM_state, Forall_forall. intros x _. apply VisitExpr_state.
Qed.

Lemma VisitExpr_cases e st :
  (exists msg, VisitExpr e st = Fatal msg) \/
  (exists e', VisitExpr e st = Ok (e', st)).
Proof.
  destruct (VisitExpr e st) as [[e' st']|msg] eqn:E; [right|left; eauto].
  apply VisitExpr_state in E as ->. eauto.
Qed.

(** Unfolding and case analysis of a successful run, one step at a time. *)
Ltac munfold H :=
  unfold bind, this, modify, ret, CHECK, fatal, new_Var, lift in H;
  cbn beta iota in H.

Ltac head_scrutinee t :=
  lazymatch t with
  | match ?x with _ => _ end => head_scrutinee x
  | match ?x with _ => _ end _ => head_scrutinee x
  | _ => t
  end.

Ltac mdestruct H :=
  lazymatch type of H with
  | ?lhs = Ok _ =>
      let x := head_scrutinee lhs in
      lazymatch x with
      | lhs => fail "no match to split"
      | VisitExpr ?e ?s =>
          let E := fresh "E" in
          destruct (VisitExpr e s) as [[? ?]|?] eqn:E;
          [apply VisitExpr_state in E; subst | discriminate H]
      | mapM VisitExpr ?l ?s =>
          let E := fresh "E" in
          destruct (mapM VisitExpr l s) as [[? ?]|?] eqn:E;
          [apply mapM_VisitExpr_state in E; subst | discriminate H]
      | _ =>
          let T := type of x in
          lazymatch T with
          | Result (_ * _) => destruct x as [[? ?]|?] eqn:?; [|discriminate H]
          | _ => destruct x eqn:?; try discriminate H
          end
      end
  end;
  cbn beta iota in H.

Ltac minv H := munfold H; repeat mdestruct H; inversion H; subst; clear H.

Lemma VisitStmt_Store_state bv v i p st r st' :
  VisitStmt_Store bv v i p st = Ok (r, st') -> st' = st.
Proof. unfold VisitStmt_Store. intros H. minv H; reflexivity. Qed.

(** *** A rely-style frame rule for the traversal

    [R] relates the members before and after a step.  If [R] is a preorder
    that admits every elementary update the pass makes, then it relates the
    members before and after any successful traversal.  The producer update
    need only be admitted for the buffers [allowed] to be annotated. *)
Section Frame.
Variable R : Injector -> Injector -> Prop.
Variable allowed : VarPtr -> Prop.
Context {R_pre : PreOrder R}.
Hypothesis R_in_scope : forall b st, R st (set_in_scope b st).
Hypothesis R_loop_nest : forall l st, R st (set_loop_nest l st).
Hypothesis R_loop_allocs : forall m st, R st (set_loop_allocs m st).
Hypothesis R_loop_pre : forall m st, R st (set_loop_pre m st).
Hypothesis R_log : forall l st, R st (set_log l st).
Hypothesis R_heap : forall n st, R st (set_heap n st).
Hypothesis R_scope : forall st buf e s,
    dbuffer_info_ st !! buf = Some e -> R st (set_entry_scope buf e s st).
Hypothesis R_stride : forall st buf e sd,
    dbuffer_info_ st !! buf = Some e ->
    R st (set_dbuffer_info (<[buf := set_stride sd e]> (dbuffer_info_ st)) st).
Hypothesis R_producer : forall st buffer e L w,
    allowed (get buffer) ->
    dbuffer_info_ st !! get buffer = Some e ->
    R st (set_dbuffer_info
            (<[get buffer :=
                 mkStorageEntry (stride e) (Some L) w
                                (Some (read_phase (for_loop_var L)))
                                (scope e)]> (dbuffer_info_ st)) st).

(** Peel the updates off the final members, outermost first. *)
Ltac rsolve :=
  repeat match goal with
    | |- R ?s ?s => reflexivity
    | |- R _ (set_loop_pre _ ?x) => transitivity x; [|apply R_loop_pre]
    | |- R _ (set_loop_allocs _ ?x) => transitivity x; [|apply R_loop_allocs]
    | |- R _ (set_loop_nest _ ?x) => transitivity x; [|apply R_loop_nest]
    | |- R _ (set_in_scope _ ?x) => transitivity x; [|apply R_in_scope]
    | |- R _ (set_log _ ?x) => transitivity x; [|apply R_log]
    | |- R _ (set_heap _ ?x) => transitivity x; [|apply R_heap]
    | |- R _ (set_entry_scope _ _ _ ?x) =>
        transitivity x; [|apply R_scope; assumption]
    | |- R _ (set_dbuffer_info (<[_ := set_stride _ _]> _) ?x) =>
        transitivity x; [|apply R_stride; assumption]
    | |- R _ (set_dbuffer_info (<[_ := mkStorageEntry _ _ _ _ _]> _) ?x) =>
        transitivity x; [|apply R_producer; assumption]
    | Hp : preserves R ?m, H : ?m ?x = Ok (_, ?y) |- R _ ?y =>
        transitivity x; [|exact (Hp _ _ _ H)]
    | H : R ?x ?y |- R _ ?y => transitivity x; [|exact H]
    end.

Lemma preserves_hoist_Allocate bv t ex c b :
  preserves R (hoist_Allocate bv t ex c b).
Proof. unfold hoist_Allocate. intros st a st' H. minv H. rsolve. Qed.

Lemma preserves_VisitStmt_Allocate visit_body bv t ex c :
  preserves R visit_body -> preserves R (VisitStmt_Allocate visit_body bv t ex c).
Proof.
  intros Hb st a st' H. unfold VisitStmt_Allocate in H. munfold H.
  repeat mdestruct H.
  - apply preserves_hoist_Allocate in H. etransitivity; [|exact H]. rsolve.
  - inversion H; subst; clear H. rsolve.
Qed.

Lemma preserves_MakeProducer visit_body node :
  preserves R visit_body ->
  (forall buffer, node = NodeVar buffer -> allowed (get buffer)) ->
  preserves R (MakeProducer visit_body node).
Proof.
  intros Hb Hal st a st' H. unfold MakeProducer in H.
  destruct node as [buffer|]; [|discriminate H].
  specialize (Hal buffer eq_refl).
  munfold H. repeat mdestruct H.
  - inversion H; subst; clear H. rsolve.
  - rsolve.
Qed.

Lemma preserves_VisitStmt_AttrStmt visit_body node key value :
  preserves R visit_body ->
  (forall buffer, key = attr.double_buffer_scope -> node = NodeVar buffer ->
                  allowed (get buffer)) ->
  preserves R (VisitStmt_AttrStmt visit_body node key value).
Proof.
  intros Hb Hal st a st' H. unfold VisitStmt_AttrStmt in H.
  destruct (String.eqb key attr.storage_scope) eqn:E1;
    [|destruct (String.eqb key attr.double_buffer_scope) eqn:E2].
  - munfold H. repeat mdestruct H; try (inversion H; subst; clear H); rsolve.
  - apply String.eqb_eq in E2. 
    eapply preserves_MakeProducer; eauto.
  - minv H. rsolve.
Qed.

Lemma preserves_unroll k addr lv mn ex ft da body :
  preserves R (unroll k addr lv mn ex ft da body).
Proof. intros st a st' H. unfold unroll in H. minv H. rsolve. Qed.

Lemma preserves_VisitStmt_For k visit_body addr lv mn ex ft da :
  preserves R visit_body ->
  preserves R (VisitStmt_For k visit_body addr lv mn ex ft da).
Proof.
  intros Hb st a st' H. unfold VisitStmt_For in H. munfold H.
  repeat mdestruct H; inversion H; subst; clear H;
    try match goal with
      | Hu : unroll _ _ _ _ _ _ _ _ _ = Ok _ |- _ =>
          apply preserves_unroll in Hu
      end;
    rsolve.
Qed.

Lemma preserves_mapM {A B} (f : A -> M B) l :
  Forall (fun x => preserves R (f x)) l -> preserves R (mapM f l).
Proof.
  induction 1 as [|y r Hy Hrest IH]; intros st a st' H; cbn [mapM] in H;
    minv H; rsolve.
Qed.

Lemma preserves_VisitStmt sl s :
  (forall x, annotates x s = true -> allowed x) ->
  preserves R (VisitStmt sl s).
Proof.
  stmt_induction s; intros Hal.
  - assert (Hb : preserves R (VisitStmt sl b)) by (apply IHb, Hal).
    intros st a st' H. cbn [VisitStmt] in H. minv H. rsolve.
  - apply preserves_VisitStmt_AttrStmt.
    + apply IHb. intros x Hx. apply Hal. cbn [annotates].
      rewrite Hx. apply orb_true_r.
    + intros buffer -> ->. apply Hal. cbn [annotates].
      rewrite String.eqb_refl, bool_decide_eq_true_2; reflexivity.
  - assert (Hb : preserves R (VisitStmt sl b)) by (apply IHb, Hal).
    intros st a st' H. cbn [VisitStmt] in H. minv H. rsolve.
  - intros st a st' H. cbn [VisitStmt] in H. munfold H.
    repeat mdestruct H. apply VisitStmt_Store_state in H as ->. reflexivity.
  - apply preserves_VisitStmt_Allocate, IHb, Hal.
  - intros st a st' H. cbn [VisitStmt] in H. minv H. rsolve.
  - apply preserves_VisitStmt_For, IHb, Hal.
  - assert (Ht : preserves R (VisitStmt sl t)).
    { apply IHt. intros x Hx. apply Hal. cbn [annotates]. rewrite Hx. reflexivity. }
    assert (He : preserves R (VisitStmt sl e)).
    { apply IHe. intros x Hx. apply Hal. cbn [annotates]. rewrite Hx.
      apply orb_true_r. }
    intros st a st' H. cbn [VisitStmt] in H. minv H. rsolve.
  - assert (Ht : preserves R (VisitStmt sl t)).
    { apply IHt. intros x Hx. apply Hal. cbn [annotates]. rewrite Hx. reflexivity. }
    intros st a st' H. cbn [VisitStmt] in H. minv H. rsolve.
  - assert (Hl : preserves R (mapM (VisitStmt sl) l)).
    { apply preserves_mapM. revert Hal.
      induction IHl as [|y r Hy Hrest IH]; intros Hal; constructor.
      - apply Hy. intros x Hx. apply Hal. cbn [annotates existsb].
        rewrite Hx. reflexivity.
      - apply IH. intros x Hx. apply Hal. cbn [annotates existsb] in *.
        rewrite Hx. apply orb_true_r. }
    intros st a st' H. rewrite VisitStmt_SeqStmt in H. minv H. rsolve.
  - intros st a st' H. cbn [VisitStmt] in H. minv H. rsolve.
Qed.
End Frame.

(** *** Instances of the frame rule *)

Global Instance keeps_PreOrder b : PreOrder (keeps b).
Proof.
  split.
  - intros st e He. exists e. repeat split; [exact He|..]; reflexivity.
  - intros st1 st2 st3 H12 H23 e He.
    destruct (H12 e He) as (e2 & He2 & (E1 & E2 & E3)).
    destruct (H23 e2 He2) as (e3 & He3 & (F1 & F2 & F3)).
    exists e3. split; [exact He3|]. repeat split; congruence.
Qed.

(** A traversal of a statement that does not annotate [b] keeps the loop
    and the phase selectors of [b]. *)
Lemma VisitStmt_keeps sl b s :
  annotates b s = false -> preserves (keeps b) (VisitStmt sl s).
Proof.
  intros Hb.
  apply (preserves_VisitStmt (keeps b) (fun x => x <> b)).
  - intros f st e He. exists e. split; [exact He|]. repeat split.
  - intros f st e He. exists e. split; [exact He|]. repeat split.
  - intros f st e He. exists e. split; [exact He|]. repeat split.
  - intros f st e He. exists e. split; [exact He|]. repeat split.
  - intros f st e He. exists e. split; [exact He|]. repeat split.
  - intros f st e He. exists e. split; [exact He|]. repeat split.
  - intros st buf e0 s0 Hbuf e He. cbn [set_entry_scope dbuffer_info_ set_dbuffer_info].
    destruct (decide (buf = b)) as [->|Hne].
    + rewrite lookup_insert_eq. eexists. split; [reflexivity|].
      rewrite Hbuf in He. inversion He; subst. repeat split.
    + rewrite lookup_insert_ne by exact Hne. exists e. split; [exact He|].
      repeat split.
  - intros st buf e0 sd Hbuf e He. cbn [dbuffer_info_ set_dbuffer_info].
    destruct (decide (buf = b)) as [->|Hne].
    + rewrite lookup_insert_eq. eexists. split; [reflexivity|].
      rewrite Hbuf in He. inversion He; subst. repeat split.
    + rewrite lookup_insert_ne by exact Hne. exists e. split; [exact He|].
      repeat split.
  - intros st buffer e0 L w Hne Hbuf e He. cbn [dbuffer_info_ set_dbuffer_info].
    rewrite lookup_insert_ne by exact Hne. exists e. split; [exact He|].
    repeat split.
  - intros x Hx ->. congruence.
Qed.

Global Instance phases_step_PreOrder : PreOrder phases_step.
Proof.
  split.
  - intros st H. exact H.
  - intros st1 st2 st3 H12 H23 H. apply H23, H12, H.
Qed.

(** Every traversal maintains [phases_ok]. *)
Lemma VisitStmt_phases_ok sl s : preserves phases_step (VisitStmt sl s).
Proof.
  apply (preserves_VisitStmt phases_step (fun _ => True)).
  - intros f st H. exact H.
  - intros f st H. exact H.
  - intros f st H. exact H.
  - intros f st H. exact H.
  - intros f st H. exact H.
  - intros f st H. exact H.
  - intros st buf e0 s0 Hbuf H b e rd He Hrd.
    cbn [set_entry_scope dbuffer_info_ set_dbuffer_info] in He.
    destruct (decide (buf = b)) as [->|Hne].
    + rewrite lookup_insert_eq in He. inversion He; subst.
      apply (H b e0 rd Hbuf Hrd).
    + rewrite lookup_insert_ne in He by exact Hne. apply (H b e rd He Hrd).
  - intros st buf e0 sd Hbuf H b e rd He Hrd.
    cbn [dbuffer_info_ set_dbuffer_info] in He.
    destruct (decide (buf = b)) as [->|Hne].
    + rewrite lookup_insert_eq in He. inversion He; subst.
      apply (H b e0 rd Hbuf Hrd).
    + rewrite lookup_insert_ne in He by exact Hne. apply (H b e rd He Hrd).
  - intros st buffer e0 L w _ Hbuf H b e rd He Hrd.
    cbn [dbuffer_info_ set_dbuffer_info] in He.
    destruct (decide (get buffer = b)) as [<-|Hne].
    + rewrite lookup_insert_eq in He. inversion He; subst.
      cbn [switch_read_var] in Hrd. inversion Hrd; subst.
      exists L. split; reflexivity.
    + rewrite lookup_insert_ne in He by exact Hne. apply (H b e rd He Hrd).
  - intros x _. exact I.
Qed.

Lemma fresh_entries_lookup l a b e :
  fresh_entries l a !! b = Some e ->
  b ∈ l /\ exists k, e = StorageEntry_init k /\ (a <= k < a + length l)%nat.
Proof.
  revert a. induction l as [|x r IH]; intros a H; cbn [fresh_entries] in H.
  - rewrite lookup_empty in H. discriminate H.
  - destruct (decide (x = b)) as [->|Hne].
    + rewrite lookup_insert_eq in H. inversion H; subst. split; [left|].
      exists a. split; [reflexivity|]. cbn [length]. lia.
    + rewrite lookup_insert_ne in H by exact Hne.
      destruct (IH _ H) as [Hin (k & -> & Hk)].
      split; [right; exact Hin|]. exists k. split; [reflexivity|].
      cbn [length]. lia.
Qed.

Lemma fresh_entries_is_Some l a b :
  is_Some (fresh_entries l a !! b) <-> b ∈ l.
Proof.
  revert a. induction l as [|x r IH]; intros a; cbn [fresh_entries].
  - rewrite lookup_empty. split; [intros [? H]; discriminate H|].
    intros H. inversion H.
  - rewrite lookup_insert_is_Some', IH, elem_of_cons.
    split; intros [H|H]; auto.
Qed.

(** The table of the injector as constructed: an entry for each candidate
    and for nothing else, every entry default-constructed. *)
Lemma init_lookup touched heap b e :
  dbuffer_info_ (init touched heap) !! b = Some e ->
  b ∈ touched /\
  exists k, e = StorageEntry_init k /\
            (heap <= k < heap_ (init touched heap))%nat.
Proof.
  cbn [init dbuffer_info_ heap_]. intros H.
  apply fresh_entries_lookup in H as [Hin Hk].
  split; [apply elem_of_elements, Hin|exact Hk].
Qed.

Lemma init_is_Some touched heap b :
  is_Some (dbuffer_info_ (init touched heap) !! b) <-> b ∈ touched.
Proof.
  cbn [init dbuffer_info_]. rewrite fresh_entries_is_Some.
  apply elem_of_elements.
Qed.

Lemma phases_ok_init touched heap : phases_ok (init touched heap).
Proof.
  intros b e rd He Hrd.
  apply init_lookup in He as [_ (k & -> & _)]. discriminate Hrd.
Qed.

(** *** Expressions that mention no tracked buffer *)

Lemma mapM_untouched {A} (f : A -> M A) l st :
  Forall (fun x => f x st = Ok (x, st)) l -> mapM f l st = Ok (l, st).
Proof.
  induction 1 as [|y r Hy Hrest IH]; cbn [mapM]; [reflexivity|].
  unfold bind at 1. rewrite Hy. unfold bind at 1. rewrite IH. reflexivity.
Qed.

Lemma VisitExpr_untouched e st :
  mentions_tracked (dbuffer_info_ st) e = false -> VisitExpr e st = Ok (e, st).
Proof.
  expr_induction e; intros Hm; try rewrite VisitExpr_Call;
    cbn [VisitExpr mentions_tracked] in *;
    repeat match goal with
      | H : (_ || _)%bool = false |- _ =>
          apply orb_false_iff in H; destruct H
      end;
    unfold bind;
    repeat match goal with
      | IH : _ -> VisitExpr ?a st = _ |- context [VisitExpr ?a st] =>
          rewrite IH by assumption
      end; try reflexivity.
  - unfold VisitExpr_Variable, bind, this, CHECK. rewrite Hm. reflexivity.
  - unfold VisitExpr_Load, bind, this.
    match goal with
    | H : bool_decide _ = false |- _ =>
        apply bool_decide_eq_false in H;
        destruct (dbuffer_info_ st !! get bv) as [e|] eqn:E;
        [exfalso; apply H; eauto | reflexivity]
    end.
  - rewrite mapM_untouched; [reflexivity|].
    induction IHargs as [|y r Hy Hrest IH]; constructor;
      cbn [existsb] in Hm; apply orb_false_iff in Hm as [Hm1 Hm2]; auto.
Qed.

Lemma mapM_VisitExpr_untouched l st :
  existsb (mentions_tracked (dbuffer_info_ st)) l = false ->
  mapM VisitExpr l st = Ok (l, st).
Proof.
  intros H. apply mapM_untouched.
  induction l as [|y r IH]; constructor;
    cbn [existsb] in H; apply orb_false_iff in H as [H1 H2];
    auto using VisitExpr_untouched.
Qed.

(** *** The substitution maps of the producer rewrite *)

Lemma vmap_prologue_eq (w i : Var) (zero : Expr) :
  vmap_prologue w i zero = <[var_id i := zero]> {[var_id w := zero]}.
Proof. unfold vmap_prologue. rewrite insert_empty. reflexivity. Qed.

Lemma vmap_steady_eq (w i : Var) (zero a b : Expr) :
  vmap_steady w i zero a b = <[var_id w := indexmod a b]> {[var_id i := a]}.
Proof.
  unfold vmap_steady, vmap_prologue. apply map_eq. intros j.
  destruct (decide (var_id w = j)) as [<-|Hw].
  - rewrite !lookup_insert_eq. reflexivity.
  - rewrite !(lookup_insert_ne _ (var_id w)) by exact Hw.
    destruct (decide (var_id i = j)) as [<-|Hi].
    + rewrite lookup_insert_eq, lookup_singleton_eq. reflexivity.
    + rewrite !lookup_insert_ne, lookup_singleton_ne by assumption.
      rewrite lookup_empty. reflexivity.
Qed.

(** *** Values of the generated expressions *)

Lemma eval_fold_mul env xs :
  forall x,
    eval env (fold_left mul_ xs x) = eval_product env (x :: xs).
Proof.
  induction xs as [|y ys IH]; intros x; cbn [fold_left eval_product].
  - destruct (eval env x); [f_equal; lia | reflexivity].
  - rewrite IH. cbn [eval_product eval mul_].
    destruct (eval env x) as [a|]; [|reflexivity].
    destruct (eval env y) as [b|]; [|reflexivity].
    cbn [eval_binop]. destruct (eval_product env ys) as [c|]; [|reflexivity].
    f_equal. lia.
Qed.

Lemma mod2_range z : 0 <= z mod 2 <= 1.
Proof. pose proof (Z.mod_pos_bound z 2 ltac:(lia)). lia. Qed.

(** ** Prologues and the unroll factor *)

Global Instance step_ok_PreOrder : PreOrder step_ok.
Proof.
  split.
  - intros st. repeat split; eauto.
  - intros st1 st2 st3 (N12 & M12 & B12 & K12 & Q12) (N23 & M23 & B23 & K23 & Q23).
    repeat split.
    + congruence.
    + eauto.
    + intros a Ha. destruct (B23 a Ha) as [H|H]; [eauto|].
      right. rewrite <- N12. exact H.
    + eauto.
    + intros b e3 L He3 HL.
      destruct (Q23 b e3 L He3 HL) as [H|(e2 & He2 & HL2)]; [left; exact H|].
      destruct (Q12 b e2 L He2 HL2) as [H|H]; [left; eauto | right; exact H].
Qed.

(** A step that leaves the stack, the prologues and the entries alone. *)
Lemma step_ok_fields st st' :
  loop_nest_ st' = loop_nest_ st ->
  loop_pre_ st' = loop_pre_ st ->
  dbuffer_info_ st' = dbuffer_info_ st ->
  step_ok st st'.
Proof.
  intros HN HP HI. unfold step_ok. rewrite HN, HP, HI.
  repeat split; eauto.
Qed.

(** A step that rewrites one entry and keeps its loop. *)
Lemma step_ok_entry st b e e' :
  dbuffer_info_ st !! b = Some e ->
  loop e' = loop e ->
  step_ok st (set_dbuffer_info (<[b := e']> (dbuffer_info_ st)) st).
Proof.
  intros He Hl. unfold step_ok. cbn [loop_nest_ loop_pre_ dbuffer_info_ set_dbuffer_info].
  repeat split; eauto.
  - intros x Hx. destruct (decide (b = x)) as [<-|Hne].
    + rewrite lookup_insert_eq. eauto.
    + rewrite lookup_insert_ne by exact Hne. exact Hx.
  - intros x ex L Hx HL. right. destruct (decide (b = x)) as [<-|Hne].
    + rewrite lookup_insert_eq in Hx. inversion Hx; subst.
      exists e. split; [exact He | congruence].
    + rewrite lookup_insert_ne in Hx by exact Hne. eauto.
Qed.

Lemma back_In {A} (l : list A) (x : A) : back l = Some x -> In x l.
Proof.
  unfold back. intros H. apply list_elem_of_In. apply last_Some in H as [l' ->].
  set_solver.
Qed.

Lemma pop_back_push {A} (l : list A) (x : A) : pop_back (l ++ [x]) = l.
Proof. unfold pop_back. apply removelast_last. Qed.


Lemma step_ok_pre_nonempty st st' :
  step_ok st st' ->
  (exists a, is_Some (loop_pre_ st !! a)) ->
  exists a, is_Some (loop_pre_ st' !! a).
Proof. intros (_ & M & _) [a Ha]. exists a. apply M, Ha. Qed.

Lemma step_ok_tracked st st' b :
  step_ok st st' ->
  is_Some (dbuffer_info_ st !! b) -> is_Some (dbuffer_info_ st' !! b).
Proof. intros (_ & _ & _ & K & _). apply K. Qed.

Ltac orb_true H :=
  repeat match type of H with
    | (_ || _)%bool = true => apply orb_true_iff in H; destruct H as [H|H]
    end.

Lemma run_ok_mapM k l :
  Forall (run_ok k) l ->
  forall st l' st',
    mapM (VisitStmt k) l st = Ok (l', st') ->
    step_ok st st' /\
    (forall b, existsb (annotates b) l = true ->
               is_Some (dbuffer_info_ st !! b) ->
               exists a, is_Some (loop_pre_ st' !! a)).
Proof.
  induction 1 as [|y r Hy Hrest IH]; intros st l' st' H; cbn [mapM] in H.
  - minv H. split; [reflexivity|]. intros b Hb. discriminate Hb.
  - munfold H. repeat mdestruct H. inversion H; subst; clear H.
    match goal with
    | H1 : VisitStmt k y st = Ok (_, ?s1), H2 : mapM _ r ?s1 = Ok _ |- _ =>
        destruct (Hy _ _ _ H1) as [S1 P1]; destruct (IH _ _ _ H2) as [S2 P2]
    end.
    split; [etransitivity; eassumption|].
    intros b Hb Ht. cbn [existsb] in Hb. orb_true Hb.
    + eapply step_ok_pre_nonempty; [exact S2|]. apply (P1 b Hb Ht).
    + apply (P2 b Hb). eapply step_ok_tracked; [exact S1 | exact Ht].
Qed.

Lemma run_ok_scope k node value body :
  run_ok k body ->
  run_ok k (AttrStmt node attr.double_buffer_scope value body).
Proof.
  intros IH st r st' H. cbn [VisitStmt] in H. unfold VisitStmt_AttrStmt in H.
  replace (String.eqb attr.double_buffer_scope attr.storage_scope)
    with false in H by reflexivity.
  rewrite String.eqb_refl in H. unfold MakeProducer in H.
  destruct node as [buffer|key]; [|discriminate H].
  munfold H.
  destruct (negb _) eqn:Hlen; [|discriminate H].
  destruct (dbuffer_info_ st !! get buffer) as [e|] eqn:Hent.
  - (* the buffer is tracked *)
    destruct (back (loop_nest_ st)) as [L|] eqn:Hback; [|discriminate H].
    cbn beta iota in H.
    destruct (VisitStmt k body _) as [[B st2]|] eqn:Hbody; [|discriminate H].
    cbn beta iota in H.
    destruct (dbuffer_info_ (set_in_scope false st2) !! get buffer)
      as [e2|] eqn:Hent2; [|discriminate H].
    destruct (loop e2) as [L2|] eqn:Hloop2; [|discriminate H].
    inversion H; subst; clear H.
    destruct (IH _ _ _ Hbody) as [(N & M & B0 & K & Q) _].
    cbn [loop_nest_ loop_pre_ dbuffer_info_ set_in_scope set_dbuffer_info
         set_heap] in N, M, B0, K, Q, Hent2.
    assert (HL2 : is_Some (loop_pre_ st2 !! for_addr L2) \/ L2 = L).
    { destruct (Q _ _ _ Hent2 Hloop2) as [Hq|(em & Hem & HLm)]; [left; exact Hq|].
      rewrite lookup_insert_eq in Hem. inversion Hem; subst.
      cbn [loop] in HLm. inversion HLm; subst. right. reflexivity. }
    split; [|intros b _ _; eexists; cbn [loop_pre_ set_loop_pre];
             rewrite lookup_insert_eq; eauto].
    unfold step_ok.
    cbn [loop_nest_ loop_pre_ dbuffer_info_ set_in_scope set_loop_pre].
    split; [exact N|]. split; [|split; [|split]].
    + intros a Ha. apply lookup_insert_is_Some'. right. apply M, Ha.
    + intros a Ha. apply lookup_insert_is_Some' in Ha as [<-|Ha]; [|apply B0, Ha].
      destruct HL2 as [Hq| ->]; [apply B0, Hq|].
      right. apply in_map, back_In. assumption.
    + intros b Hb. apply K. apply lookup_insert_is_Some'. right. exact Hb.
    + intros b e' L' He' HL'.
      destruct (Q _ _ _ He' HL') as [Hq|(em & Hem & HLm)].
      * left. apply lookup_insert_is_Some'. right. exact Hq.
      * destruct (decide (get buffer = b)) as [<-|Hne].
        -- left. assert (L' = L2) as -> by congruence.
           rewrite lookup_insert_eq. eauto.
        -- right. rewrite lookup_insert_ne in Hem by exact Hne. eauto.
  - (* the buffer is not tracked *)
    cbn beta iota in H.
    destruct (IH _ _ _ H) as [S P].
    split.
    + etransitivity; [|exact S]. apply step_ok_fields; reflexivity.
    + intros b Hb Ht. apply (P b); [|exact Ht].
      cbn [annotates] in Hb. orb_true Hb; [|exact Hb].
      apply andb_true_iff in Hb as [_ Hb]. apply bool_decide_eq_true in Hb.
      cbn [as_Variable] in Hb. subst b.
      rewrite Hent in Ht. destruct Ht as [? Ht]. discriminate Ht.
Qed.

Lemma run_ok_AttrStmt k node key value body :
  run_ok k body -> run_ok k (AttrStmt node key value body).
Proof.
  intros IH.
  destruct (String.eqb key attr.double_buffer_scope) eqn:Ekey.
  { apply String.eqb_eq in Ekey. subst key. apply run_ok_scope, IH. }
  assert (Hann : forall b, annotates b (AttrStmt node key value body) = true ->
                           annotates b body = true).
  { intros b Hb. cbn [annotates] in Hb. rewrite Ekey in Hb. exact Hb. }
  intros st r st' H. cbn [VisitStmt] in H. unfold VisitStmt_AttrStmt in H.
  rewrite Ekey in H.
  destruct (String.eqb key attr.storage_scope).
  - munfold H.
    destruct (dbuffer_info_ st !! as_Variable node) as [e|] eqn:Hent.
    + destruct value; try discriminate H. cbn beta iota in H.
      destruct (IH _ _ _ H) as [S P].
      assert (S0 : step_ok st (set_entry_scope (as_Variable node) e value st)).
      { apply (step_ok_entry st _ e); [exact Hent | reflexivity]. }
      split; [etransitivity; eassumption|].
      intros b Hb Ht. apply (P b (Hann b Hb)).
      eapply step_ok_tracked; [exact S0 | exact Ht].
    + repeat mdestruct H. inversion H; subst; clear H.
      match goal with
      | Hb : VisitStmt k body st = Ok _ |- _ => destruct (IH _ _ _ Hb) as [S P]
      end.
      split; [exact S|]. intros b Hb Ht. apply (P b (Hann b Hb) Ht).
  - munfold H. repeat mdestruct H. inversion H; subst; clear H.
    match goal with
    | Hb : VisitStmt k body st = Ok _ |- _ => destruct (IH _ _ _ Hb) as [S P]
    end.
    split; [exact S|]. intros b Hb Ht. apply (P b (Hann b Hb) Ht).
Qed.

Lemma run_ok_Allocate k bv t extents condition body :
  run_ok k body -> run_ok k (Allocate bv t extents condition body).
Proof.
  intros IH st r st' H. cbn [VisitStmt] in H. unfold VisitStmt_Allocate in H.
  munfold H.
  destruct (dbuffer_info_ st !! get bv) as [e|] eqn:Hent.
  - destruct (ComputeReduce_Mul extents) as [prod|]; [|discriminate H].
    cbn beta iota in H. mdestruct H.
    destruct (VisitStmt k body _) as [[B st2]|] eqn:Hbody; [|discriminate H].
    cbn beta iota in H. mdestruct H.
    unfold hoist_Allocate in H. munfold H. repeat mdestruct H.
    inversion H; subst; clear H.
    destruct (IH _ _ _ Hbody) as [S P].
    match type of Hbody with
    | VisitStmt _ _ ?st1 = _ =>
        assert (S0 : step_ok st st1)
          by (apply (step_ok_entry st _ e); [exact Hent | reflexivity])
    end.
    split.
    + etransitivity; [exact S0|]. etransitivity; [exact S|].
      apply step_ok_fields; reflexivity.
    + intros b Hb Ht. cbn [annotates] in Hb.
      destruct (P b Hb) as [a Ha].
      { eapply step_ok_tracked; [exact S0 | exact Ht]. }
      exists a. exact Ha.
  - cbn beta iota in H. mdestruct H.
    destruct (VisitStmt k body _) as [[B st2]|] eqn:Hbody; [|discriminate H].
    cbn beta iota in H. mdestruct H. inversion H; subst; clear H.
    destruct (IH _ _ _ Hbody) as [S P].
    split; [exact S|]. intros b Hb Ht. apply (P b Hb Ht).
Qed.

Lemma unroll_rejected k addr lv mn ex ft da body st :
  rejected_factor k ->
  unroll k addr lv mn ex ft da body st
  = Fatal "It is better to split with multiple of 2".
Proof.
  intros (H0 & Hodd & H1). unfold unroll, bind, CHECK.
  destruct (Z.eqb_spec (Z.rem k 2) 0) as [?|_]; [contradiction|].
  destruct (Z.eqb_spec k 1) as [?|_]; [contradiction|].
  reflexivity.
Qed.

Lemma run_ok_For k addr lv mn ex ft da body :
  rejected_factor k ->
  run_ok k body -> run_ok k (For addr lv mn ex ft da body).
Proof.
  intros Hk IH st r st' H. cbn [VisitStmt] in H. unfold VisitStmt_For in H.
  munfold H. mdestruct H. mdestruct H.
  destruct (VisitStmt k body _) as [[B st1]|] eqn:Hbody; [|discriminate H].
  cbn beta iota in H.
  destruct (loop_pre_ st1 !! addr) as [pre|] eqn:Hpre.
  { exfalso. destruct Hk as (H0 & Hk).
    destruct (Z.eqb_spec k 0) as [?|_]; [contradiction|]. cbn [negb] in H.
    rewrite unroll_rejected in H by (split; assumption). discriminate H. }
  cbn beta iota in H.
  assert (Hst' : st' = set_loop_nest (pop_back (loop_nest_ st1)) st1).
  { repeat mdestruct H; inversion H; subst; reflexivity. }
  clear H. subst st'.
  destruct (IH _ _ _ Hbody) as [(N & M & B0 & K & Q) P].
  cbn [loop_nest_ loop_pre_ dbuffer_info_ set_loop_nest] in N, M, B0, K, Q.
  split; [|intros b Hb Ht; apply (P b Hb Ht)].
  unfold step_ok. cbn [loop_nest_ loop_pre_ dbuffer_info_ set_loop_nest].
  split; [rewrite N; apply pop_back_push|].
  split; [exact M|]. split; [|split; [exact K | exact Q]].
  intros a Ha. destruct (B0 a Ha) as [Hp|Hin]; [left; exact Hp|].
  rewrite map_app in Hin. apply in_app_or in Hin as [Hin|[<-|[]]].
  - right. exact Hin.
  - cbn [for_addr] in Ha. rewrite Hpre in Ha. destruct Ha as [? Ha]. discriminate Ha.
Qed.

(** With a rejected factor, every successful traversal is a [step_ok] step
    that leaves a prologue behind whenever it meets the annotation of a
    tracked buffer. *)
Lemma run_ok_VisitStmt sl s : rejected_factor sl -> run_ok sl s.
Proof.
  intros Hk. stmt_induction s.
  - intros st r st' H. cbn [VisitStmt] in H. minv H.
    match goal with
    | Hb : VisitStmt sl b st = Ok _ |- _ => apply (IHb _ _ _ Hb)
    end.
  - apply run_ok_AttrStmt, IHb.
  - intros st r st' H. cbn [VisitStmt] in H. minv H.
    match goal with
    | Hb : VisitStmt sl b st = Ok _ |- _ => apply (IHb _ _ _ Hb)
    end.
  - intros st r st' H. cbn [VisitStmt] in H. munfold H. repeat mdestruct H.
    apply VisitStmt_Store_state in H as ->.
    split; [reflexivity|]. intros b Hb. discriminate Hb.
  - apply run_ok_Allocate, IHb.
  - intros st r st' H. cbn [VisitStmt] in H. minv H.
    split; [reflexivity|]. intros b Hb. discriminate Hb.
  - apply run_ok_For; [exact Hk | exact IHb].
  - intros st r st' H. cbn [VisitStmt] in H. minv H.
    match goal with
    | H1 : VisitStmt sl t st = Ok (_, ?s1), H2 : VisitStmt sl e ?s1 = Ok _ |- _ =>
        destruct (IHt _ _ _ H1) as [S1 P1]; destruct (IHe _ _ _ H2) as [S2 P2]
    end.
    split; [etransitivity; eassumption|].
    intros b Hb Ht. cbn [annotates] in Hb. orb_true Hb.
    + eapply step_ok_pre_nonempty; [exact S2|]. apply (P1 b Hb Ht).
    + apply (P2 b Hb). eapply step_ok_tracked; [exact S1 | exact Ht].
  - intros st r st' H. cbn [VisitStmt] in H. minv H.
    match goal with
    | H1 : VisitStmt sl t st = Ok _ |- _ => destruct (IHt _ _ _ H1) as [S1 P1]
    end.
    split; [exact S1|]. intros b Hb Ht. cbn [annotates] in Hb.
    rewrite orb_false_r in Hb. apply (P1 b Hb Ht).
  - intros st r st' H. rewrite VisitStmt_SeqStmt in H. minv H.
    match goal with
    | H1 : mapM _ l st = Ok _ |- _ => apply (run_ok_mapM sl l IHl _ _ _ H1)
    end.
  - intros st r st' H. cbn [VisitStmt] in H. minv H.
    split; [reflexivity|]. intros b Hb. discriminate Hb.
Qed.

(** Every candidate is named by an annotation. *)
Lemma Detector_candidate_annotated b s :
  b ∈ DoubleBufferDetector.run s -> annotates b s = true.
Proof.
  intros Hb. destruct (annotates b s) eqn:E; [reflexivity|]. exfalso.
  revert Hb. apply Detector_VisitStmt_not_inserted; [exact E | set_solver].
Qed.

(** When a loop that received a prologue is reassembled, a rejected factor
    aborts the pass. *)
Lemma loop_with_prologue_checks_factor
        (split_loop : Z) (addr : nat) (lv : Var) (mn ex : Expr) (ft : ForType)
        (da : DeviceAPI) (body : Stmt) (st : Injector)
        (mn' ex' : Expr) (body' : Stmt) (st' : Injector) (pre : list Stmt) :
  split_loop <> 0 -> Z.rem split_loop 2 <> 0 -> split_loop <> 1 ->
  let st0 := set_loop_nest (loop_nest_ st ++ [mkForPtr addr lv mn ex]) st in
  VisitExpr mn st0 = Ok (mn', st0) ->
  VisitExpr ex st0 = Ok (ex', st0) ->
  VisitStmt split_loop body st0 = Ok (body', st') ->
  loop_pre_ st' !! addr = Some pre ->
  VisitStmt split_loop (For addr lv mn ex ft da body) st
  = Fatal "It is better to split with multiple of 2".
Proof.
  intros H0 Hodd H1 st0 Hmn Hex Hbody Hpre.
  cbn [VisitStmt]. unfold VisitStmt_For, bind, modify, this.
  fold st0. rewrite Hmn, Hex, Hbody, Hpre.
  destruct (Z.eqb_spec split_loop 0) as [?|_]; [contradiction|].
  cbn [negb]. unfold unroll, bind, CHECK.
  destruct (Z.eqb_spec (Z.rem split_loop 2) 0) as [?|_]; [contradiction|].
  destruct (Z.eqb_spec split_loop 1) as [?|_]; [contradiction|].
  reflexivity.
Qed.


(** ** Substitution and evaluation *)

Ltac orb_false :=
  repeat match goal with
    | H : (_ || _)%bool = false |- _ => apply orb_false_iff in H; destruct H
    end.

Lemma stable_weaken (bound1 bound2 : nat -> bool) env repl val :
  (forall y, bound2 y = false -> bound1 y = false) ->
  stable bound2 env repl val -> stable bound1 env repl val.
Proof.
  intros Hsub Hst env' Henv. apply Hst. intros y Hy. apply Henv, Hsub, Hy.
Qed.

Lemma stable_bind (bound1 bound2 : nat -> bool) env w vw repl val :
  (forall y, bound2 y = false -> bound1 y = false /\ y <> var_id w) ->
  stable bound2 env repl val ->
  stable bound1 (bind_var env w vw) repl val.
Proof.
  intros Hsub Hst env' Henv. apply Hst. intros y Hy.
  destruct (Hsub y Hy) as [H1 H2]. rewrite (Henv y H1).
  unfold bind_var. destruct (Nat.eqb_spec y (var_id w)); [contradiction|reflexivity].
Qed.

Lemma eval_Substitute_expr x repl val tgt :
  forall env1 env2,
    (forall y, y <> x -> uses_expr y tgt = true -> env1 y = env2 y) ->
    env2 x = val ->
    stable (fun y => binds_expr y tgt) env1 repl val ->
    binds_expr x tgt = false ->
    eval env1 (Substitute_expr {[x := repl]} tgt) = eval env2 tgt.
Proof.
  expr_induction tgt; intros env1 env2 Hag Hx Hst Hb;
    cbn [Substitute_expr eval binds_expr uses_expr] in *; orb_false;
    try reflexivity.
  - destruct (decide (var_id v = x)) as [<-|Hne].
    + rewrite lookup_singleton_eq. rewrite Hx. apply Hst. reflexivity.
    + rewrite lookup_singleton_ne by congruence. cbn [eval]. f_equal.
      apply Hag; [congruence | apply Nat.eqb_refl].
  - apply IHa; auto.
  - rewrite (IHa env1 env2), (IHb env1 env2); auto.
    + intros y Hy Hu. apply Hag; [exact Hy|]. rewrite Hu. apply orb_true_r.
    + eapply stable_weaken; [|exact Hst]. intros y Hy. cbn beta in Hy.
      apply orb_false_iff in Hy as [_ Hy]. exact Hy.
    + intros y Hy Hu. apply Hag; [exact Hy|]. rewrite Hu. reflexivity.
    + eapply stable_weaken; [|exact Hst]. intros y Hy. cbn beta in Hy.
      apply orb_false_iff in Hy as [Hy _]. exact Hy.
  - rewrite (IHa env1 env2); auto.
  - rewrite (IHc env1 env2), (IHa env1 env2), (IHb env1 env2); auto.
    + intros y Hy Hu. apply Hag; [exact Hy|]. rewrite Hu. apply orb_true_r.
    + eapply stable_weaken; [|exact Hst]. intros y Hy. cbn beta in Hy.
      orb_false. assumption.
    + intros y Hy Hu. apply Hag; [exact Hy|]. rewrite Hu.
      rewrite orb_true_r. reflexivity.
    + eapply stable_weaken; [|exact Hst]. intros y Hy. cbn beta in Hy.
      orb_false. assumption.
    + intros y Hy Hu. apply Hag; [exact Hy|]. rewrite Hu. reflexivity.
    + eapply stable_weaken; [|exact Hst]. intros y Hy. cbn beta in Hy.
      orb_false. assumption.
  - match goal with
    | H : Nat.eqb (var_id v) x = false |- _ => apply Nat.eqb_neq in H
    end.
    rewrite (IHa env1 env2); auto.
    + destruct (eval env2 a) as [va|]; [|reflexivity].
      apply IHb; auto.
      * intros y Hy Hu. unfold bind_var.
        destruct (Nat.eqb y (var_id v)); [reflexivity|].
        apply Hag; [exact Hy|]. rewrite Hu. rewrite !orb_true_r. reflexivity.
      * unfold bind_var. destruct (Nat.eqb_spec x (var_id v)); [congruence|].
        exact Hx.
      * eapply stable_bind; [|exact Hst]. intros y Hy. cbn beta in Hy.
        orb_false. split; [assumption|].
        match goal with
        | H : Nat.eqb (var_id v) y = false |- _ => apply Nat.eqb_neq in H
        end. congruence.
    + intros y Hy Hu. apply Hag; [exact Hy|]. rewrite Hu.
      rewrite orb_true_r. reflexivity.
    + eapply stable_weaken; [|exact Hst]. intros y Hy. cbn beta in Hy.
      orb_false. assumption.
Qed.

Ltac sub_agree Hag :=
  let y := fresh "y" in let Hy := fresh "Hy" in let Hu := fresh "Hu" in
  intros y Hy Hu; apply Hag; [exact Hy|]; rewrite Hu;
  rewrite ?orb_true_r; reflexivity.

Ltac sub_stable Hst :=
  let y := fresh "y" in let Hy := fresh "Hy" in
  eapply stable_weaken; [|exact Hst]; intros y Hy; cbn beta in Hy;
  orb_false; assumption.

Ltac sub_stable_bind Hst :=
  let y := fresh "y" in let Hy := fresh "Hy" in
  eapply stable_bind; [|exact Hst]; intros y Hy; cbn beta in Hy;
  orb_false; split; [assumption|];
  match goal with
  | H : Nat.eqb (var_id _) y = false |- _ => apply Nat.eqb_neq in H; congruence
  end.

Lemma exec_Substitute x repl val s :
  forall env1 env2,
    (forall y, y <> x -> uses y s = true -> env1 y = env2 y) ->
    env2 x = val ->
    stable (fun y => binds y s) env1 repl val ->
    binds x s = false ->
    exec env1 (Substitute {[x := repl]} s) = exec env2 s.
Proof.
  stmt_induction s; intros env1 env2 Hag Hx Hst Hb;
    cbn [Substitute exec binds uses] in *; orb_false; try reflexivity.
  - (* LetStmt *)
    match goal with
    | H : Nat.eqb (var_id v) x = false |- _ => apply Nat.eqb_neq in H
    end.
    rewrite (eval_Substitute_expr x repl val e env1 env2);
      [|sub_agree Hag|exact Hx|sub_stable Hst|assumption].
    destruct (eval env2 e) as [ve|]; [|reflexivity].
    apply IHb; [| |sub_stable_bind Hst|assumption].
    + intros y Hy Hu. unfold bind_var.
      destruct (Nat.eqb y (var_id v)); [reflexivity|].
      apply Hag; [exact Hy|]. rewrite Hu. rewrite !orb_true_r. reflexivity.
    + unfold bind_var. destruct (Nat.eqb_spec x (var_id v)); [congruence|].
      exact Hx.
  - (* AttrStmt *)
    apply IHb; [sub_agree Hag|exact Hx|sub_stable Hst|assumption].
  - (* AssertStmt *)
    apply IHb; [sub_agree Hag|exact Hx|sub_stable Hst|assumption].
  - (* Allocate *)
    apply IHb; [sub_agree Hag|exact Hx|sub_stable Hst|assumption].
  - (* For *)
    match goal with
    | H : Nat.eqb (var_id lv) x = false |- _ => apply Nat.eqb_neq in H
    end.
    rewrite (eval_Substitute_expr x repl val mn env1 env2);
      [|sub_agree Hag|exact Hx|sub_stable Hst|assumption].
    rewrite (eval_Substitute_expr x repl val ex env1 env2);
      [|sub_agree Hag|exact Hx|sub_stable Hst|assumption].
    destruct (eval env2 mn) as [m|]; [|reflexivity].
    destruct (eval env2 ex) as [n|]; [|reflexivity].
    apply flat_map_In_ext. intros j _.
    apply IHb; [| |sub_stable_bind Hst|assumption].
    + intros y Hy Hu. unfold bind_var.
      destruct (Nat.eqb y (var_id lv)); [reflexivity|].
      apply Hag; [exact Hy|]. rewrite Hu. rewrite !orb_true_r. reflexivity.
    + unfold bind_var. destruct (Nat.eqb_spec x (var_id lv)); [congruence|].
      exact Hx.
  - (* IfThenElse with else *)
    rewrite (eval_Substitute_expr x repl val c env1 env2);
      [|sub_agree Hag|exact Hx|sub_stable Hst|assumption].
    rewrite (IHt env1 env2), (IHe env1 env2);
      [reflexivity|sub_agree Hag|exact Hx|sub_stable Hst|assumption
       |sub_agree Hag|exact Hx|sub_stable Hst|assumption].
  - (* IfThenElse without else *)
    rewrite (eval_Substitute_expr x repl val c env1 env2);
      [|sub_agree Hag|exact Hx|sub_stable Hst|assumption].
    rewrite (IHt env1 env2);
      [reflexivity|sub_agree Hag|exact Hx|sub_stable Hst|assumption].
  - (* SeqStmt *)
    revert Hag Hst Hb.
    induction IHl as [|y r Hy Hrest IH]; intros Hag Hst Hb; [reflexivity|].
    cbn [map existsb] in *. orb_false.
    rewrite (Hy env1 env2);
      [|sub_agree Hag|exact Hx|sub_stable Hst|assumption].
    f_equal. apply IH; [sub_agree Hag|sub_stable Hst|assumption].
  - (* Evaluate *)
    rewrite (eval_Substitute_expr x repl val e env1 env2);
      [reflexivity|exact Hag|exact Hx|exact Hst|exact Hb].
Qed.

Lemma binds_expr_uses x e : uses_expr x e = false -> binds_expr x e = false.
Proof.
  expr_induction e; cbn [uses_expr binds_expr]; intros H; orb_false;
    try reflexivity; auto.
  - rewrite IHa, IHb by assumption. reflexivity.
  - rewrite IHc, IHa, IHb by assumption. reflexivity.
  - rewrite IHi, IHp by assumption. reflexivity.
  - match goal with H : Nat.eqb _ _ = false |- _ => rewrite H end.
    rewrite IHa, IHb by assumption. reflexivity.
  - induction IHargs as [|y r Hy Hrest IH]; [reflexivity|].
    cbn [existsb] in *. orb_false. rewrite Hy, IH by assumption. reflexivity.
Qed.

Lemma existsb_binds_expr_uses x l :
  existsb (uses_expr x) l = false -> existsb (binds_expr x) l = false.
Proof.
  induction l as [|y r IH]; [reflexivity|]. cbn [existsb]. intros H. orb_false.
  rewrite binds_expr_uses, IH by assumption. reflexivity.
Qed.

Lemma binds_uses x s : uses x s = false -> binds x s = false.
Proof.
  stmt_induction s; cbn [uses binds]; intros H; orb_false;
    repeat match goal with
      | H : Nat.eqb _ _ = false |- _ => rewrite H; clear H
      | H : uses_expr x _ = false |- _ => rewrite (binds_expr_uses _ _ H); clear H
      | H : existsb (uses_expr x) _ = false |- _ =>
          rewrite (existsb_binds_expr_uses _ _ H); clear H
      end; try reflexivity; auto.
  - rewrite IHt, IHe by assumption. reflexivity.
  - rewrite IHt by assumption. reflexivity.
  - induction IHl as [|y r Hy Hrest IH]; [reflexivity|].
    cbn [existsb] in *. orb_false. rewrite Hy, IH by assumption. reflexivity.
Qed.

Ltac close_false :=
  repeat match goal with
    | H : ?X = false |- context [?X] => rewrite H
    | IH : _ -> ?Y = false |- context [?Y] => rewrite IH by assumption
    end;
  reflexivity.

Lemma Strip_binds x s :
  binds x s = false -> binds x (StripDoubleBufferWrite.VisitStmt s) = false.
Proof.
  stmt_induction s; cbn [StripDoubleBufferWrite.VisitStmt binds]; intros H;
    orb_false; try solve [close_false].
  - destruct (String.eqb k attr.double_buffer_write); cbn [binds];
      [auto | close_false].
  - induction IHl as [|y r Hy Hrest IH]; [reflexivity|].
    cbn [map existsb] in *. orb_false. rewrite Hy, IH by assumption. reflexivity.
Qed.

Lemma flat_map_flat_map_comp {A B C} (f : A -> list B) (g : B -> list C) l :
  flat_map g (flat_map f l) = flat_map (fun x => flat_map g (f x)) l.
Proof.
  induction l as [|x r IH]; cbn [flat_map]; [reflexivity|].
  rewrite flat_map_app, IH. reflexivity.
Qed.

(** The structure built by explicit unrolling runs the loop body once for
    every index of [[0, N)], in increasing order. *)
Lemma unroll_runs_body (k N : Z) (addr : nat) (i : Var) (t0 : DataType)
      (ext : Expr) (ft : ForType) (da : DeviceAPI) (body : Stmt) (env : Env)
      (st : Injector) :
  1 <= N -> 1 <= k -> (Z.rem k 2 = 0 \/ k = 1) ->
  stable (fun y => binds y body) env ext N ->
  binds (var_id i) body = false ->
  uses (heap_ st) body = false ->
  exists s st',
    unroll k addr i (IntImm t0 0) ext ft da body st = Ok (s, st') /\
    exec env s = flat_map (fun v => exec (bind_var env i v) body) (iota N).
Proof.
  intros HN Hk Hpar Hext Hbi Hfresh.
  assert (Hext0 : eval env ext = Some N) by (apply Hext; reflexivity).
  unfold unroll, bind, CHECK, new_Var, ret.
  replace ((Z.rem k 2 =? 0) || (k =? 1))%bool with true
    by (symmetry; apply orb_true_iff; destruct Hpar; [left|right]; lia).
  cbn [is_zero]. eexists _, _. split; [reflexivity|].
  set (q := Z.quot (N - 1) k).
  set (F := fun v => exec (bind_var env i v) body).
  assert (Hq : 0 <= q * k <= N - 1 /\ N - q * k <= k /\ 0 <= q).
  { subst q. rewrite Z.quot_div_nonneg by lia.
    pose proof (Z.div_mod (N - 1) k ltac:(lia)).
    pose proof (Z.mod_pos_bound (N - 1) k ltac:(lia)).
    pose proof (Z.div_pos (N - 1) k ltac:(lia) ltac:(lia)). nia. }
  assert (Hbase : forall env',
             (forall y, binds y body = false -> env' y = env y) ->
             eval env' (mul_ (div_ (sub_ ext (make_const (var_dtype i) 1))
                                   (make_const
                                      (dtype (sub_ ext (make_const (var_dtype i) 1)))
                                      k))
                             (make_const
                                (dtype (sub_ ext (make_const (var_dtype i) 1))) k))
             = Some (q * k)).
  { intros env' Henv'. cbn [eval mul_ div_ sub_ make_const].
    rewrite (Hext env' Henv'). cbn [eval_binop].
    destruct (Z.eqb_spec k 0) as [->|_]; [lia|]. reflexivity. }
  rewrite exec_Flatten. cbn [flat_map exec].
  replace (eval env (IntImm t0 0)) with (Some 0) by reflexivity.
  replace (eval env (div_ (sub_ ext (make_const (var_dtype i) 1))
                          (make_const
                             (dtype (sub_ ext (make_const (var_dtype i) 1))) k)))
    with (Some q).
  2:{ cbn [eval div_ sub_ make_const]. rewrite Hext0. cbn [eval_binop].
      destruct (Z.eqb_spec k 0) as [->|_]; [lia|]. reflexivity. }
  rewrite flat_map_map_comp.
  rewrite (flat_map_In_ext _ (fun o => flat_map F (map (fun j => o * k + j) (iota k)))
                           (iota q)).
  2:{ intros o _. rewrite exec_Flatten, !flat_map_map_comp.
      apply flat_map_In_ext. intros j _. subst F. cbn beta.
      apply (exec_Substitute (var_id i) _ (o * k + j)).
      - intros y Hy Hu. unfold bind_var. cbn [var_id].
        destruct (Nat.eqb_spec y (heap_ st)) as [->|_]; [congruence|].
        destruct (Nat.eqb_spec y (var_id i)); [contradiction | reflexivity].
      - unfold bind_var. rewrite Nat.eqb_refl. reflexivity.
      - intros env' Henv'. cbn [eval add_ mul_ make_const eval_binop var_id].
        rewrite (Henv' (heap_ st) (binds_uses _ _ Hfresh)).
        unfold bind_var. cbn [var_id]. rewrite Nat.eqb_refl.
        reflexivity.
      - exact Hbi. }
  rewrite <- flat_map_flat_map_comp, steady_indices by lia.
  rewrite (flat_map_In_ext
             _ (fun j => flat_map F (if q * k + j <? N then [q * k + j] else []))
             (iota k)).
  2:{ intros j _. cbn [exec eval lt_ add_]. rewrite (Hbase env) by reflexivity.
      cbn [make_const eval]. rewrite Hext0. cbn [eval_binop of_bool].
      destruct (q * k + j <? N); cbn [of_bool Z.eqb flat_map];
        [|reflexivity].
      rewrite app_nil_r. subst F. cbn beta.
      rewrite <- (Strip_exec (bind_var env i (q * k + j)) body).
      apply (exec_Substitute (var_id i) _ (q * k + j)).
      - intros y Hy _. unfold bind_var.
        destruct (Nat.eqb_spec y (var_id i)); [contradiction | reflexivity].
      - unfold bind_var. rewrite Nat.eqb_refl. reflexivity.
      - intros env' Henv'. cbn [eval add_].
        rewrite Hbase.
        + reflexivity.
        + intros y Hy. apply Henv', Strip_binds, Hy.
      - apply Strip_binds, Hbi. }
  rewrite <- flat_map_flat_map_comp, tail_indices by lia.
  rewrite <- flat_map_app, <- iota_app by lia.
  replace (q * k + (N - q * k)) with N by lia. reflexivity.
Qed.

(** Inside the body, the prefetch that the producer rewrite guards by
    [i+1 < N] is issued for the indices of [[0, N-1)] only. *)
Lemma guarded_prefetch_indices (N : Z) (f : Z -> list Z) :
  1 <= N ->
  flat_map (fun v => if v + 1 <? N then f v else []) (iota N)
  = flat_map f (iota (N - 1)).
Proof.
  intros HN.
  assert (E : iota N = iota (N - 1) ++ [N - 1])
    by (rewrite <- iota_succ by lia; f_equal; lia).
  rewrite E, flat_map_app. cbn [flat_map].
  destruct (Z.ltb_spec (N - 1 + 1) N) as [?|_]; [lia|].
  rewrite !app_nil_r. apply flat_map_In_ext. intros v Hv.
  apply In_iota in Hv. destruct (Z.ltb_spec (v + 1) N); [reflexivity | lia].
Qed.

(** After explicit unrolling, the prefetch that the producer rewrite leaves
    in the loop body (a marked statement under the guard [i+1 < N]) is issued
    for the indices of [[0, N-1)]: every iteration is run, and the last one
    prefetches nothing. *)
Lemma unroll_prefetch_indices (k N : Z) (addr : nat) (i : Var) (t0 : DataType)
      (ft : ForType) (da : DeviceAPI) (node : NodeRef) (env : Env)
      (st : Injector) :
  1 <= N -> 1 <= k -> (Z.rem k 2 = 0 \/ k = 1) ->
  heap_ st <> var_id i ->
  exists s st',
    unroll k addr i (IntImm t0 0) (IntImm t0 N) ft da
           (IfThenElse (lt_ (shifted i) (IntImm t0 N))
                       (AttrStmt node attr.double_buffer_write (IntImm Int32 1)
                                 (probe i))
                       None) st
    = Ok (s, st') /\
    exec env s = iota (N - 1).
Proof.
  intros HN Hk Hpar Hfresh.
  destruct (unroll_runs_body
              k N addr i t0 (IntImm t0 N) ft da
              (IfThenElse (lt_ (shifted i) (IntImm t0 N))
                          (AttrStmt node attr.double_buffer_write
                                    (IntImm Int32 1) (probe i))
                          None) env st)
    as (s & st' & Hs & Hexec); [exact HN | exact Hk | exact Hpar | | | |].
  - intros env' _. reflexivity.
  - reflexivity.
  - cbn [uses uses_expr lt_ shifted add_ make_const probe].
    apply Nat.eqb_neq in Hfresh. rewrite Nat.eqb_sym in Hfresh.
    rewrite Hfresh. reflexivity.
  - exists s, st'. split; [exact Hs|]. rewrite Hexec.
    rewrite (flat_map_In_ext _ (fun v => if v + 1 <? N then [v] else [])).
    + rewrite guarded_prefetch_indices by exact HN.
      rewrite flat_map_singleton. apply map_id.
    + intros v _. cbn [exec eval lt_ shifted add_ make_const eval_binop probe].
      unfold bind_var. rewrite Nat.eqb_refl.
      destruct (v + 1 <? N); reflexivity.
Qed.
(** * Further lemmas on the traversals *)

(** ** A frame rule that follows the brackets of the traversal

    The loop stack and the scope flag are not updated freely: a loop is
    pushed before its children are visited and popped afterwards, the flag
    is raised before the body of an annotation is visited and cleared
    afterwards.  A preorder that admits these brackets, and each of the
    other updates in the form the pass makes it, relates the members before
    and after any successful traversal. *)
Section Brackets.
Variable R : Injector -> Injector -> Prop.
Context {R_pre : PreOrder R}.
Hypothesis R_scope_bracket : forall st st1,
    R (set_in_scope true st) st1 -> R st (set_in_scope false st1).
Hypothesis R_loop_bracket : forall st st1 op,
    R (set_loop_nest (loop_nest_ st ++ [op]) st) st1 ->
    R st (set_loop_nest (pop_back (loop_nest_ st1)) st1).
Hypothesis R_hoist : forall st a (bv : Var) t exts c s,
    R st (set_loop_allocs
            (<[a := (default [] (loop_allocs_ st !! a)
                       ++ [AttrStmt (NodeVar bv) attr.storage_scope
                                    (StringImm s) (Evaluate (IntImm Int32 0))])
                      ++ [Allocate bv t exts c (Evaluate (IntImm Int32 0))]]>
               (loop_allocs_ st)) st).
Hypothesis R_prologue : forall st a x,
    R st (set_loop_pre
            (<[a := default [] (loop_pre_ st !! a) ++ [x]]> (loop_pre_ st)) st).
Hypothesis R_warning : forall st n, R st (set_log (log_ st ++ [n]) st).
Hypothesis R_new_Var : forall st, R st (set_heap (S (heap_ st)) st).
Hypothesis R_entry : forall st buf e e',
    dbuffer_info_ st !! buf = Some e ->
    R st (set_dbuffer_info (<[buf := e']> (dbuffer_info_ st)) st).

Ltac bsolve :=
  repeat match goal with
    | |- R ?s ?s => reflexivity
    | |- R _ (set_loop_pre _ ?x) => transitivity x; [|exact (R_prologue x _ _)]
    | |- R _ (set_loop_allocs _ ?x) => transitivity x; [|exact (R_hoist x _ _ _ _ _ _)]
    | |- R _ (set_log _ ?x) => transitivity x; [|exact (R_warning x _)]
    | |- R _ (set_heap _ ?x) => transitivity x; [|exact (R_new_Var x)]
    | |- R _ (set_entry_scope _ _ _ ?x) =>
        transitivity x; [|eapply R_entry; eassumption]
    | |- R _ (set_dbuffer_info (<[_ := _]> _) ?x) =>
        transitivity x; [|eapply R_entry; eassumption]
    | Hp : preserves R ?m, H : ?m (set_in_scope true ?y) = Ok (_, ?x)
      |- R _ (set_in_scope false ?x) =>
        transitivity y; [|apply R_scope_bracket; exact (Hp _ _ _ H)]
    | Hp : preserves R ?m, H : ?m ?x = Ok (_, ?y) |- R _ ?y =>
        transitivity x; [|exact (Hp _ _ _ H)]
    | H : R ?x ?y |- R _ ?y => transitivity x; [|exact H]
    end.

Lemma brackets_hoist_Allocate bv t ex c b :
  preserves R (hoist_Allocate bv t ex c b).
Proof. unfold hoist_Allocate. intros st a st' H. minv H. bsolve. Qed.

Lemma brackets_VisitStmt_Allocate visit_body bv t ex c :
  preserves R visit_body -> preserves R (VisitStmt_Allocate visit_body bv t ex c).
Proof.
  intros Hb st a st' H. unfold VisitStmt_Allocate in H. munfold H.
  repeat mdestruct H.
  - apply brackets_hoist_Allocate in H. etransitivity; [|exact H]. bsolve.
  - inversion H; subst; clear H. bsolve.
Qed.

Lemma brackets_MakeProducer visit_body node :
  preserves R visit_body -> preserves R (MakeProducer visit_body node).
Proof.
  intros Hb st a st' H. unfold MakeProducer in H.
  destruct node as [buffer|]; [|discriminate H].
  munfold H. repeat mdestruct H.
  - inversion H; subst; clear H. bsolve.
  - bsolve.
Qed.

Lemma brackets_VisitStmt_AttrStmt visit_body node key value :
  preserves R visit_body ->
  preserves R (VisitStmt_AttrStmt visit_body node key value).
Proof.
  intros Hb st a st' H. unfold VisitStmt_AttrStmt in H.
  destruct (String.eqb key attr.storage_scope) eqn:E1;
    [|destruct (String.eqb key attr.double_buffer_scope) eqn:E2].
  - munfold H. repeat mdestruct H; try (inversion H; subst; clear H); bsolve.
  - eapply brackets_MakeProducer; eauto.
  - minv H. bsolve.
Qed.

Lemma brackets_unroll k addr lv mn ex ft da body :
  preserves R (unroll k addr lv mn ex ft da body).
Proof. intros st a st' H. unfold unroll in H. minv H. bsolve. Qed.

Lemma brackets_VisitStmt_For k visit_body addr lv mn ex ft da :
  preserves R visit_body ->
  preserves R (VisitStmt_For k visit_body addr lv mn ex ft da).
Proof.
  intros Hb st a st' H. unfold VisitStmt_For in H. munfold H.
  repeat mdestruct H; inversion H; subst; clear H;
    try match goal with
      | Hu : unroll _ _ _ _ _ _ _ _ _ = Ok _ |- _ =>
          apply brackets_unroll in Hu
      end;
    apply R_loop_bracket with (op := mkForPtr addr lv mn ex); bsolve.
Qed.

Lemma brackets_mapM {A B} (f : A -> M B) l :
  Forall (fun x => preserves R (f x)) l -> preserves R (mapM f l).
Proof.
  induction 1 as [|y r Hy Hrest IH]; intros st a st' H; cbn [mapM] in H;
    minv H; bsolve.
Qed.

Lemma brackets_VisitStmt sl s : preserves R (VisitStmt sl s).
Proof.
  stmt_induction s.
  - intros st a st' H. cbn [VisitStmt] in H. minv H. bsolve.
  - apply brackets_VisitStmt_AttrStmt, IHb.
  - intros st a st' H. cbn [VisitStmt] in H. minv H. bsolve.
  - intros st a st' H. cbn [VisitStmt] in H. munfold H.
    repeat mdestruct H. apply VisitStmt_Store_state in H as ->. reflexivity.
  - apply brackets_VisitStmt_Allocate, IHb.
  - intros st a st' H. cbn [VisitStmt] in H. minv H. bsolve.
  - apply brackets_VisitStmt_For, IHb.
  - intros st a st' H. cbn [VisitStmt] in H. minv H. bsolve.
  - intros st a st' H. cbn [VisitStmt] in H. minv H. bsolve.
  - assert (Hl : preserves R (mapM (VisitStmt sl) l))
      by (apply brackets_mapM, IHl).
    intros st a st' H. rewrite VisitStmt_SeqStmt in H. minv H. bsolve.
  - intros st a st' H. cbn [VisitStmt] in H. minv H. bsolve.
Qed.
End Brackets.

(** *** Instances of the bracket rule *)

Global Instance same_stack_PreOrder : PreOrder same_stack.
Proof.
  split; unfold same_stack.
  - intros x. reflexivity.
  - intros x y z. congruence.
Qed.

Lemma VisitStmt_same_stack sl s : preserves same_stack (VisitStmt sl s).
Proof.
  apply (brackets_VisitStmt same_stack); unfold same_stack;
    try solve [intros; reflexivity].
  - intros st st1 H. exact H.
  - intros st st1 op H. cbn [loop_nest_ set_loop_nest] in *.
    rewrite H. apply pop_back_push.
Qed.

Global Instance flag_not_raised_PreOrder : PreOrder flag_not_raised.
Proof.
  split; unfold flag_not_raised.
  - intros x H. exact H.
  - intros x y z Hxy Hyz H. auto.
Qed.

Lemma VisitStmt_flag_not_raised sl s :
  preserves flag_not_raised (VisitStmt sl s).
Proof.
  apply (brackets_VisitStmt flag_not_raised); unfold flag_not_raised;
    try solve [intros; assumption].
  - intros st st1 _ H. discriminate H.
  - intros st st1 op H H1. apply H, H1.
Qed.

Global Instance same_tracked_PreOrder : PreOrder same_tracked.
Proof.
  split; unfold same_tracked.
  - intros x b. reflexivity.
  - intros x y z Hxy Hyz b. rewrite Hyz. apply Hxy.
Qed.

Lemma VisitStmt_same_tracked sl s : preserves same_tracked (VisitStmt sl s).
Proof.
  apply (brackets_VisitStmt same_tracked); unfold same_tracked;
    try solve [intros; reflexivity]; try solve [intros; auto].
  intros st buf e e' He b. cbn [dbuffer_info_ set_dbuffer_info].
  rewrite lookup_insert_is_Some'. split; [|auto].
  intros [<-|H]; [eauto | exact H].
Qed.

Lemma extends_refl m : extends m m.
Proof. intros a l H. exists []. rewrite app_nil_r. exact H. Qed.

Lemma extends_trans m1 m2 m3 : extends m1 m2 -> extends m2 m3 -> extends m1 m3.
Proof.
  intros H12 H23 a l H. destruct (H12 a l H) as [x Hx].
  destruct (H23 a _ Hx) as [y Hy]. exists (x ++ y). rewrite app_assoc. exact Hy.
Qed.

Lemma extends_append m a (more : list Stmt) :
  extends m (<[a := default [] (m !! a) ++ more]> m).
Proof.
  intros a' l H. destruct (decide (a = a')) as [<-|Hne].
  - rewrite lookup_insert_eq, H. eauto.
  - rewrite lookup_insert_ne by exact Hne. exists []. rewrite app_nil_r. exact H.
Qed.

Global Instance only_grows_PreOrder : PreOrder only_grows.
Proof.
  split.
  - intros st. repeat split; try apply extends_refl; [|lia].
    exists []. rewrite app_nil_r. reflexivity.
  - intros x y z (P1 & A1 & [l1 L1] & H1) (P2 & A2 & [l2 L2] & H2).
    repeat split; try (eapply extends_trans; eassumption); [|lia].
    exists (l1 ++ l2). rewrite L2, L1, app_assoc. reflexivity.
Qed.

Lemma only_grows_bracket st st1 st0 st2 :
  loop_pre_ st0 = loop_pre_ st -> loop_allocs_ st0 = loop_allocs_ st ->
  log_ st0 = log_ st -> heap_ st0 = heap_ st ->
  loop_pre_ st2 = loop_pre_ st1 -> loop_allocs_ st2 = loop_allocs_ st1 ->
  log_ st2 = log_ st1 -> heap_ st2 = heap_ st1 ->
  only_grows st0 st1 -> only_grows st st2.
Proof.
  unfold only_grows. intros -> -> -> -> -> -> -> -> H. exact H.
Qed.

Lemma VisitStmt_only_grows sl s : preserves only_grows (VisitStmt sl s).
Proof.
  apply (brackets_VisitStmt only_grows).
  - intros st st1. apply only_grows_bracket; reflexivity.
  - intros st st1 op. apply only_grows_bracket; reflexivity.
  - intros st a bv t exts c s0. repeat split; try apply extends_refl; [| |cbn; lia].
    + cbn [loop_allocs_ set_loop_allocs]. rewrite <- app_assoc.
      apply extends_append.
    + exists []. rewrite app_nil_r. reflexivity.
  - intros st a x. repeat split; try apply extends_refl; [| |cbn; lia].
    + cbn [loop_pre_ set_loop_pre]. apply extends_append.
    + exists []. rewrite app_nil_r. reflexivity.
  - intros st n. repeat split; try apply extends_refl; [|cbn; lia].
    eexists. reflexivity.
  - intros st. repeat split; try apply extends_refl; [|cbn; lia].
    exists []. rewrite app_nil_r. reflexivity.
  - intros st buf e e' _. repeat split; try apply extends_refl; [|cbn; lia].
    exists []. rewrite app_nil_r. reflexivity.
Qed.

Global Instance allocs_step_PreOrder : PreOrder allocs_step.
Proof.
  split; unfold allocs_step.
  - intros x H. exact H.
  - intros x y z Hxy Hyz H. auto.
Qed.

Lemma VisitStmt_allocs_step sl s : preserves allocs_step (VisitStmt sl s).
Proof.
  apply (brackets_VisitStmt allocs_step); unfold allocs_step, allocs_ok;
    try solve [intros; eauto].
  intros st a bv t exts c s0 H a' nest. cbn [loop_allocs_ set_loop_allocs].
  destruct (decide (a = a')) as [<-|Hne].
  - rewrite lookup_insert_eq. intros [= <-].
    rewrite !forallb_app. cbn [forallb empty_slot].
    rewrite String.eqb_refl, !andb_true_r.
    destruct (loop_allocs_ st !! a) as [l|] eqn:E; [|reflexivity].
    apply (H a l E).
  - rewrite lookup_insert_ne by exact Hne. apply H.
Qed.

(** ** The detector, one buffer at a time *)
Section DetectorWalk.
Import DoubleBufferDetector.
Variable tgt : VarPtr.

Lemma decides_ext f g refd :
  (forall T, f T = g T) -> decides tgt f refd -> decides tgt g refd.
Proof.
  intros E (Hm & Hc & Hk). repeat split.
  - intros T T' HT. rewrite <- !E. apply Hm, HT.
  - intros T. rewrite <- !E. apply Hc.
  - intros Hr T. rewrite <- E. apply Hk, Hr.
Qed.

Lemma decides_id : decides tgt (fun T => T) false.
Proof. repeat split; auto. Qed.

Lemma decides_comp f g r1 r2 :
  decides tgt f r1 -> decides tgt g r2 -> decides tgt (fun T => g (f T)) (r1 || r2).
Proof.
  intros (Fm & Fc & Fk) (Gm & Gc & Gk). repeat split.
  - intros T T' HT. apply Gm, Fm, HT.
  - intros T H. destruct (Gc _ H) as [H0|[H1 ->]].
    + left. revert H0. apply Gm. set_solver.
    + destruct (Fc _ H1) as [H0|[H2 ->]].
      * left. apply Gk; [reflexivity | exact H0].
      * right. split; [exact H2 | reflexivity].
  - intros Hr T HT. apply orb_false_iff in Hr as [-> ->].
    apply Gk, Fk; auto.
Qed.

Lemma decides_insert n : decides tgt (fun T => {[n]} ∪ T) false.
Proof.
  repeat split.
  - intros T T' HT. set_solver.
  - intros T. set_solver.
  - intros _ T. set_solver.
Qed.

Lemma decides_VisitExpr_Variable v :
  decides tgt (VisitExpr_Variable v) (bool_decide (get v = tgt)).
Proof.
  unfold VisitExpr_Variable. repeat split.
  - intros T T' HT. repeat case_decide; set_solver.
  - intros T. case_bool_decide; repeat case_decide; set_solver.
  - intros Hr T. apply bool_decide_eq_false in Hr. case_decide; set_solver.
Qed.

Lemma decides_VisitExpr e : decides tgt (VisitExpr e) (refers_expr tgt e).
Proof.
  expr_induction e; cbn [refers_expr].
  - apply decides_id.
  - apply decides_id.
  - apply decides_VisitExpr_Variable.
  - exact IHa.
  - apply (decides_comp _ _ _ _ IHa IHb).
  - exact IHa.
  - rewrite <- orb_assoc.
    apply (decides_comp _ _ _ _ IHc (decides_comp _ _ _ _ IHa IHb)).
  - apply (decides_comp _ _ _ _ IHi IHp).
  - apply (decides_comp _ _ _ _ IHa IHb).
  - apply (decides_ext (VisitExprs args)).
    { intros T. unfold VisitExprs. cbn [VisitExpr]. revert T.
      induction args as [|x r IH]; intros T; [reflexivity|].
      cbn [fold_left]. apply IH. inversion IHargs; assumption. }
    unfold VisitExprs.
    induction IHargs as [|x r Hx Hr IH]; [apply decides_id|].
    cbn [existsb fold_left]. apply (decides_comp _ _ _ _ Hx IH).
Qed.

Lemma decides_VisitExprs l :
  decides tgt (VisitExprs l) (existsb (refers_expr tgt) l).
Proof.
  unfold VisitExprs. induction l as [|x r IH]; [apply decides_id|].
  cbn [existsb fold_left].
  apply (decides_comp _ _ _ _ (decides_VisitExpr x) IH).
Qed.

Lemma decides_VisitStmt s : decides tgt (VisitStmt s) (refers tgt s).
Proof.
  stmt_induction s; cbn [refers].
  - apply (decides_comp _ _ _ _ (decides_VisitExpr e) IHb).
  - destruct (String.eqb k attr.double_buffer_scope) eqn:Ek.
    + apply (decides_ext
               (fun T => VisitStmt b (VisitExpr v ({[as_Variable n]} ∪ T)))).
      { intros T. cbn [VisitStmt]. rewrite Ek. reflexivity. }
      apply (decides_comp
               _ _ false _
               (decides_insert (as_Variable n))
               (decides_comp _ _ _ _ (decides_VisitExpr v) IHb)).
    + apply (decides_ext (fun T => VisitStmt b (VisitExpr v T))).
      { intros T. cbn [VisitStmt]. rewrite Ek. reflexivity. }
      apply (decides_comp _ _ _ _ (decides_VisitExpr v) IHb).
  - rewrite <- orb_assoc.
    apply (decides_comp
             _ _ _ _ (decides_VisitExpr c)
             (decides_comp _ _ _ _ (decides_VisitExpr m) IHb)).
  - rewrite <- orb_assoc.
    apply (decides_comp
             _ _ _ _ (decides_VisitExpr v)
             (decides_comp _ _ _ _ (decides_VisitExpr i)
                           (decides_VisitExpr p))).
  - apply (decides_ext
             (fun T => VisitExpr c (VisitStmt b (VisitExprs ex T))));
      [reflexivity|].
    replace (existsb (refers_expr tgt) ex || refers_expr tgt c || refers tgt b)
      with (existsb (refers_expr tgt) ex || (refers tgt b || refers_expr tgt c))
      by (destruct (existsb _ ex), (refers_expr tgt c), (refers tgt b); reflexivity).
    apply (decides_comp
             _ _ _ _ (decides_VisitExprs ex)
             (decides_comp _ _ _ _ IHb (decides_VisitExpr c))).
  - apply decides_id.
  - rewrite <- orb_assoc.
    apply (decides_comp
             _ _ _ _ (decides_VisitExpr mn)
             (decides_comp _ _ _ _ (decides_VisitExpr ex) IHb)).
  - rewrite <- orb_assoc.
    apply (decides_comp
             _ _ _ _ (decides_VisitExpr c)
             (decides_comp _ _ _ _ IHt IHe)).
  - rewrite orb_false_r.
    apply (decides_comp _ _ _ _ (decides_VisitExpr c) IHt).
  - apply (decides_ext (fun T => fold_left (fun acc x => VisitStmt x acc) l T)).
    { intros T. symmetry. apply Detector_SeqStmt. }
    induction IHl as [|x r Hx Hr IH]; [apply decides_id|].
    cbn [existsb fold_left]. apply (decides_comp _ _ _ _ Hx IH).
  - apply decides_VisitExpr.
Qed.
End DetectorWalk.

(** An annotation that no reference follows leaves its buffer in the set. *)
Lemma Detector_VisitStmt_annotated x s :
  forall T, annotates x s = true -> refers x s = false ->
            x ∈ DoubleBufferDetector.VisitStmt s T.
Proof.
  stmt_induction s; intros T Ha Hr;
    cbn [DoubleBufferDetector.VisitStmt annotates refers] in *;
    try discriminate Ha;
    repeat match goal with
           | H : (_ || _)%bool = false |- _ =>
               apply orb_false_iff in H; destruct H
           end;
    try solve [auto].
  - destruct (String.eqb k attr.double_buffer_scope); cbn [andb orb] in Ha;
      [|auto].
    apply orb_true_iff in Ha as [Ha|Ha]; [|auto].
    apply bool_decide_eq_true in Ha.
    apply Detector_VisitStmt_keeps; [assumption|].
    apply Detector_VisitExpr_keeps; [assumption|]. set_solver.
  - apply Detector_VisitExpr_keeps; auto.
  - apply orb_true_iff in Ha as [Ha|Ha]; [|auto].
    apply Detector_VisitStmt_keeps; auto.
  - rewrite orb_false_r in Ha. auto.
  - change (x ∈ DoubleBufferDetector.VisitStmt (SeqStmt l) T).
    rewrite Detector_SeqStmt. revert T.
    induction IHl as [|y r Hy Hrest IH]; intros T; [discriminate Ha|].
    cbn [existsb fold_left] in *.
    apply orb_false_iff in Hr as [Hr1 Hr2].
    apply orb_true_iff in Ha as [Ha|Ha]; [|auto].
    clear IH.
    assert (Hin : x ∈ DoubleBufferDetector.VisitStmt y T) by auto.
    revert Hin. generalize (DoubleBufferDetector.VisitStmt y T). clear Hy Ha.
    induction r as [|z r IH]; intros T' Hin; [exact Hin|].
    cbn [existsb fold_left] in *.
    apply orb_false_iff in Hr2 as [Hz Hr2]. inversion Hrest; subst.
    apply IH; auto. apply Detector_VisitStmt_keeps; auto.
Qed.

Lemma refers_expr_None e : refers_expr None e = false.
Proof.
  expr_induction e; cbn [refers_expr];
    repeat match goal with H : _ = false |- _ => rewrite H end;
    try reflexivity.
  induction IHargs as [|y r Hy Hr IH]; [reflexivity|].
  cbn [existsb]. rewrite Hy, IH. reflexivity.
Qed.

Lemma refers_None s : refers None s = false.
Proof.
  assert (Hl : forall l, existsb (refers_expr None) l = false).
  { induction l as [|y r IH]; [reflexivity|].
    cbn [existsb]. rewrite refers_expr_None, IH. reflexivity. }
  stmt_induction s; cbn [refers]; rewrite ?refers_expr_None, ?Hl;
    repeat match goal with H : _ = false |- _ => rewrite H end;
    try reflexivity.
  induction IHl as [|y r Hy Hr IH]; [reflexivity|].
  cbn [existsb]. rewrite Hy, IH. reflexivity.
Qed.

(** ** A static analysis of the places at which the injector aborts *)

Ltac expr_states :=
  repeat match goal with
    | H : VisitExpr ?e ?s = Ok (_, ?s') |- _ =>
        lazymatch s' with
        | s => fail
        | _ => pose proof (VisitExpr_state _ _ _ _ H); subst s'
        end
    | H : mapM VisitExpr ?l ?s = Ok (_, ?s') |- _ =>
        lazymatch s' with
        | s => fail
        | _ => pose proof (mapM_VisitExpr_state _ _ _ _ H); subst s'
        end
    end.

Lemma VisitExpr_refers_some T e :
  forall st e' st',
    (forall b, b ∈ T -> is_Some (dbuffer_info_ st !! b)) ->
    refers_some T e = true ->
    VisitExpr e st = Ok (e', st') -> False.
Proof.
  expr_induction e; intros st e' st' HT Hr H;
    try rewrite VisitExpr_Call in H; cbn [VisitExpr refers_some] in *;
    try discriminate Hr; monad_inv; expr_states; orb_true Hr; eauto.
  - unfold VisitExpr_Variable in H. monad_inv.
    apply bool_decide_eq_true in Hr. apply HT in Hr.
    match goal with
    | Hc : negb (bool_decide _) = true |- _ =>
        rewrite bool_decide_eq_true_2 in Hc by exact Hr; discriminate Hc
    end.
  - match goal with
    | Hm : mapM VisitExpr args _ = Ok _ |- _ => revert Hm
    end.
    generalize dependent x. 
    induction IHargs as [|y r Hy Hrest IH]; intros l' Hm; [discriminate Hr|].
    cbn [mapM existsb] in *. monad_inv. expr_states. orb_true Hr; eauto.
Qed.

Lemma mapM_VisitExpr_refers_some T l :
  forall st l' st',
    (forall b, b ∈ T -> is_Some (dbuffer_info_ st !! b)) ->
    existsb (refers_some T) l = true ->
    mapM VisitExpr l st = Ok (l', st') -> False.
Proof.
  induction l as [|y r IH]; intros st l' st' HT Hr H; [discriminate Hr|].
  cbn [mapM existsb] in *. monad_inv. expr_states. orb_true Hr.
  - eapply VisitExpr_refers_some; eauto.
  - eapply IH; eauto.
Qed.

Lemma context_ok_step T il sc sl s st r st' :
  context_ok T il sc st -> VisitStmt sl s st = Ok (r, st') ->
  context_ok T il sc st'.
Proof.
  intros (Ht & Hl & Hs) H.
  pose proof (VisitStmt_same_tracked sl s _ _ _ H) as Kt.
  pose proof (VisitStmt_same_stack sl s _ _ _ H) as Kl.
  pose proof (VisitStmt_flag_not_raised sl s _ _ _ H) as Ks.
  repeat split.
  - intros b Hb. apply Kt, Ht, Hb.
  - intros E. rewrite Kl. apply Hl, E.
  - intros E. specialize (Hs E).
    destruct (in_double_buffer_scope_ st') eqn:F; [|reflexivity].
    rewrite (Ks F) in Hs. discriminate Hs.
Qed.

Lemma context_ok_entry T il sc st buf e e' :
  dbuffer_info_ st !! buf = Some e ->
  context_ok T il sc st ->
  context_ok T il sc (set_dbuffer_info (<[buf := e']> (dbuffer_info_ st)) st).
Proof.
  intros He (Ht & Hl & Hs). repeat split; [|exact Hl|exact Hs].
  intros b Hb. cbn [dbuffer_info_ set_dbuffer_info].
  apply lookup_insert_is_Some'. right. apply Ht, Hb.
Qed.

Lemma sure_abort_sound T sl s :
  forall il sc st r st',
    context_ok T il sc st -> sure_abort T il sc s = true ->
    VisitStmt sl s st = Ok (r, st') -> False.
Proof.
  stmt_induction s; intros il sc st r st' Hc Ha H;
    cbn [VisitStmt sure_abort] in *.
  - monad_inv. expr_states. orb_true Ha.
    + eapply VisitExpr_refers_some; [apply Hc| |]; eauto.
    + eapply IHb; eauto.
  - unfold VisitStmt_AttrStmt in H.
    destruct (String.eqb k attr.storage_scope) eqn:E1;
      [|destruct (String.eqb k attr.double_buffer_scope) eqn:E2].
    + monad_inv.
      destruct (dbuffer_info_ _ !! as_Variable n) as [e|] eqn:En.
      * destruct v; try discriminate H. monad_inv.
        eapply IHb; [|exact Ha|exact H].
        apply (context_ok_entry _ _ _ _ _ e); assumption.
      * monad_inv. expr_states. eapply IHb; eauto.
    + unfold MakeProducer in H. destruct n as [buffer|key]; [|discriminate H].
      assert (Hc1 : forall st1,
                 (forall b, is_Some (dbuffer_info_ st !! b) ->
                            is_Some (dbuffer_info_ st1 !! b)) ->
                 loop_nest_ st1 = loop_nest_ st ->
                 context_ok T il true st1).
      { intros st1 Ht1 Hl1. destruct Hc as (Ht & Hl & _). repeat split.
        - intros b0 Hb0. apply Ht1, Ht, Hb0.
        - intros E. rewrite Hl1. apply Hl, E.
        - intros E. discriminate E. }
      monad_inv. orb_true Ha.
      * destruct il; [discriminate Ha|].
        destruct Hc as (_ & Hl & _). rewrite (Hl eq_refl) in *. discriminate.
      * discriminate Ha.
      * munfold H. repeat mdestruct H;
          match goal with
          | Hb : VisitStmt sl b ?st1 = Ok _ |- _ =>
              eapply (IHb il true st1); [apply Hc1| exact Ha | exact Hb]
          end; try reflexivity.
        -- intros b0 Hb0. cbn [dbuffer_info_ set_in_scope set_dbuffer_info set_heap].
           apply lookup_insert_is_Some'. right. exact Hb0.
        -- intros b0 Hb0. exact Hb0.
    + monad_inv. expr_states. orb_true Ha.
      * eapply VisitExpr_refers_some; [apply Hc| |]; eauto.
      * eapply IHb; eauto.
  - monad_inv. expr_states. orb_true Ha.
    + eapply VisitExpr_refers_some; [apply Hc| |]; eauto.
    + eapply VisitExpr_refers_some; [apply Hc| |]; eauto.
    + eapply IHb; eauto.
  - monad_inv. expr_states. orb_true Ha;
      try solve [eapply VisitExpr_refers_some; [apply Hc| |]; eauto].
    apply andb_true_iff in Ha as [Hin Hsc].
    apply bool_decide_eq_true in Hin. destruct Hc as (Ht & _ & Hs).
    destruct (Ht _ Hin) as [e He]. destruct sc; [discriminate Hsc|].
    unfold VisitStmt_Store in H. monad_inv. rewrite He in H. monad_inv.
    rewrite (Hs eq_refl) in *. discriminate.
  - unfold VisitStmt_Allocate in H. monad_inv.
    destruct (dbuffer_info_ _ !! get bv) as [e0|] eqn:En.
    + destruct (ComputeReduce_Mul ex) as [prod|]; [|discriminate H].
      monad_inv. expr_states.
      match goal with
      | Hb : VisitStmt sl b ?st1 = Ok (_, ?st2) |- _ =>
          assert (Hc1 : context_ok T il sc st1)
            by (apply (context_ok_entry _ _ _ _ _ e0); assumption);
          pose proof (context_ok_step _ _ _ _ _ _ _ _ Hc1 Hb) as Hc2
      end.
      orb_true Ha.
      * eapply mapM_VisitExpr_refers_some; [apply Hc1| |]; eauto.
      * eapply VisitExpr_refers_some; [apply Hc2| |]; eauto.
      * eapply IHb; [exact Hc1 | exact Ha | eassumption].
    + monad_inv. expr_states.
      match goal with
      | Hb : VisitStmt sl b _ = Ok _ |- _ =>
          pose proof (context_ok_step _ _ _ _ _ _ _ _ Hc Hb) as Hc2
      end.
      orb_true Ha.
      * eapply mapM_VisitExpr_refers_some; [apply Hc| |]; eauto.
      * eapply VisitExpr_refers_some; [apply Hc2| |]; eauto.
      * eapply IHb; [exact Hc | exact Ha | eassumption].
  - discriminate Ha.
  - unfold VisitStmt_For in H. monad_inv. expr_states.
    match goal with
    | Hb : VisitStmt sl b ?st1 = Ok _ |- _ =>
        assert (Hc1 : context_ok T true sc st1)
          by (destruct Hc as (Ht & _ & Hs); repeat split;
              [exact Ht | discriminate | exact Hs])
    end.
    orb_true Ha.
    + eapply VisitExpr_refers_some; [apply Hc1| |]; eauto.
    + eapply VisitExpr_refers_some; [apply Hc1| |]; eauto.
    + eapply IHb; eauto.
  - monad_inv. expr_states.
    match goal with
    | Hb : VisitStmt sl t _ = Ok _ |- _ =>
        pose proof (context_ok_step _ _ _ _ _ _ _ _ Hc Hb) as Hc2
    end.
    orb_true Ha.
    + eapply VisitExpr_refers_some; [apply Hc| |]; eauto.
    + eapply IHt; [exact Hc | exact Ha | eassumption].
    + eapply IHe; [exact Hc2 | exact Ha | eassumption].
  - monad_inv. expr_states. rewrite orb_false_r in Ha. orb_true Ha.
    + eapply VisitExpr_refers_some; [apply Hc| |]; eauto.
    + eapply IHt; eauto.
  - change (VisitStmt sl (SeqStmt l) st = Ok (r, st')) in H.
    rewrite VisitStmt_SeqStmt in H. monad_inv.
    match goal with
    | Hm : mapM (VisitStmt sl) l st = Ok _ |- _ => revert Hm
    end.
    generalize dependent st. generalize x.
    induction IHl as [|y rest Hy Hrest IH]; intros l' st Hc Hm;
      [discriminate Ha|].
    cbn [mapM existsb] in *. monad_inv. orb_true Ha.
    + eapply Hy; eauto.
    + eapply IH; [exact Ha| |eassumption].
      eapply context_ok_step; eauto.
  - monad_inv. expr_states. eapply VisitExpr_refers_some; [apply Hc| |]; eauto.
Qed.

Lemma refers_expr_some T x e :
  x ∈ T -> refers_expr x e = true -> refers_some T e = true.
Proof.
  intros Hb.
  expr_induction e; cbn [refers_expr refers_some]; intros Hr;
    try discriminate Hr; orb_true Hr;
    repeat match goal with
      | IH : ?P -> ?f = true, H : ?P |- _ => rewrite (IH H); clear IH
      end;
    rewrite ?orb_true_r; try reflexivity; auto.
  - apply bool_decide_eq_true in Hr. subst x.
    apply bool_decide_eq_true. exact Hb.
  - induction IHargs as [|y r Hy Hrest IH]; [discriminate Hr|].
    cbn [existsb] in *. orb_true Hr.
    + rewrite (Hy Hr). reflexivity.
    + rewrite (IH Hr). apply orb_true_r.
Qed.

Lemma existsb_refers_expr_some T x l :
  x ∈ T -> existsb (refers_expr x) l = true -> existsb (refers_some T) l = true.
Proof.
  intros Hb. induction l as [|y r IH]; cbn [existsb]; intros Hr;
    [discriminate Hr|].
  orb_true Hr.
  - rewrite (refers_expr_some T x y Hb Hr). reflexivity.
  - rewrite (IH Hr). apply orb_true_r.
Qed.

Ltac some_true :=
  repeat match goal with
    | H : refers_expr ?b ?e = true, Hb : ?b ∈ ?T |- _ =>
        rewrite (refers_expr_some T b e Hb H); clear H
    | H : existsb (refers_expr ?b) ?l = true, Hb : ?b ∈ ?T |- _ =>
        rewrite (existsb_refers_expr_some T b l Hb H); clear H
    | IH : forall il sc, _ -> sure_abort _ il sc ?s = true, H : _ |- _ =>
        rewrite (IH _ _ H)
    end;
  rewrite ?orb_true_r; try reflexivity.

Lemma visited_refers_sure_abort T x s :
  x ∈ T ->
  forall il sc, visited_refers x s = true -> sure_abort T il sc s = true.
Proof.
  intros Hb.
  stmt_induction s; intros il sc Hr; cbn [visited_refers sure_abort] in *;
    try discriminate Hr; orb_true Hr; try discriminate Hr;
    rewrite ?orb_false_r; some_true.
  - apply andb_true_iff in Hr as [Hk Hr]. apply andb_true_iff in Hk as [K1 K2].
    apply negb_true_iff in K1, K2. rewrite K1, K2. some_true.
  - destruct (String.eqb k attr.storage_scope); [reflexivity|].
    destruct (String.eqb k attr.double_buffer_scope); reflexivity.
  - induction IHl as [|y r Hy Hrest IH]; [discriminate Hr|].
    cbn [existsb] in *. orb_true Hr.
    + rewrite (Hy _ _ Hr). reflexivity.
    + rewrite (IH Hr). apply orb_true_r.
Qed.

Lemma stores_unscoped_sure_abort T x s :
  x ∈ T ->
  forall il, stores_unscoped x s = true -> sure_abort T il false s = true.
Proof.
  intros Hb.
  stmt_induction s; intros il Hr; cbn [stores_unscoped sure_abort] in *;
    try discriminate Hr; orb_true Hr; try discriminate Hr;
    rewrite ?orb_false_r;
    repeat match goal with
      | IH : forall il, _ -> sure_abort _ il false ?s = true, H : _ |- _ =>
          rewrite (IH _ H)
      end;
    rewrite ?orb_true_r; try reflexivity.
  - apply andb_true_iff in Hr as [Hk Hr]. apply negb_true_iff in Hk.
    rewrite Hk, (IHb _ Hr), orb_true_r.
    destruct (String.eqb k attr.storage_scope); reflexivity.
  - apply bool_decide_eq_true in Hr. subst x.
    rewrite (bool_decide_eq_true_2 _ Hb). apply orb_true_r.
  - induction IHl as [|y r Hy Hrest IH]; [discriminate Hr|].
    cbn [existsb] in *. orb_true Hr.
    + rewrite (Hy _ Hr). reflexivity.
    + rewrite (IH Hr). apply orb_true_r.
Qed.

Lemma scope_outside_loop_sure_abort T s :
  forall sc, scope_outside_loop s = true -> sure_abort T false sc s = true.
Proof.
  stmt_induction s; intros sc Hr; cbn [scope_outside_loop sure_abort] in *;
    try discriminate Hr; orb_true Hr; try discriminate Hr;
    rewrite ?orb_false_r;
    repeat match goal with
      | IH : forall sc, _ -> sure_abort _ false sc ?s = true, H : _ |- _ =>
          rewrite (IH _ H)
      end;
    rewrite ?orb_true_r; try reflexivity.
  - apply String.eqb_eq in Hr. subst k. reflexivity.
  - destruct (String.eqb k attr.storage_scope); [reflexivity|].
    destruct (String.eqb k attr.double_buffer_scope); reflexivity.
  - induction IHl as [|y r Hy Hrest IH]; [discriminate Hr|].
    cbn [existsb] in *. orb_true Hr.
    + rewrite (Hy _ Hr). reflexivity.
    + rewrite (IH Hr). apply orb_true_r.
Qed.

Lemma annotates_None_sure_abort T s :
  forall il sc, annotates None s = true -> sure_abort T il sc s = true.
Proof.
  stmt_induction s; intros il sc Hr; cbn [annotates sure_abort] in *;
    try discriminate Hr; orb_true Hr; try discriminate Hr;
    rewrite ?orb_false_r;
    repeat match goal with
      | IH : forall il sc, _ -> sure_abort _ il sc ?s = true, H : _ |- _ =>
          rewrite (IH _ _ H)
      end;
    rewrite ?orb_true_r; try reflexivity.
  - apply andb_true_iff in Hr as [Hk Hn]. apply String.eqb_eq in Hk. subst k.
    apply bool_decide_eq_true in Hn. destruct n; [discriminate Hn|].
    cbn. rewrite orb_true_r. reflexivity.
  - destruct (String.eqb k attr.storage_scope); [reflexivity|].
    destruct (String.eqb k attr.double_buffer_scope); reflexivity.
  - induction IHl as [|y r Hy Hrest IH]; [discriminate Hr|].
    cbn [existsb] in *. orb_true Hr.
    + rewrite (Hy _ _ Hr). reflexivity.
    + rewrite (IH Hr). apply orb_true_r.
Qed.

Lemma context_ok_init T heap : context_ok T false false (init T heap).
Proof.
  repeat split. intros b Hb. apply init_is_Some, Hb.
Qed.

(** With a candidate and a reason to abort in the tree, the pass aborts. *)
Lemma Inject_sure_abort sl ConvertSSA heap s b :
  b ∈ DoubleBufferDetector.run s ->
  sure_abort (DoubleBufferDetector.run s) false false s = true ->
  exists msg, InjectDoubleBuffer ConvertSSA heap s sl = Fatal msg.
Proof.
  intros Hb Ha. unfold InjectDoubleBuffer, Inject.
  rewrite decide_False by set_solver.
  destruct (VisitStmt sl s _) as [[r st']|msg] eqn:E; [|eauto].
  exfalso. eapply sure_abort_sound; [apply context_ok_init | exact Ha | exact E].
Qed.
(** * Stores to a tracked buffer under the traversal *)

(** ** The utilities keep the stores *)

Lemma store_indices_Substitute tgt vmap s :
  store_indices tgt (Substitute vmap s)
  = map (Substitute_expr vmap) (store_indices tgt s).
Proof.
  stmt_induction s; cbn [Substitute store_indices map];
    try assumption; try reflexivity.
  - case_bool_decide; reflexivity.
  - rewrite map_app, IHt, IHe. reflexivity.
  - rewrite map_app, IHt. reflexivity.
  - induction IHl as [|y r Hy Hr IH]; [reflexivity|].
    cbn [map flat_map]. rewrite map_app, Hy, IH. reflexivity.
Qed.

Lemma store_indices_Strip tgt s :
  store_indices tgt (StripDoubleBufferWrite.VisitStmt s) = store_indices tgt s.
Proof.
  stmt_induction s; cbn [StripDoubleBufferWrite.VisitStmt store_indices];
    try assumption; try reflexivity.
  - destruct (String.eqb k attr.double_buffer_write); exact IHb.
  - rewrite IHt, IHe. reflexivity.
  - rewrite IHt. reflexivity.
  - induction IHl as [|y r Hy Hr IH]; [reflexivity|].
    cbn [map flat_map]. rewrite Hy, IH. reflexivity.
Qed.

Lemma store_indices_flatten_into tgt s :
  flat_map (store_indices tgt) (flatten_into s) = store_indices tgt s.
Proof.
  stmt_induction s; try (cbn [flatten_into flat_map]; apply app_nil_r).
  rewrite flatten_into_SeqStmt. cbn [store_indices].
  induction IHl as [|y r Hy Hr IH]; [reflexivity|].
  cbn [flat_map]. rewrite flat_map_app, Hy, IH. reflexivity.
Qed.

Lemma store_indices_Flatten tgt l :
  store_indices tgt (Flatten l) = flat_map (store_indices tgt) l.
Proof.
  assert (E : flat_map (store_indices tgt) (flat_map flatten_into l)
              = flat_map (store_indices tgt) l).
  { induction l as [|y r IH]; [reflexivity|].
    cbn [flat_map]. rewrite flat_map_app, store_indices_flatten_into, IH.
    reflexivity. }
  unfold Flatten. rewrite <- E.
  destruct (flat_map flatten_into l) as [|s [|s' r]].
  - reflexivity.
  - cbn [flat_map]. rewrite app_nil_r. reflexivity.
  - reflexivity.
Qed.

Lemma is_no_op_store_indices tgt s : is_no_op s = true -> store_indices tgt s = [].
Proof.
  destruct s as [| | | | | | | | l |]; try discriminate; [|reflexivity].
  destruct l; [reflexivity | discriminate].
Qed.

Lemma store_indices_merge_one tgt s body r :
  merge_one s body = Ok r ->
  store_indices tgt r = store_indices tgt s ++ store_indices tgt body.
Proof.
  destruct s as [v e s0|n k v s0|c m s0|bv v i p|bv t ex c s0|bv
                 |a lv mn ex ft da s0|c t [e|]|l|e];
    cbn [merge_one]; try discriminate;
    try (destruct (is_no_op _) eqn:E; [|discriminate];
         intros [= <-]; cbn [store_indices];
         rewrite (is_no_op_store_indices tgt _ E), ?app_nil_r; reflexivity).
  destruct (last l) as [s0|] eqn:El; [|discriminate].
  destruct (is_no_op s0) eqn:E; [|discriminate]. intros [= <-].
  apply last_Some in El as [l' ->]. rewrite removelast_last.
  cbn [store_indices]. rewrite !flat_map_app. cbn [flat_map].
  rewrite (is_no_op_store_indices tgt _ E), !app_nil_r. reflexivity.
Qed.

Lemma store_indices_MergeNest tgt nest :
  forall body r,
    MergeNest nest body = Ok r ->
    store_indices tgt r
    = flat_map (store_indices tgt) nest ++ store_indices tgt body.
Proof.
  induction nest as [|s nest IH]; intros body r H;
    cbn [MergeNest fold_right] in H.
  - inversion H; subst. reflexivity.
  - fold (MergeNest nest body) in H.
    destruct (MergeNest nest body) as [s0|] eqn:E; [|discriminate H].
    rewrite (store_indices_merge_one tgt _ _ _ H), (IH _ _ E).
    cbn [flat_map]. rewrite app_assoc. reflexivity.
Qed.

(** ** Phase selectors under substitution *)

Lemma selects_Substitute_other w vmap idx :
  vmap !! var_id w = None ->
  selects (Variable_ w) idx -> selects (Variable_ w) (Substitute_expr vmap idx).
Proof.
  intros H (sd & x & ->). unfold add_, mul_. cbn [Substitute_expr].
  rewrite H. eexists _, _. reflexivity.
Qed.

Lemma selects_Substitute w p vmap idx :
  vmap !! var_id w = Some p ->
  selects (Variable_ w) idx -> selects p (Substitute_expr vmap idx).
Proof.
  intros H (sd & x & ->). unfold add_, mul_. cbn [Substitute_expr].
  rewrite H. eexists _, _. reflexivity.
Qed.

Lemma stores_select_Substitute_other tgt w vmap s :
  vmap !! var_id w = None ->
  stores_select tgt (Variable_ w) s ->
  stores_select tgt (Variable_ w) (Substitute vmap s).
Proof.
  unfold stores_select. intros H Hs. rewrite store_indices_Substitute.
  induction Hs as [|x r Hx Hr IH]; cbn [map];
    [apply List.Forall_nil | apply List.Forall_cons; [|exact IH]].
  apply selects_Substitute_other; assumption.
Qed.

Lemma stores_select_Substitute tgt w p vmap s :
  vmap !! var_id w = Some p ->
  stores_select tgt (Variable_ w) s -> stores_select tgt p (Substitute vmap s).
Proof.
  unfold stores_select. intros H Hs. rewrite store_indices_Substitute.
  induction Hs as [|x r Hx Hr IH]; cbn [map];
    [apply List.Forall_nil | apply List.Forall_cons; [|exact IH]].
  apply (selects_Substitute w); assumption.
Qed.

Lemma stores_select_list tgt p l :
  Forall (stores_select tgt p) l <->
  Forall (selects p) (flat_map (store_indices tgt) l).
Proof.
  induction l as [|s r IH]; cbn [flat_map].
  - split; intros _; constructor.
  - rewrite Forall_cons, Forall_app, IH. reflexivity.
Qed.

Lemma stores_select_Flatten tgt p l :
  Forall (stores_select tgt p) l -> stores_select tgt p (Flatten l).
Proof.
  intros H. unfold stores_select. rewrite store_indices_Flatten.
  apply stores_select_list, H.
Qed.

Lemma stores_select_MergeNest tgt p nest body r :
  MergeNest nest body = Ok r ->
  Forall (stores_select tgt p) nest -> stores_select tgt p body ->
  stores_select tgt p r.
Proof.
  intros H Hn Hb. unfold stores_select.
  rewrite (store_indices_MergeNest tgt _ _ _ H). apply Forall_app.
  split; [apply stores_select_list, Hn | exact Hb].
Qed.

Lemma stores_select_map tgt p {A} (f : A -> Stmt) l :
  (forall x, stores_select tgt p (f x)) -> Forall (stores_select tgt p) (map f l).
Proof.
  intros H. induction l as [|x r IH]; cbn [map]; constructor; auto.
Qed.

(** ** The members while the body of an annotation is traversed *)

Lemma In_pop_back {X} (x : X) l : In x (pop_back l) -> In x l.
Proof.
  unfold pop_back. induction l as [|y [|z r] IH]; cbn [removelast];
    [tauto | intros [] |].
  intros [->|H]; [left; reflexivity | right; apply IH, H].
Qed.

Section WritesWith.
Import DoubleBufferInjector.
Variables (tgt : VarPtr) (w : Var) (A : nat -> Prop).

Lemma writes_with_new_Var st :
  writes_with tgt w A st -> writes_with tgt w A (set_heap (S (heap_ st)) st).
Proof.
  intros (H1 & H2 & H3 & H4 & H5 & H6).
  split; [|split; [|split; [|split; [|split]]]]; try assumption.
  cbn [heap_ set_heap]. lia.
Qed.

Lemma writes_with_push st L :
  writes_with tgt w A st -> var_id (for_loop_var L) <> var_id w ->
  writes_with tgt w A (set_loop_nest (loop_nest_ st ++ [L]) st).
Proof.
  intros (H1 & H2 & H3 & H4 & H5 & H6) HL.
  split; [|split; [|split; [|split; [|split]]]]; try assumption.
  intros L' HL'. cbn [loop_nest_ set_loop_nest] in HL'.
  apply in_app_or in HL' as [HL'|[<-|[]]]; [apply H2, HL' | exact HL].
Qed.

Lemma writes_with_pop st :
  writes_with tgt w A st ->
  writes_with tgt w A (set_loop_nest (pop_back (loop_nest_ st)) st).
Proof.
  intros (H1 & H2 & H3 & H4 & H5 & H6).
  split; [|split; [|split; [|split; [|split]]]]; try assumption.
  intros L' HL'. cbn [loop_nest_ set_loop_nest] in HL'.
  apply H2, In_pop_back, HL'.
Qed.

Lemma writes_with_entry st c e' :
  writes_with tgt w A st ->
  (forall L, loop e' = Some L -> var_id (for_loop_var L) <> var_id w) ->
  (c <> tgt -> var_id (switch_write_var e') <> var_id w) ->
  (c = tgt -> switch_write_var e' = w) ->
  writes_with tgt w A (set_dbuffer_info (<[c := e']> (dbuffer_info_ st)) st).
Proof.
  intros (H1 & H2 & H3 & H4 & H5 & H6) HL Hne He.
  split; [|split; [|split; [|split; [|split]]]]; try assumption.
  - cbn [dbuffer_info_ set_dbuffer_info].
    destruct (decide (c = tgt)) as [->|Hc].
    + exists e'. rewrite lookup_insert_eq. split; [reflexivity | auto].
    + rewrite lookup_insert_ne by exact Hc. exact H3.
  - intros c' e0. cbn [dbuffer_info_ set_dbuffer_info].
    destruct (decide (c = c')) as [<-|Hc].
    + rewrite lookup_insert_eq. intros [= <-]. split; assumption.
    + rewrite lookup_insert_ne by exact Hc. apply H4.
Qed.

(** An update of an entry that keeps its loop and its write-phase
    variable. *)
Lemma writes_with_same st c e e' :
  writes_with tgt w A st -> dbuffer_info_ st !! c = Some e ->
  loop e' = loop e -> switch_write_var e' = switch_write_var e ->
  writes_with tgt w A (set_dbuffer_info (<[c := e']> (dbuffer_info_ st)) st).
Proof.
  intros H He HL Hw. pose proof H as (H1 & H2 & H3 & H4 & H5 & H6).
  destruct (H4 _ _ He) as [K1 K2].
  apply writes_with_entry; [exact H | | |].
  - rewrite HL. exact K1.
  - rewrite Hw. exact K2.
  - intros ->. destruct H3 as (e0 & He0 & <-). rewrite Hw. congruence.
Qed.

Lemma writes_with_prologue st a x :
  writes_with tgt w A st -> stores_select tgt (Variable_ w) x ->
  writes_with tgt w A
    (set_loop_pre (<[a := default [] (loop_pre_ st !! a) ++ [x]]> (loop_pre_ st))
                  st).
Proof.
  intros (H1 & H2 & H3 & H4 & H5 & H6) Hx.
  split; [|split; [|split; [|split; [|split]]]]; try assumption.
  intros a' l Ha'. cbn [loop_pre_ set_loop_pre].
  destruct (decide (a = a')) as [<-|Hne].
  - rewrite lookup_insert_eq. intros [= <-]. apply Forall_app. split.
    + destruct (loop_pre_ st !! a) as [l0|] eqn:E;
        [apply (H5 a l0 Ha' E) | constructor].
    + constructor; [exact Hx | constructor].
  - rewrite lookup_insert_ne by exact Hne. apply H5, Ha'.
Qed.

Lemma writes_with_hoist st a x y :
  writes_with tgt w A st ->
  stores_select tgt (Variable_ w) x -> stores_select tgt (Variable_ w) y ->
  writes_with tgt w A
    (set_loop_allocs
       (<[a := (default [] (loop_allocs_ st !! a) ++ [x]) ++ [y]]>
          (loop_allocs_ st)) st).
Proof.
  intros (H1 & H2 & H3 & H4 & H5 & H6) Hx Hy.
  split; [|split; [|split; [|split; [|split]]]]; try assumption.
  intros a' l Ha'. cbn [loop_allocs_ set_loop_allocs].
  destruct (decide (a = a')) as [<-|Hne].
  - rewrite lookup_insert_eq. intros [= <-]. rewrite !Forall_app.
    split; [split|].
    + destruct (loop_allocs_ st !! a) as [l0|] eqn:E;
        [apply (H6 a l0 Ha' E) | constructor].
    + constructor; [exact Hx | constructor].
    + constructor; [exact Hy | constructor].
  - rewrite lookup_insert_ne by exact Hne. apply H6, Ha'.
Qed.

End WritesWith.

(** ** The stores of the traversed body select the write-phase variable

    While the body of the annotation of [tgt] is traversed, every store to
    [tgt] is rewritten with the write-phase variable [w] of the entry, and
    no later substitution reaches [w]: the inner annotations and the
    unrolled loops substitute variables of their own. *)
Section WritesWithVisit.
Import DoubleBufferInjector.
Variables (sl : Z) (tgt : VarPtr) (w : Var) (A : nat -> Prop).

Ltac sub_IH :=
  repeat match goal with
    | IH : forall st r st', writes_with _ _ _ st ->
                            VisitStmt _ ?s st = Ok (r, st') -> _,
      H : VisitStmt _ ?s ?x = Ok _, Hw : writes_with _ _ _ _ |- _ =>
        destruct (IH _ _ _ (Hw : writes_with tgt w A x) H) as [? ?]; clear H
    end.

Ltac selects_goal :=
  unfold stores_select in *; cbn [store_indices]; rewrite ?app_nil_r;
  try assumption; try (apply Forall_app; split; assumption);
  try constructor.

Lemma unroll_writes_with addr lv mn ex ft da body st r st' :
  var_id lv <> var_id w ->
  stores_select tgt (Variable_ w) body ->
  writes_with tgt w A st ->
  unroll sl addr lv mn ex ft da body st = Ok (r, st') ->
  stores_select tgt (Variable_ w) r /\ writes_with tgt w A st'.
Proof.
  intros Hlv Hb Hw H. unfold unroll in H. minv H. split.
  - apply stores_select_Flatten. constructor.
    + unfold stores_select. cbn [store_indices].
      fold (stores_select tgt (Variable_ w)).
      apply stores_select_Flatten, stores_select_map. intros x.
      apply stores_select_Substitute_other; [|exact Hb].
      apply lookup_singleton_ne. exact Hlv.
    + apply stores_select_map. intros x.
      unfold stores_select. cbn [store_indices]. rewrite app_nil_r.
      apply stores_select_Substitute_other;
        [apply lookup_singleton_ne; exact Hlv|].
      unfold stores_select. rewrite store_indices_Strip. exact Hb.
  - apply (writes_with_new_Var _ _ _ st), Hw.
Qed.

Lemma vmap_prologue_other ew lv z x :
  var_id lv <> x -> var_id ew <> x -> vmap_prologue ew lv z !! x = None.
Proof.
  intros H1 H2. unfold vmap_prologue.
  rewrite !lookup_insert_ne by assumption. apply lookup_empty.
Qed.

Lemma vmap_steady_other ew lv z sh two x :
  var_id lv <> x -> var_id ew <> x -> vmap_steady ew lv z sh two !! x = None.
Proof.
  intros H1 H2. unfold vmap_steady.
  rewrite !lookup_insert_ne by assumption. apply vmap_prologue_other; assumption.
Qed.

Lemma VisitStmt_writes_with s :
  annotates tgt s = false -> binds (var_id w) s = false ->
  (forall x, In x (loop_addrs s) -> A x) ->
  forall st r st',
    writes_with tgt w A st -> VisitStmt sl s st = Ok (r, st') ->
    stores_select tgt (Variable_ w) r /\ writes_with tgt w A st'.
Proof.
  stmt_induction s; intros Ha Hb HA st r st' Hw H;
    cbn [annotates binds loop_addrs] in Ha, Hb, HA; orb_false.
  - specialize (IHb ltac:(assumption) ltac:(assumption) HA).
    cbn [VisitStmt] in H. minv H. sub_IH. split; assumption.
  - specialize (IHb ltac:(assumption) ltac:(assumption) HA).
    cbn [VisitStmt] in H. unfold VisitStmt_AttrStmt in H.
    destruct (String.eqb k attr.storage_scope) eqn:E1;
      [|destruct (String.eqb k attr.double_buffer_scope) eqn:E2].
    + munfold H.
      destruct (dbuffer_info_ st !! as_Variable n) as [ent|] eqn:Hent.
      * destruct v; try discriminate H.
        apply (IHb _ _ _) in H; [exact H|].
        apply (writes_with_same _ _ _ st _ ent); [exact Hw|exact Hent| |];
          reflexivity.
      * minv H. sub_IH. split; assumption.
    + match goal with
      | Hk : (_ && _)%bool = false |- _ =>
          rewrite ?E2 in Hk; cbn [andb] in Hk;
          apply bool_decide_eq_false in Hk; rename Hk into Hnode
      end.
      unfold MakeProducer in H. destruct n as [buffer|key]; [|discriminate H].
      cbn [as_Variable] in Hnode. munfold H.
      destruct (negb _) eqn:Hlen; [|discriminate H].
      destruct (dbuffer_info_ st !! get buffer) as [ent|] eqn:Hent.
      * destruct (back (loop_nest_ st)) as [L|] eqn:Hback; [|discriminate H].
        cbn beta iota in H.
        match type of H with
        | context [VisitStmt sl b ?x] => assert (Hw1 : writes_with tgt w A x)
        end.
        { match goal with
          | |- writes_with _ _ _ (set_in_scope _ ?x) =>
              change (writes_with tgt w A x)
          end.
          pose proof Hw as (Hheap & Hnest & _).
          apply (writes_with_entry _ _ _ (set_heap (S (heap_ st)) st));
            [apply writes_with_new_Var, Hw | | |].
          - intros L0 [= <-]. apply Hnest, back_In, Hback.
          - intros _. cbn [switch_write_var var_id]. lia.
          - intros Heq. contradiction. }
        destruct (VisitStmt sl b _) as [[B st2]|] eqn:Hbody; [|discriminate H].
        destruct (IHb _ _ _ Hw1 Hbody) as [HB Hw2].
        cbn beta iota in H.
        destruct (dbuffer_info_ (set_in_scope false st2) !! get buffer)
          as [e2|] eqn:Hent2; [|discriminate H].
        destruct (loop e2) as [L2|] eqn:HL2; [|discriminate H].
        inversion H; subst; clear H.
        pose proof Hw2 as (_ & _ & _ & Hentries & _).
        destruct (Hentries _ _ Hent2) as [K1 K2].
        specialize (K1 _ HL2). specialize (K2 Hnode).
        split.
        -- unfold stores_select. cbn [store_indices]. rewrite app_nil_r.
           apply stores_select_Substitute_other; [|exact HB].
           apply vmap_steady_other; assumption.
        -- refine (writes_with_prologue _ _ _ (set_in_scope false st2) _ _ _ _);
             [exact Hw2|].
           apply stores_select_Substitute_other; [|exact HB].
           apply vmap_prologue_other; assumption.
      * minv H. sub_IH. split; assumption.
    + minv H. sub_IH. split; assumption.
  - specialize (IHb ltac:(assumption) ltac:(assumption) HA).
    cbn [VisitStmt] in H. minv H. sub_IH. split; assumption.
  - pose proof Hw as (_ & _ & (e0 & He0 & Hw0) & _).
    cbn [VisitStmt] in H. munfold H. repeat mdestruct H.
    unfold VisitStmt_Store in H. munfold H.
    match type of H with
    | context [dbuffer_info_ ?x !! get bv] =>
        destruct (dbuffer_info_ x !! get bv) as [ent|] eqn:Hent
    end.
    + minv H. split; [|exact Hw]. unfold stores_select. cbn [store_indices].
      case_bool_decide as Hbv; constructor; [|constructor].
      rewrite Hbv, He0 in Hent. inversion Hent; subst.
      eexists _, _. reflexivity.
    + inversion H; subst. split; [|exact Hw].
      unfold stores_select. cbn [store_indices].
      case_bool_decide as Hbv; [|constructor].
      rewrite Hbv, He0 in Hent. discriminate Hent.
  - specialize (IHb ltac:(assumption) ltac:(assumption) HA).
    cbn [VisitStmt] in H. unfold VisitStmt_Allocate in H. munfold H.
    destruct (dbuffer_info_ st !! get bv) as [ent|] eqn:Hent.
    + destruct (ComputeReduce_Mul ex) as [prod|]; [|discriminate H].
      cbn beta iota in H.
      match type of H with
      | context [set_dbuffer_info (<[_ := ?e']> _) st] =>
          assert (Hw1 : writes_with tgt w A
                          (set_dbuffer_info
                             (<[get bv := e']> (dbuffer_info_ st)) st))
            by (apply (writes_with_same _ _ _ st _ ent);
                [exact Hw|exact Hent| |]; reflexivity)
      end.
      repeat mdestruct H. sub_IH.
      unfold hoist_Allocate in H. minv H.
      split; [assumption|].
      match goal with
      | |- writes_with _ _ _ (set_loop_allocs _ ?x) =>
          refine (writes_with_hoist _ _ _ x _ _ _ _ _ _);
          [assumption | constructor | constructor]
      end.
    + minv H. sub_IH. split; assumption.
  - cbn [VisitStmt] in H. minv H. split; [constructor | assumption].
  - specialize (IHb ltac:(assumption) ltac:(assumption)
                    ltac:(intros x Hx; apply HA; right; exact Hx)).
    assert (HAa : A a) by (apply HA; left; reflexivity).
    assert (Hlv : var_id lv <> var_id w) by (apply Nat.eqb_neq; assumption).
    cbn [VisitStmt] in H. unfold VisitStmt_For in H. munfold H.
    assert (Hw1 : writes_with tgt w A
                    (set_loop_nest (loop_nest_ st ++ [mkForPtr a lv mn ex]) st))
      by (apply writes_with_push; [exact Hw | exact Hlv]).
    mdestruct H. mdestruct H.
    destruct (VisitStmt sl b _) as [[B st2]|] eqn:Hbody; [|discriminate H].
    destruct (IHb _ _ _ Hw1 Hbody) as [HB Hw2].
    cbn beta iota in H.
    match type of H with
    | match ?X with _ => _ end = _ =>
        destruct X as [[r1 st3]|] eqn:Hstage; [|discriminate H]
    end.
    assert (Hr1 : stores_select tgt (Variable_ w) r1 /\ writes_with tgt w A st3).
    { pose proof Hw2 as (_ & _ & _ & _ & Hpre & _).
      destruct (loop_pre_ st2 !! a) as [pre|] eqn:Epre.
      - specialize (Hpre _ _ HAa Epre).
        destruct (negb (sl =? 0)).
        + destruct (unroll sl a lv e e0 ft da B st2) as [[u st4]|] eqn:Hu;
            [|discriminate Hstage].
          inversion Hstage; subst; clear Hstage.
          destruct (unroll_writes_with _ _ _ _ _ _ _ _ _ _ Hlv HB Hw2 Hu)
            as [Hu1 Hw4].
          split; [|exact Hw4]. apply stores_select_Flatten, Forall_app.
          split; [exact Hpre | constructor; [exact Hu1 | constructor]].
        + inversion Hstage; subst; clear Hstage. split; [|exact Hw2].
          apply stores_select_Flatten, Forall_app.
          split; [exact Hpre | constructor; [exact HB | constructor]].
      - inversion Hstage; subst; clear Hstage. split; [exact HB | exact Hw2]. }
    destruct Hr1 as [Hr1 Hw3]. cbn beta iota in H.
    pose proof Hw3 as (_ & _ & _ & _ & _ & Hallocs).
    destruct (loop_allocs_ st3 !! a) as [nest|] eqn:En.
    + destruct (MergeNest nest r1) as [m|] eqn:Hm; [|discriminate H].
      inversion H; subst; clear H.
      split; [|apply writes_with_pop, Hw3].
      apply (stores_select_MergeNest _ _ _ _ _ Hm); [|exact Hr1].
      apply (Hallocs _ _ HAa En).
    + inversion H; subst; clear H.
      split; [exact Hr1 | apply writes_with_pop, Hw3].
  - specialize (IHt ltac:(assumption) ltac:(assumption)
                    ltac:(intros x Hx; apply HA, in_or_app; left; exact Hx)).
    specialize (IHe ltac:(assumption) ltac:(assumption)
                    ltac:(intros x Hx; apply HA, in_or_app; right; exact Hx)).
    cbn [VisitStmt] in H. minv H. sub_IH.
    split; [|assumption]. unfold stores_select in *. cbn [store_indices].
    apply Forall_app. split; assumption.
  - specialize (IHt ltac:(assumption) ltac:(assumption)
                    ltac:(intros x Hx; apply HA, in_or_app; left; exact Hx)).
    cbn [VisitStmt] in H. minv H. sub_IH.
    split; [|assumption]. unfold stores_select in *. cbn [store_indices].
    rewrite app_nil_r. assumption.
  - rewrite VisitStmt_SeqStmt in H. munfold H.
    destruct (mapM (VisitStmt sl) l st) as [[l' st1]|] eqn:Hm; [|discriminate H].
    inversion H; subst; clear H.
    unfold stores_select. cbn [store_indices]. rewrite <- stores_select_list.
    revert st l' st' Hw Hm Ha Hb HA.
    induction IHl as [|y rest Hy Hrest IH]; intros st l' st' Hw Hm Ha Hb HA;
      cbn [mapM] in Hm; minv Hm.
    + split; [constructor | assumption].
    + cbn [existsb flat_map] in Ha, Hb, HA. orb_false.
      match goal with
      | H1 : VisitStmt sl y st = Ok (_, ?s1), H2 : mapM _ rest ?s1 = Ok _ |- _ =>
          destruct (Hy ltac:(assumption) ltac:(assumption)
                       ltac:(intros x Hx; apply HA, in_or_app; left; exact Hx)
                       _ _ _ Hw H1) as [A1 C1];
          destruct (IH _ _ _ C1 H2 ltac:(assumption) ltac:(assumption)
                       ltac:(intros x Hx; apply HA, in_or_app; right; exact Hx))
            as [A2 C2]
      end.
      split; [|exact C2]. constructor; assumption.
  - cbn [VisitStmt] in H. minv H. split; [constructor | assumption].
Qed.
End WritesWithVisit.

(** The injector as constructed has its counter above every address it
    holds. *)
Lemma fresh_heap_init T heap : fresh_heap (DoubleBufferInjector.init T heap).
Proof.
  split.
  - intros L [].
  - intros c e He. apply init_lookup in He as [_ (k & -> & Hk)].
    split; [cbn [DoubleBufferInjector.switch_write_var
                   DoubleBufferInjector.StorageEntry_init
                   DoubleBufferInjector.VarExpr_default var_id]; lia
           | discriminate].
Qed.

(** ** The stores of a rewritten annotation

    The annotation of a tracked buffer inside the loop [L], whose body holds
    no further annotation of the buffer: every store to the buffer in the
    steady-state statement has the phase selector [(i+1) mod 2], every store
    to the buffer in the statement appended to the prologue of [L] has the
    phase selector [0]. *)
Section AnnotationStores.
Import DoubleBufferInjector.

Lemma annotation_stores sl st buffer value body r st' ent L :
  dbuffer_info_ st !! get buffer = Some ent ->
  back (loop_nest_ st) = Some L ->
  annotates (get buffer) body = false ->
  binds (heap_ st) body = false ->
  fresh_heap st ->
  unvisited body st ->
  VisitStmt sl (AttrStmt (NodeVar buffer) attr.double_buffer_scope value body)
            st = Ok (r, st') ->
  stores_select (get buffer) (write_phase (for_loop_var L)) r
  /\ exists pre pro,
      loop_pre_ st' !! for_addr L = Some (pre ++ [pro])
      /\ stores_select (get buffer)
                       (make_const (var_dtype (for_loop_var L)) 0) pro.
Proof.
  intros Hent Hback Hfree Hbound [Hnest Hentries] Hnew H.
  set (i := for_loop_var L).
  set (w := mkVar (heap_ st) (name_hint i ++ ".db")%string (var_dtype i)).
  cbn [VisitStmt] in H. unfold VisitStmt_AttrStmt in H.
  replace (String.eqb attr.double_buffer_scope attr.storage_scope)
    with false in H by reflexivity.
  rewrite String.eqb_refl in H. unfold MakeProducer in H. munfold H.
  destruct (negb _) eqn:Hlen; [|discriminate H].
  rewrite Hent, Hback in H. cbn beta iota in H. fold i in H. fold w in H.
  match type of H with
  | context [VisitStmt sl body ?x] => set (st1 := x) in *
  end.
  assert (Hw1 : writes_with (get buffer) w (fun a => In a (loop_addrs body))
                            st1).
  { pose proof (Hnest _ (back_In _ _ Hback)) as HL.
    split; [|split; [|split; [|split; [|split]]]].
    - cbn. lia.
    - intros L0 HL0. specialize (Hnest _ HL0). cbn [var_id w]. lia.
    - eexists. subst st1. cbn [dbuffer_info_ set_in_scope set_dbuffer_info].
      rewrite lookup_insert_eq. split; reflexivity.
    - intros c e0. subst st1.
      cbn [dbuffer_info_ set_in_scope set_dbuffer_info set_heap].
      destruct (decide (get buffer = c)) as [<-|Hne].
      + rewrite lookup_insert_eq. intros [= <-]. cbn [loop switch_write_var].
        split; [|intros Hc; contradiction].
        intros L0 [= <-]. cbn [var_id w]. lia.
      + rewrite lookup_insert_ne by exact Hne. intros He0.
        destruct (Hentries _ _ He0) as [K1 K2]. cbn [var_id w].
        split; [intros L0 HL0; specialize (K2 _ HL0); lia | intros _; lia].
    - intros a l Ha Hl. destruct (Hnew _ Ha) as [E _].
      subst st1. cbn [loop_pre_ set_in_scope set_dbuffer_info set_heap] in Hl.
      rewrite E in Hl. discriminate Hl.
    - intros a l Ha Hl. destruct (Hnew _ Ha) as [_ E].
      subst st1. cbn [loop_allocs_ set_in_scope set_dbuffer_info set_heap] in Hl.
      rewrite E in Hl. discriminate Hl. }
  destruct (VisitStmt sl body st1) as [[B st2]|] eqn:Hbody; [|discriminate H].
  destruct (VisitStmt_writes_with
              sl (get buffer) w (fun a => In a (loop_addrs body)) body
              Hfree Hbound (fun a Ha => Ha) _ _ _ Hw1 Hbody) as [HB _].
  destruct (VisitStmt_keeps sl (get buffer) body Hfree _ _ _ Hbody
              (mkStorageEntry (stride ent) (Some L) w (Some (read_phase i))
                              (scope ent)))
    as (e2 & He2 & HL2 & Hw2 & _).
  { subst st1. cbn [dbuffer_info_ set_in_scope set_dbuffer_info].
    apply lookup_insert_eq. }
  cbn [loop switch_write_var] in HL2, Hw2. cbn beta iota in H.
  cbn [dbuffer_info_ set_in_scope] in H. rewrite He2, HL2, Hw2 in H.
  inversion H; subst; clear H. split.
  - unfold stores_select. cbn [store_indices]. rewrite app_nil_r.
    apply (stores_select_Substitute _ w); [|exact HB].
    unfold vmap_steady. rewrite lookup_insert_eq. reflexivity.
  - eexists _, _. cbn [loop_pre_ set_loop_pre]. rewrite lookup_insert_eq.
    split; [reflexivity|].
    apply (stores_select_Substitute _ w); [|exact HB].
    unfold vmap_prologue, i.
    destruct (decide (var_id (for_loop_var L) = var_id w)) as [E|E].
    + rewrite E, lookup_insert_eq. reflexivity.
    + rewrite lookup_insert_ne, lookup_insert_eq by exact E. reflexivity.
Qed.

End AnnotationStores.
(** * The walk of the detector, event by event *)
Section DetectorEvents.
Import DoubleBufferDetector.
Variable tgt : VarPtr.

Lemma outcome_app ev1 ev2 P :
  outcome (ev1 ++ ev2) P <-> outcome ev2 (outcome ev1 P).
Proof. unfold outcome. rewrite last_app. destruct (last ev2); reflexivity. Qed.

Lemma follows_ext f g evs :
  (forall T, f T = g T) -> follows tgt f evs -> follows tgt g evs.
Proof. intros E H T. rewrite <- E. apply H. Qed.

Lemma follows_id : follows tgt (fun T => T) [].
Proof. intros T. reflexivity. Qed.

Lemma follows_comp f g ev1 ev2 :
  follows tgt f ev1 -> follows tgt g ev2 ->
  follows tgt (fun T => g (f T)) (ev1 ++ ev2).
Proof.
  intros Hf Hg T. rewrite outcome_app, (Hg (f T)).
  unfold outcome. destruct (last ev2); [reflexivity | apply Hf].
Qed.

Lemma follows_insert n :
  follows tgt (fun T => {[n]} ∪ T)
          (if bool_decide (n = tgt) then [Annotated] else []).
Proof.
  intros T. case_bool_decide; unfold outcome; cbn [last]; set_solver.
Qed.

Lemma follows_VisitExpr_Variable v :
  follows tgt (VisitExpr_Variable v)
          (if bool_decide (get v = tgt) then [Referenced] else []).
Proof.
  intros T. unfold VisitExpr_Variable.
  case_bool_decide; case_decide; unfold outcome; cbn [last];
    split; try discriminate; set_solver.
Qed.

Lemma follows_VisitExpr e : follows tgt (VisitExpr e) (events_expr tgt e).
Proof.
  expr_induction e; cbn [events_expr].
  - apply follows_id.
  - apply follows_id.
  - apply follows_VisitExpr_Variable.
  - exact IHa.
  - apply (follows_comp _ _ _ _ IHa IHb).
  - exact IHa.
  - apply (follows_comp _ _ _ _ IHc (follows_comp _ _ _ _ IHa IHb)).
  - apply (follows_comp _ _ _ _ IHi IHp).
  - apply (follows_comp _ _ _ _ IHa IHb).
  - apply (follows_ext (VisitExprs args)).
    { intros T. unfold VisitExprs. cbn [VisitExpr]. revert T.
      induction args as [|x r IH]; intros T; [reflexivity|].
      cbn [fold_left]. apply IH. inversion IHargs; assumption. }
    unfold VisitExprs.
    induction IHargs as [|x r Hx Hr IH]; [apply follows_id|].
    cbn [flat_map fold_left]. apply (follows_comp _ _ _ _ Hx IH).
Qed.

Lemma follows_VisitExprs l :
  follows tgt (VisitExprs l) (flat_map (events_expr tgt) l).
Proof.
  unfold VisitExprs. induction l as [|x r IH]; [apply follows_id|].
  cbn [flat_map fold_left].
  apply (follows_comp _ _ _ _ (follows_VisitExpr x) IH).
Qed.

Lemma follows_VisitStmt s : follows tgt (VisitStmt s) (events tgt s).
Proof.
  stmt_induction s; cbn [events].
  - apply (follows_comp _ _ _ _ (follows_VisitExpr e) IHb).
  - destruct (String.eqb k attr.double_buffer_scope) eqn:Ek; cbn [andb].
    + apply (follows_ext
               (fun T => VisitStmt b (VisitExpr v ({[as_Variable n]} ∪ T)))).
      { intros T. cbn [VisitStmt]. rewrite Ek. reflexivity. }
      apply (follows_comp
               _ _ _ _ (follows_insert (as_Variable n))
               (follows_comp _ _ _ _ (follows_VisitExpr v) IHb)).
    + apply (follows_ext (fun T => VisitStmt b (VisitExpr v T))).
      { intros T. cbn [VisitStmt]. rewrite Ek. reflexivity. }
      apply (follows_comp _ _ _ _ (follows_VisitExpr v) IHb).
  - apply (follows_comp
             _ _ _ _ (follows_VisitExpr c)
             (follows_comp _ _ _ _ (follows_VisitExpr m) IHb)).
  - apply (follows_comp
             _ _ _ _ (follows_VisitExpr v)
             (follows_comp _ _ _ _ (follows_VisitExpr i)
                           (follows_VisitExpr p))).
  - apply (follows_ext
             (fun T => VisitExpr c (VisitStmt b (VisitExprs ex T))));
      [reflexivity|].
    apply (follows_comp
             _ _ _ _ (follows_VisitExprs ex)
             (follows_comp _ _ _ _ IHb (follows_VisitExpr c))).
  - apply follows_id.
  - apply (follows_comp
             _ _ _ _ (follows_VisitExpr mn)
             (follows_comp _ _ _ _ (follows_VisitExpr ex) IHb)).
  - apply (follows_comp
             _ _ _ _ (follows_VisitExpr c)
             (follows_comp _ _ _ _ IHt IHe)).
  - rewrite app_nil_r.
    apply (follows_comp _ _ _ _ (follows_VisitExpr c) IHt).
  - apply (follows_ext (fun T => fold_left (fun acc x => VisitStmt x acc) l T)).
    { intros T. symmetry. apply Detector_SeqStmt. }
    induction IHl as [|x r Hx Hr IH]; [apply follows_id|].
    cbn [flat_map fold_left]. apply (follows_comp _ _ _ _ Hx IH).
  - apply follows_VisitExpr.
Qed.

End DetectorEvents.

(** * The claims *)

(** ** C1: the iterations covered after explicit unrolling *)

(** C1 fails as stated: for extent 8 and factor 2 the structure covers the
    indices 0 to 7, so the last index 7 is covered (by the second tail
    conditional) and the covered set is not the interval from 0 to 6. *)
Lemma last_index_is_covered :
  covered 2 8 Sample.i = Some [0; 1; 2; 3; 4; 5; 6; 7] /\
  covered 2 8 Sample.i <> Some (iota (8 - 1)).
Proof. split; [vm_compute; reflexivity | vm_compute; discriminate]. Qed.

(** C1 (amended).  For a loop of extent [N >= 1] with variable [i], unrolled
    by a factor [k >= 1] that is one or even: the steady-state loop over
    [[0, (N-1)/k)] with its [k] copies at [outer*k + j], followed by the [k]
    tail conditionals, runs the loop body once for each index of the
    interval [[0, N)], in increasing order, no index twice and none missed;
    the last index [N-1] is covered, by a tail conditional.  (The body is any
    statement that does not rebind [i], does not rebind a variable of the
    extent and does not mention the fresh outer variable; for the probe body
    the indices reported are exactly [0 .. N-1].) *)
Theorem unroll_covers_every_iteration
        (k N : Z) (addr : nat) (i : Var) (t0 : DataType) (ext : Expr)
        (ft : ForType) (da : DeviceAPI) (body : Stmt) (env : Env)
        (st : Injector) :
  1 <= N -> 1 <= k -> (Z.rem k 2 = 0 \/ k = 1) ->
  stable (fun y => binds y body) env ext N ->
  binds (var_id i) body = false ->
  uses (heap_ st) body = false ->
  exists s st',
    unroll k addr i (IntImm t0 0) ext ft da body st = Ok (s, st') /\
    exec env s = flat_map (fun v => exec (bind_var env i v) body) (iota N) /\
    (body = probe i -> exec env s = iota N) /\
    NoDup (iota N) /\
    (forall x, In x (iota N) <-> 0 <= x < N).
Proof.
  intros HN Hk Hpar Hext Hbi Hfresh.
  destruct (unroll_runs_body k N addr i t0 ext ft da body env st
                             HN Hk Hpar Hext Hbi Hfresh)
    as (s & st' & Hs & Hexec).
  exists s, st'. split; [exact Hs|]. split; [exact Hexec|].
  split; [|split].
  - intros ->. rewrite Hexec.
    rewrite (flat_map_In_ext _ (fun v => [v])).
    + rewrite flat_map_singleton. apply map_id.
    + intros v _. cbn [probe exec eval]. unfold bind_var.
      rewrite Nat.eqb_refl. reflexivity.
  - unfold iota. apply NoDup_fmap_2; [apply Nat2Z.inj' | apply NoDup_seq].
  - intros x. apply In_iota.
Qed.

Lemma unroll_covers_every_iteration_witness :
  covered 2 8 Sample.i = Some (iota 8).
Proof.
  unfold covered.
  destruct (unroll_covers_every_iteration
              2 8 0%nat Sample.i (var_dtype Sample.i)
              (IntImm (var_dtype Sample.i) 8) Serial DevNone (probe Sample.i)
              (fun _ => 0) (init ∅ (S (var_id Sample.i))))
    as (s & st' & Hs & _ & Hprobe & _).
  - lia.
  - lia.
  - left. reflexivity.
  - intros env' _. reflexivity.
  - reflexivity.
  - reflexivity.
  - rewrite Hs, (Hprobe eq_refl). reflexivity.
Defined.

(** ** C2: the producer rewrite *)

(** C2 fails as stated.  [MakeProducer] holds the entry of the buffer by
    reference and reads the loop and the write-phase variable from it again
    after the body has been traversed.  When the body annotates the same
    buffer again inside a loop of its own, the entry then names that inner
    loop: for the annotation [Case.nested_scope] of [buf] inside the loop
    [L8], with variable [i] and extent [8], the conditional compares [i+1]
    with the extent [4] of the inner loop, and the prologue is appended to
    the table of the inner loop, nothing to that of [L8].  The pass accepts
    the loop around this annotation. *)
Lemma nested_annotation_retargets_producer :
  dbuffer_info_ Sample.in_body8 !! get Sample.buf
  = Some (mkStorageEntry (Some Sample.stride16) None Sample.v0 None "shared")
  /\ back (loop_nest_ Sample.in_body8) = Some Sample.L8
  /\ for_loop_var Sample.L8 = Sample.i
  /\ for_extent Sample.L8 = Sample.c 8
  /\ exists B st',
      VisitStmt 0 Case.nested_scope Sample.in_body8
      = Ok (IfThenElse (lt_ (shifted Sample.i) (Sample.c 4))
                       (AttrStmt (NodeVar Sample.buf) attr.double_buffer_write
                                 (Sample.c 1) B)
                       None,
            st')
      /\ loop_pre_ st' !! for_addr Sample.L8 = None
      /\ length (default [] (loop_pre_ st' !! 101%nat)) = 2%nat
      /\ exists out,
          InjectDoubleBuffer (fun s => s) Sample.heap Case.nested_loop8 0
          = Ok out.
Proof.
  split; [reflexivity|]. split; [reflexivity|]. split; [reflexivity|].
  split; [reflexivity|]. eexists _, _.
  split; [vm_compute; reflexivity|]. split; [vm_compute; reflexivity|].
  split; [vm_compute; reflexivity|]. eexists. vm_compute. reflexivity.
Qed.

(** C2 (amended).  For a double-buffer scope annotation of a tracked buffer
    whose innermost enclosing loop [L] has variable [i] and extent [N], and
    whose body holds no further annotation of the same buffer (each
    candidate has one annotation) and is rewritten by the traversal to
    [B']: [B'] with [i] and the write-phase variable [w] both replaced by 0
    is appended to the prologue of [L], and the annotation is replaced by
    the conditional on [i+1 < N] around the prefetch-write marker around
    [B'] with [i] replaced by [i+1] and [w] by [(i+1) mod 2].  The
    conditional runs its branch exactly when [i+1 < N]. *)
Theorem MakeProducer_rewrite
        (split_loop : Z) (st : Injector) (buffer : Var) (value : Expr)
        (body B' : Stmt) (e : StorageEntry) (L : ForPtr) (st2 : Injector) :
  let i := for_loop_var L in
  let N := for_extent L in
  let w := mkVar (heap_ st) (name_hint i ++ ".db")%string (var_dtype i) in
  let zero := make_const (var_dtype i) 0 in
  let st1 :=
    set_in_scope true
      (set_dbuffer_info
         (<[get buffer :=
              mkStorageEntry (stride e) (Some L) w (Some (read_phase i))
                             (scope e)]> (dbuffer_info_ st))
         (set_heap (S (heap_ st)) st)) in
  dbuffer_info_ st !! get buffer = Some e ->
  back (loop_nest_ st) = Some L ->
  annotates (get buffer) body = false ->
  VisitStmt split_loop body st1 = Ok (B', st2) ->
  VisitStmt split_loop
            (AttrStmt (NodeVar buffer) attr.double_buffer_scope value body) st
  = Ok (IfThenElse
          (lt_ (shifted i) N)
          (AttrStmt (NodeVar buffer) attr.double_buffer_write (IntImm Int32 1)
                    (Substitute
                       (<[var_id w := write_phase i]> {[var_id i := shifted i]})
                       B'))
          None,
        set_loop_pre
          (<[for_addr L :=
               default [] (loop_pre_ st2 !! for_addr L)
               ++ [Substitute (<[var_id i := zero]> {[var_id w := zero]}) B']]>
             (loop_pre_ st2))
          (set_in_scope false st2))
  /\ (forall env n,
         eval env N = Some n ->
         eval env (lt_ (shifted i) N) = Some (of_bool (env (var_id i) + 1 <? n)))
  /\ (forall env n S,
         eval env N = Some n ->
         exec env (IfThenElse (lt_ (shifted i) N) S None)
         = if env (var_id i) + 1 <? n then exec env S else []).
Proof.
  intros i N w zero st1 Htracked Hback Hfree Hbody.
  assert (Heval : forall env n,
             eval env N = Some n ->
             eval env (lt_ (shifted i) N)
             = Some (of_bool (env (var_id i) + 1 <? n))).
  { intros env n Hn. cbn [lt_ shifted add_ make_const eval]. rewrite Hn.
    reflexivity. }
  split; [|split; [exact Heval|]].
  - assert (Hlen : negb (Nat.eqb (length (loop_nest_ st)) 0) = true).
    { destruct (loop_nest_ st); [discriminate Hback | reflexivity]. }
    destruct (VisitStmt_keeps split_loop (get buffer) body Hfree _ _ _ Hbody
                (mkStorageEntry (stride e) (Some L) w
                                (Some (read_phase i)) (scope e)))
      as (e2 & He2 & HL & Hw & _).
    { subst st1. cbn [dbuffer_info_ set_in_scope set_dbuffer_info].
      apply lookup_insert_eq. }
    cbn [loop switch_write_var] in HL, Hw.
    cbn [VisitStmt]. unfold VisitStmt_AttrStmt.
    replace (String.eqb attr.double_buffer_scope attr.storage_scope)
      with false by reflexivity.
    rewrite String.eqb_refl.
    unfold MakeProducer, bind, this, CHECK, new_Var, modify, ret.
    rewrite Hlen, Htracked, Hback.
    cbn [dbuffer_info_ set_heap set_dbuffer_info set_in_scope].
    fold i. fold w. fold st1. rewrite Hbody.
    cbn [dbuffer_info_ set_in_scope]. rewrite He2, HL, Hw.
    rewrite vmap_prologue_eq, vmap_steady_eq. reflexivity.
  - intros env n S Hn. cbn [exec]. rewrite (Heval env n Hn).
    destruct (env (var_id i) + 1 <? n); reflexivity.
Qed.

Lemma MakeProducer_rewrite_witness :
  exists st',
    VisitStmt 0 Sample.scoped Sample.in_body8
    = Ok (IfThenElse
            (lt_ (shifted Sample.i) (Sample.c 8))
            (AttrStmt (NodeVar Sample.buf) attr.double_buffer_write
                      (Sample.c 1)
                      (Store Sample.buf
                             (Load Int32 Sample.A (shifted Sample.i)
                                   Sample.true_)
                             (add_ (mul_ (write_phase Sample.i) Sample.stride16)
                                   (Sample.c 0))
                             Sample.true_))
            None,
          st') /\
    loop_pre_ st' !! 100%nat
    = Some [Store Sample.buf
                  (Load Int32 Sample.A (Sample.c 0) Sample.true_)
                  (add_ (mul_ (Sample.c 0) Sample.stride16) (Sample.c 0))
                  Sample.true_].
Proof.
  eexists.
  epose proof (MakeProducer_rewrite
                 0 Sample.in_body8 Sample.buf (Sample.c 1) Sample.producer _
                 (mkStorageEntry (Some Sample.stride16) None Sample.v0 None
                                 "shared")
                 Sample.L8 _) as H.
  edestruct H as (Hrun & _); clear H.
  - reflexivity.
  - reflexivity.
  - reflexivity.
  - vm_compute. reflexivity.
  - split.
    + etransitivity; [exact Hrun|]. vm_compute. reflexivity.
    + vm_compute. reflexivity.
Defined.

(** ** C3: rewritten accesses *)

(** C3 fails as stated.  A store to a tracked buffer that lies in
    the double-buffer scope of another buffer is rewritten with the
    write-phase variable of its own entry, which the rewrite of the
    enclosing annotation does not substitute: in the tree the pass returns
    for [Case.foreign_store], the store to [buf2] in the producer of [buf]
    has the phase selector [i.db], a variable that nothing binds and that
    takes any value. *)
Lemma foreign_scope_store_keeps_write_variable :
  let w2 := mkVar 12 "i.db" Int32 in
  exists out,
    InjectDoubleBuffer (fun s => s) Sample.heap Case.foreign_store 0 = Ok out
    /\ In (add_ (mul_ (Variable_ w2) Sample.stride16) (Sample.c 1))
          (store_indices (get Case.buf2) out)
    /\ binds (var_id w2) out = false
    /\ eval (fun x => if Nat.eqb x (var_id w2) then 5 else 0) (Variable_ w2)
       = Some 5.
Proof.
  eexists. split; [vm_compute; reflexivity|].
  split; [vm_compute; tauto|]. split; vm_compute; reflexivity.
Qed.

(** C3 (amended).  For a tracked buffer, in members that satisfy the phase
    invariant: a store is rewritten to the index
    [write_phase_var * stride + index], and aborts the pass outside a
    double-buffer scope or with an unresolved stride; a load is rewritten to
    the index [(i mod 2) * stride + index], where [i] is the variable of the
    buffer's loop, and aborts the pass with an unresolved stride or read
    phase.  Here [index] is the image of the original index under the
    traversal, which is the original index itself when it mentions no
    tracked buffer.  The read phase of the rewritten load has the value
    [i mod 2], which is 0 or 1.  The write phase is settled by the
    annotation of the buffer itself: in what the rewrite of an annotation of
    the buffer returns, whose body holds no further annotation of the
    buffer, every store to the buffer has the phase selector [(i+1) mod 2],
    and in what it appends to the prologue every store to the buffer has the
    phase selector [0]; both are 0 or 1.  The rewritten indices have the
    value [phase * stride + index]. *)
Theorem access_rewrite
        (split_loop : Z) (st : Injector) (bv : Var) (e : StorageEntry) :
  dbuffer_info_ st !! get bv = Some e ->
  phases_ok st ->
  (forall value index predicate value' index' predicate' sd,
      VisitExpr value st = Ok (value', st) ->
      VisitExpr index st = Ok (index', st) ->
      VisitExpr predicate st = Ok (predicate', st) ->
      in_double_buffer_scope_ st = true ->
      stride e = Some sd ->
      VisitStmt split_loop (Store bv value index predicate) st
      = Ok (Store bv value'
                  (add_ (mul_ (Variable_ (switch_write_var e)) sd) index')
                  predicate',
            st))
  /\ (forall value index predicate,
         in_double_buffer_scope_ st = false \/ stride e = None ->
         exists msg,
           VisitStmt split_loop (Store bv value index predicate) st = Fatal msg)
  /\ (forall t index predicate index' predicate' sd rd,
         VisitExpr index st = Ok (index', st) ->
         VisitExpr predicate st = Ok (predicate', st) ->
         stride e = Some sd ->
         switch_read_var e = Some rd ->
         exists L,
           loop e = Some L /\
           rd = read_phase (for_loop_var L) /\
           VisitExpr (Load t bv index predicate) st
           = Ok (Load t bv
                      (add_ (mul_ (read_phase (for_loop_var L)) sd) index')
                      predicate',
                 st) /\
           forall env : Env,
             eval env (read_phase (for_loop_var L))
             = Some (env (var_id (for_loop_var L)) mod 2)
             /\ 0 <= env (var_id (for_loop_var L)) mod 2 <= 1)
  /\ (forall t index predicate,
         stride e = None \/ switch_read_var e = None ->
         exists msg, VisitExpr (Load t bv index predicate) st = Fatal msg)
  /\ (forall index,
         mentions_tracked (dbuffer_info_ st) index = false ->
         VisitExpr index st = Ok (index, st))
  /\ (forall value body r st' L,
         back (loop_nest_ st) = Some L ->
         annotates (get bv) body = false ->
         binds (heap_ st) body = false ->
         fresh_heap st ->
         unvisited body st ->
         VisitStmt split_loop
                   (AttrStmt (NodeVar bv) attr.double_buffer_scope value body)
                   st = Ok (r, st') ->
         let i := for_loop_var L in
         stores_select (get bv) (write_phase i) r
         /\ (exists pre pro,
                loop_pre_ st' !! for_addr L = Some (pre ++ [pro])
                /\ stores_select (get bv) (make_const (var_dtype i) 0) pro)
         /\ forall env : Env,
             eval env (write_phase i) = Some ((env (var_id i) + 1) mod 2)
             /\ 0 <= (env (var_id i) + 1) mod 2 <= 1
             /\ eval env (make_const (var_dtype i) 0) = Some 0)
  /\ (forall (env : Env) (p sd idx : Expr) (vp s x : Z),
         eval env p = Some vp ->
         eval env sd = Some s ->
         eval env idx = Some x ->
         eval env (add_ (mul_ p sd) idx) = Some (vp * s + x)).
Proof.
  intros Htracked Hphases.
  split; [|split; [|split; [|split; [|split; [|split]]]]].
  - intros value index predicate value' index' predicate' sd
           Hv Hi Hp Hscope Hsd.
    cbn [VisitStmt]. unfold bind. rewrite Hv, Hi, Hp.
    unfold VisitStmt_Store, bind, this, CHECK.
    rewrite Htracked, Hscope, Hsd. reflexivity.
  - intros value index predicate Hbad. cbn [VisitStmt]. unfold bind.
    destruct (VisitExpr_cases value st) as [[m ->]|[v' ->]]; [eauto|].
    destruct (VisitExpr_cases index st) as [[m ->]|[i' ->]]; [eauto|].
    destruct (VisitExpr_cases predicate st) as [[m ->]|[p' ->]]; [eauto|].
    unfold VisitStmt_Store, bind, this, CHECK. rewrite Htracked.
    destruct (in_double_buffer_scope_ st); [|eauto].
    destruct Hbad as [Hbad|Hbad]; [discriminate Hbad|].
    rewrite Hbad. eauto.
  - intros t index predicate index' predicate' sd rd Hi Hp Hsd Hrd.
    destruct (Hphases _ _ _ Htracked Hrd) as (L & HL & ->).
    exists L. split; [exact HL|]. split; [reflexivity|]. split.
    + cbn [VisitExpr]. unfold bind. rewrite Hi, Hp.
      unfold VisitExpr_Load, bind, this. rewrite Htracked, Hsd, Hrd.
      reflexivity.
    + intros env. split; [reflexivity | apply mod2_range].
  - intros t index predicate Hbad. cbn [VisitExpr]. unfold bind.
    destruct (VisitExpr_cases index st) as [[m ->]|[i' ->]]; [eauto|].
    destruct (VisitExpr_cases predicate st) as [[m ->]|[p' ->]]; [eauto|].
    unfold VisitExpr_Load, bind, this. rewrite Htracked.
    destruct (stride e) as [sd|]; [|eauto].
    destruct Hbad as [Hbad|Hbad]; [discriminate Hbad|].
    rewrite Hbad. eauto.
  - intros index Hm. apply VisitExpr_untouched, Hm.
  - intros value body r st' L Hback Hfree Hbound Hheap Hnew Hrun i.
    destruct (annotation_stores _ _ _ _ _ _ _ _ _ Htracked Hback Hfree Hbound
                                Hheap Hnew Hrun) as [Hsteady Hpro].
    split; [exact Hsteady|]. split; [exact Hpro|].
    intros env. split; [reflexivity|]. split; [apply mod2_range | reflexivity].
  - intros env p sd idx vp s x Hp Hs Hx. cbn [add_ mul_ eval].
    rewrite Hp, Hs, Hx. reflexivity.
Qed.

Lemma access_rewrite_witness :
  VisitStmt 0 Sample.producer Sample.in_scope8
  = Ok (Store Sample.buf
              (Load Int32 Sample.A (Variable_ Sample.i) Sample.true_)
              (add_ (mul_ (Variable_ Sample.w) Sample.stride16) (Sample.c 0))
              Sample.true_,
        Sample.in_scope8) /\
  VisitExpr (Load Int32 Sample.buf (Sample.c 0) Sample.true_) Sample.in_scope8
  = Ok (Load Int32 Sample.buf
             (add_ (mul_ (read_phase Sample.i) Sample.stride16) (Sample.c 0))
             Sample.true_,
        Sample.in_scope8) /\
  exists r st',
    VisitStmt 0 Sample.scoped Sample.in_body8 = Ok (r, st') /\
    store_indices (get Sample.buf) r
    = [add_ (mul_ (write_phase Sample.i) Sample.stride16) (Sample.c 0)] /\
    stores_select (get Sample.buf) (write_phase Sample.i) r.
Proof.
  assert (Htracked :
           dbuffer_info_ Sample.in_scope8 !! get Sample.buf = Some Sample.entry)
    by reflexivity.
  assert (Hphases : phases_ok Sample.in_scope8).
  { intros b e rd He Hrd. cbn [Sample.in_scope8 dbuffer_info_] in He.
    apply lookup_singleton_Some in He as [_ <-].
    cbn [Sample.entry switch_read_var] in Hrd. inversion Hrd; subst.
    exists Sample.L8. split; reflexivity. }
  destruct (access_rewrite 0 Sample.in_scope8 Sample.buf Sample.entry
                           Htracked Hphases)
    as (Hstore & _ & Hload & _).
  split; [|split].
  - apply Hstore; reflexivity.
  - destruct (Hload Int32 (Sample.c 0) Sample.true_ (Sample.c 0) Sample.true_
                    Sample.stride16 (read_phase Sample.i)
                    eq_refl eq_refl eq_refl eq_refl)
      as (L & HL & _ & Heq & _).
    cbn [Sample.entry loop] in HL. inversion HL; subst. exact Heq.
  - assert (Hbody :
             dbuffer_info_ Sample.in_body8 !! get Sample.buf
             = Some (mkStorageEntry (Some Sample.stride16) None Sample.v0 None
                                    "shared")) by reflexivity.
    assert (Hphases' : phases_ok Sample.in_body8).
    { intros b e rd He Hrd. cbn [Sample.in_body8 dbuffer_info_] in He.
      apply lookup_singleton_Some in He as [_ <-]. discriminate Hrd. }
    assert (Hheap : fresh_heap Sample.in_body8).
    { split.
      - intros L [<-|[]]. vm_compute. lia.
      - intros c e He. cbn [Sample.in_body8 dbuffer_info_] in He.
        apply lookup_singleton_Some in He as [_ <-].
        split; [vm_compute; lia | discriminate]. }
    destruct (access_rewrite 0 Sample.in_body8 Sample.buf _ Hbody Hphases')
      as (_ & _ & _ & _ & _ & Hscope & _).
    eexists _, _. split; [vm_compute; reflexivity|].
    split; [vm_compute; reflexivity|].
    refine (proj1 (Hscope (Sample.c 1) Sample.producer _ _ Sample.L8
                          eq_refl eq_refl eq_refl Hheap _ _)).
    + intros a [].
    + vm_compute. reflexivity.
Defined.

(** ** C4: allocations *)

(** C4.  For the allocation of a tracked buffer with extents [x :: xs]: the
    stride recorded before the body is entered is the product of the
    original extents times the lanes of the element type; the node is
    replaced by its rewritten body; and the table of allocations of the
    buffer's loop receives, in this order, the storage-scope attribute and
    the allocation widened by a leading extent of 2.  The widened extents are
    the images of the original ones under the traversal, the original ones
    themselves when they mention no tracked buffer, so the capacity is twice
    the product of the extents. *)
Theorem Allocate_is_hoisted
        (split_loop : Z) (st : Injector) (bv : Var) (t : DataType)
        (x : Expr) (xs : list Expr) (condition : Expr) (body : Stmt)
        (e : StorageEntry) (x' : Expr) (xs' : list Expr) (body' : Stmt)
        (condition' : Expr) (st2 : Injector) (e2 : StorageEntry) (L : ForPtr) :
  let prod := fold_left mul_ xs x in
  let e_stride := mul_ prod (make_const (dtype prod) (dt_lanes t)) in
  let st1 :=
    set_dbuffer_info (<[get bv := set_stride e_stride e]> (dbuffer_info_ st)) st in
  dbuffer_info_ st !! get bv = Some e ->
  VisitExpr x st1 = Ok (x', st1) ->
  mapM VisitExpr xs st1 = Ok (xs', st1) ->
  VisitStmt split_loop body st1 = Ok (body', st2) ->
  VisitExpr condition st2 = Ok (condition', st2) ->
  dbuffer_info_ st2 !! get bv = Some e2 ->
  loop e2 = Some L ->
  VisitStmt split_loop (Allocate bv t (x :: xs) condition body) st
  = Ok (body',
        set_loop_allocs
          (<[for_addr L :=
               default [] (loop_allocs_ st2 !! for_addr L)
               ++ [AttrStmt (NodeVar bv) attr.storage_scope
                            (StringImm (scope e2)) (Evaluate (IntImm Int32 0));
                   Allocate bv t (make_const (dtype x') 2 :: x' :: xs')
                            condition' (Evaluate (IntImm Int32 0))]]>
             (loop_allocs_ st2))
          st2)
  /\ dbuffer_info_ st1 !! get bv = Some (set_stride e_stride e)
  /\ stride (set_stride e_stride e) = Some e_stride
  /\ (forall env n,
         eval_product env (x :: xs) = Some n ->
         eval env e_stride = Some (n * dt_lanes t))
  /\ (forall env n,
         eval_product env (x' :: xs') = Some n ->
         eval_product env (make_const (dtype x') 2 :: x' :: xs') = Some (2 * n))
  /\ (existsb (mentions_tracked (dbuffer_info_ st1)) (x :: xs) = false ->
      x' :: xs' = x :: xs).
Proof.
  intros prod e_stride st1 Htracked Hx Hxs Hbody Hcond He2 HL.
  split; [|split; [|split; [|split; [|split]]]].
  - cbn [VisitStmt]. unfold VisitStmt_Allocate, bind, this, modify.
    rewrite Htracked. cbn [ComputeReduce_Mul]. fold prod e_stride st1.
    cbn [mapM]. unfold bind, ret. rewrite Hx, Hxs, Hbody, Hcond.
    unfold hoist_Allocate, bind, this, modify, ret. rewrite He2, HL.
    rewrite <- app_assoc. reflexivity.
  - subst st1. cbn [dbuffer_info_ set_dbuffer_info]. apply lookup_insert_eq.
  - reflexivity.
  - intros env n Hn. subst e_stride prod. cbn [eval mul_ make_const].
    rewrite eval_fold_mul, Hn. reflexivity.
  - intros env n Hn. cbn [eval_product] in *. cbn [eval make_const].
    destruct (eval env x') as [a|]; [|discriminate Hn].
    destruct (eval_product env xs') as [b|]; [|discriminate Hn].
    inversion Hn; subst. f_equal.
  - intros Hm. cbn [existsb] in Hm. apply orb_false_iff in Hm as [Hm1 Hm2].
    rewrite (VisitExpr_untouched _ _ Hm1) in Hx.
    rewrite (mapM_VisitExpr_untouched _ _ Hm2) in Hxs.
    inversion Hx; inversion Hxs; subst. reflexivity.
Qed.

Lemma Allocate_is_hoisted_witness :
  exists body' st',
    VisitStmt 0 Sample.allocation Sample.in_alloc8 = Ok (body', st') /\
    loop_allocs_ st' !! 100%nat
    = Some [AttrStmt (NodeVar Sample.buf) attr.storage_scope
                     (StringImm "shared") (Evaluate (Sample.c 0));
            Allocate Sample.buf Int32 [Sample.c 2; Sample.c 16] Sample.true_
                     (Evaluate (Sample.c 0))].
Proof.
  eexists _, _.
  epose proof (Allocate_is_hoisted
                 0 Sample.in_alloc8 Sample.buf Int32 (Sample.c 16) []
                 Sample.true_ (SeqStmt [Sample.scoped; Sample.consumer])
                 (mkStorageEntry None None Sample.v0 None "shared")
                 (Sample.c 16) [] _ Sample.true_ _ _ Sample.L8) as H.
  edestruct H as (Hrun & _); clear H.
  - reflexivity.
  - reflexivity.
  - reflexivity.
  - vm_compute. reflexivity.
  - reflexivity.
  - vm_compute. reflexivity.
  - reflexivity.
  - split; [exact Hrun|]. vm_compute. reflexivity.
Defined.

(** ** C5: the unroll factor *)

(** C5 fails as stated: on a tree without a double-buffered loop the factor
    is never looked at, and the odd factor 3 is accepted. *)
Lemma odd_factor_accepted_without_producer :
  InjectDoubleBuffer (fun s => s) Sample.heap Sample.plain 3 = Ok Sample.plain /\
  ~ (exists msg,
        InjectDoubleBuffer (fun s => s) Sample.heap Sample.plain 3 = Fatal msg).
Proof.
  assert (H : InjectDoubleBuffer (fun s => s) Sample.heap Sample.plain 3
              = Ok Sample.plain) by (vm_compute; reflexivity).
  split; [exact H|]. intros [msg Hmsg]. rewrite H in Hmsg. discriminate Hmsg.
Qed.

(** C5 (amended).  For every input tree in which the detector finds a
    candidate buffer, an unroll factor that is not zero, not one and not
    divisible by two aborts the pass; a tree without a candidate is returned
    as it is, whatever the factor. *)
Theorem rejected_factor_aborts
        (split_loop : Z) (ConvertSSA : Stmt -> Stmt) (heap : nat) (stmt : Stmt) :
  split_loop <> 0 -> Z.rem split_loop 2 <> 0 -> split_loop <> 1 ->
  (DoubleBufferDetector.run stmt <> ∅ ->
   exists msg, InjectDoubleBuffer ConvertSSA heap stmt split_loop = Fatal msg)
  /\ (DoubleBufferDetector.run stmt = ∅ ->
      InjectDoubleBuffer ConvertSSA heap stmt split_loop = Ok stmt).
Proof.
  intros H0 Hodd H1. unfold InjectDoubleBuffer, Inject. split.
  - intros Hne. rewrite decide_False by exact Hne.
    destruct (VisitStmt split_loop stmt (init (DoubleBufferDetector.run stmt) heap))
      as [[r st']|msg] eqn:Hrun; [exfalso | eauto].
    destruct (run_ok_VisitStmt split_loop stmt (conj H0 (conj Hodd H1)) _ _ _ Hrun)
      as [(_ & _ & B & _) P].
    apply set_choose_L in Hne as [b Hb].
    destruct (P b) as [a Ha].
    + apply Detector_candidate_annotated, Hb.
    + apply init_is_Some, Hb.
    + destruct (B a Ha) as [Hpre|Hin].
      * cbn [init loop_pre_] in Hpre. rewrite lookup_empty in Hpre.
        destruct Hpre as [? Hpre]. discriminate Hpre.
      * cbn [init loop_nest_ map] in Hin. destruct Hin.
  - intros He. rewrite decide_True by exact He. reflexivity.
Qed.

Lemma rejected_factor_aborts_witness :
  (exists msg,
      InjectDoubleBuffer (fun s => s) Sample.heap Sample.loop8 3 = Fatal msg) /\
  InjectDoubleBuffer (fun s => s) Sample.heap Sample.plain 3 = Ok Sample.plain.
Proof.
  destruct (rejected_factor_aborts 3 (fun s => s) Sample.heap Sample.loop8)
    as [Hfatal _]; [discriminate | discriminate | discriminate |].
  destruct (rejected_factor_aborts 3 (fun s => s) Sample.heap Sample.plain)
    as [_ Hok]; [discriminate | discriminate | discriminate |].
  split.
  - apply Hfatal. apply (proj1 (bool_decide_eq_false _)). vm_compute. reflexivity.
  - apply Hok. apply (proj1 (bool_decide_eq_true _)). vm_compute. reflexivity.
Defined.

(** ** C6: no annotation, no change *)

(** C6.  A tree that contains no double-buffer scope annotation is returned
    by the pass as it is, whatever the unroll factor. *)
Theorem Inject_without_annotation
        (split_loop : Z) (ConvertSSA : Stmt -> Stmt) (heap : nat) (stmt : Stmt) :
  has_attr attr.double_buffer_scope stmt = false ->
  InjectDoubleBuffer ConvertSSA heap stmt split_loop = Ok stmt.
Proof.
  intros H. unfold InjectDoubleBuffer, Inject.
  rewrite (Detector_no_annotation _ H). reflexivity.
Qed.

Lemma Inject_without_annotation_witness :
  has_attr attr.double_buffer_scope Sample.plain = false /\
  InjectDoubleBuffer (fun s => s) Sample.heap Sample.plain 3 = Ok Sample.plain.
Proof.
  split; [reflexivity|].
  apply (Inject_without_annotation 3 (fun s => s) Sample.heap Sample.plain).
  reflexivity.
Defined.

(** ** C7: the write-strip rewriter *)

(** C7.  The write-strip rewriter replaces every prefetch-write marker by the
    rewriting of its body, rebuilds every other node with the same fields
    around its rewritten children, and leaves no marker in its result, nor
    in a tail conditional built from it. *)
Theorem Strip_removes_every_marker (s : Stmt) :
  has_attr attr.double_buffer_write (StripDoubleBufferWrite.VisitStmt s) = false
  /\ (forall n k v b,
         StripDoubleBufferWrite.VisitStmt (AttrStmt n k v b)
         = if String.eqb k attr.double_buffer_write
           then StripDoubleBufferWrite.VisitStmt b
           else AttrStmt n k v (StripDoubleBufferWrite.VisitStmt b))
  /\ (forall v e b,
         StripDoubleBufferWrite.VisitStmt (LetStmt v e b)
         = LetStmt v e (StripDoubleBufferWrite.VisitStmt b))
  /\ (forall c m b,
         StripDoubleBufferWrite.VisitStmt (AssertStmt c m b)
         = AssertStmt c m (StripDoubleBufferWrite.VisitStmt b))
  /\ (forall bv v i p,
         StripDoubleBufferWrite.VisitStmt (Store bv v i p) = Store bv v i p)
  /\ (forall bv t ex c b,
         StripDoubleBufferWrite.VisitStmt (Allocate bv t ex c b)
         = Allocate bv t ex c (StripDoubleBufferWrite.VisitStmt b))
  /\ (forall bv, StripDoubleBufferWrite.VisitStmt (Free bv) = Free bv)
  /\ (forall a lv mn ex ft da b,
         StripDoubleBufferWrite.VisitStmt (For a lv mn ex ft da b)
         = For a lv mn ex ft da (StripDoubleBufferWrite.VisitStmt b))
  /\ (forall c t e,
         StripDoubleBufferWrite.VisitStmt (IfThenElse c t e)
         = IfThenElse c (StripDoubleBufferWrite.VisitStmt t)
                      (option_map StripDoubleBufferWrite.VisitStmt e))
  /\ (forall l,
         StripDoubleBufferWrite.VisitStmt (SeqStmt l)
         = SeqStmt (map StripDoubleBufferWrite.VisitStmt l))
  /\ (forall e, StripDoubleBufferWrite.VisitStmt (Evaluate e) = Evaluate e)
  /\ (forall vmap c,
         has_attr attr.double_buffer_write
                  (IfThenElse c
                     (Substitute vmap (StripDoubleBufferWrite.VisitStmt s))
                     None) = false).
Proof.
  split; [apply Strip_no_marker|].
  repeat split; try reflexivity.
  intros vmap c. cbn [has_attr].
  rewrite Substitute_has_attr, Strip_no_marker. reflexivity.
Qed.

(** ** C8: an annotation whose buffer is not a candidate *)

(** C8 fails as stated: the annotation of [stale] names a buffer that is
    absent from the candidate set, yet the pass aborts on it, because the
    annotation lies outside every loop. *)
Lemma untracked_scope_outside_loop_aborts :
  (get Sample.stale ∉ DoubleBufferDetector.run Sample.stale_then_loop) /\
  InjectDoubleBuffer (fun s => s) Sample.heap Sample.stale_then_loop 0
  = Fatal "Double buffer scope must be inside a loop".
Proof.
  split.
  - apply (proj1 (bool_decide_eq_false _)). vm_compute. reflexivity.
  - vm_compute. reflexivity.
Qed.

(** C8 (amended).  Inside at least one loop, a double-buffer scope annotation
    whose buffer is not a candidate raises no error of its own: a warning is
    logged, the annotation is dropped, and the outcome is that of the
    ordinary traversal of its body; no producer rewrite takes place. *)
Theorem untracked_scope_is_skipped
        (split_loop : Z) (st : Injector) (buffer : Var) (value : Expr)
        (body : Stmt) :
  loop_nest_ st <> [] ->
  dbuffer_info_ st !! get buffer = None ->
  VisitStmt split_loop
            (AttrStmt (NodeVar buffer) attr.double_buffer_scope value body) st
  = VisitStmt split_loop body (set_log (log_ st ++ [NodeVar buffer]) st).
Proof.
  intros Hnest Hinfo. cbn [VisitStmt]. unfold VisitStmt_AttrStmt.
  replace (String.eqb attr.double_buffer_scope attr.storage_scope)
    with false by reflexivity.
  rewrite String.eqb_refl. unfold MakeProducer, bind, this, CHECK, modify.
  destruct (loop_nest_ st) as [|L nest] eqn:E; [congruence|].
  cbn [length Nat.eqb negb]. rewrite Hinfo. reflexivity.
Qed.

Lemma untracked_scope_is_skipped_witness :
  loop_nest_ Sample.in_loop8 <> [] /\
  dbuffer_info_ Sample.in_loop8 !! get Sample.stale = None /\
  VisitStmt 0 (AttrStmt (NodeVar Sample.stale) attr.double_buffer_scope
                        (Sample.c 1) (Evaluate (Variable_ Sample.stale)))
            Sample.in_loop8
  = Ok (Evaluate (Variable_ Sample.stale),
        set_log [NodeVar Sample.stale] Sample.in_loop8).
Proof.
  assert (H1 : loop_nest_ Sample.in_loop8 <> []) by discriminate.
  assert (H2 : dbuffer_info_ Sample.in_loop8 !! get Sample.stale = None)
    by reflexivity.
  split; [exact H1|split; [exact H2|]].
  rewrite (untracked_scope_is_skipped
             0 Sample.in_loop8 Sample.stale (Sample.c 1)
             (Evaluate (Variable_ Sample.stale)) H1 H2).
  reflexivity.
Defined.

(** ** C9: an annotation outside every loop *)

(** C9.  A double-buffer scope annotation met with an empty loop stack aborts
    the pass, whether or not its buffer is a candidate. *)
Theorem scope_outside_loop_is_fatal
        (split_loop : Z) (st : Injector) (node : NodeRef) (value : Expr)
        (body : Stmt) :
  loop_nest_ st = [] ->
  exists msg,
    VisitStmt split_loop (AttrStmt node attr.double_buffer_scope value body) st
    = Fatal msg.
Proof.
  intros Hnest. cbn [VisitStmt]. unfold VisitStmt_AttrStmt.
  replace (String.eqb attr.double_buffer_scope attr.storage_scope)
    with false by reflexivity.
  rewrite String.eqb_refl. unfold MakeProducer.
  destruct node as [buffer|key]; [|eexists; reflexivity].
  unfold bind, this, CHECK. rewrite Hnest. cbn. eexists; reflexivity.
Qed.

Lemma scope_outside_loop_is_fatal_witness :
  loop_nest_ (init {[get Sample.buf]} Sample.heap) = [] /\
  exists msg,
    VisitStmt 0 Sample.scoped (init {[get Sample.buf]} Sample.heap) = Fatal msg.
Proof.
  split; [reflexivity|].
  apply (scope_outside_loop_is_fatal
           0 (init {[get Sample.buf]} Sample.heap) (NodeVar Sample.buf)
           (Sample.c 1) Sample.producer).
  reflexivity.
Defined.

(** ** C10: the detector depends on the order of the visit *)

(** C10 fails as stated.  In [Case.reference_then_loop] the
    detector visits a bare reference to [buf] before the annotation of
    [buf]: the reference removes nothing and [buf] is a candidate.  The
    buffer is not double-buffered, though: the injector aborts at the
    reference, whereas it rewrites the loop that follows it when the loop
    stands alone. *)
Lemma early_reference_aborts_injector :
  events (get Sample.buf) Case.reference_then_loop = [Referenced; Annotated]
  /\ get Sample.buf ∈ DoubleBufferDetector.run Case.reference_then_loop
  /\ InjectDoubleBuffer (fun s => s) Sample.heap Case.reference_then_loop 0
     = Fatal "CHECK(!dbuffer_info_.count(op))"
  /\ exists out,
      InjectDoubleBuffer (fun s => s) Sample.heap Sample.loop8 0 = Ok out.
Proof.
  split; [reflexivity|]. split; [|split].
  - apply (proj1 (bool_decide_eq_true _)). vm_compute. reflexivity.
  - vm_compute. reflexivity.
  - eexists. vm_compute. reflexivity.
Qed.

(** C10 (amended).  The candidate-removal rule of the detector depends on
    the order of the visit.  For every input tree and every buffer, the last
    event of the buffer in the order of the visit decides: the buffer is a
    candidate after the walk exactly if that event is an annotation (when
    the tree holds no event of the buffer, exactly if it was a candidate
    before).  Hence a bare reference that the detector visits before the
    first annotation of the buffer removes nothing, and removal happens only
    for references that follow an annotation: a buffer whose references all
    precede its annotations is a candidate and receives a storage entry,
    a buffer whose last event is a reference is no candidate.  A buffer that
    is referred to before its annotation is not double-buffered, however:
    the pass aborts if the injector visits the reference, which it does
    unless the reference lies in the value of a storage-scope or
    double-buffer scope attribute. *)
Theorem Detector_order_sensitive (s : Stmt) (b : VarPtr) :
  (forall T, b ∈ DoubleBufferDetector.VisitStmt s T
             <-> outcome (events b s) (b ∈ T))
  /\ (forall n m heap,
         events b s = repeat Referenced n ++ repeat Annotated (S m) ->
         b ∈ DoubleBufferDetector.run s
         /\ is_Some (dbuffer_info_ (init (DoubleBufferDetector.run s) heap)
                     !! b)
         /\ (visited_refers b s = true ->
             forall split_loop ConvertSSA,
             exists msg,
               InjectDoubleBuffer ConvertSSA heap s split_loop = Fatal msg))
  /\ (forall evs,
         events b s = evs ++ [Referenced] -> b ∉ DoubleBufferDetector.run s).
Proof.
  pose proof (follows_VisitStmt b s) as Hwalk.
  split; [exact Hwalk|]. split.
  - intros n m heap Hev.
    assert (Hin : b ∈ DoubleBufferDetector.run s).
    { apply Hwalk. rewrite Hev. cbn [repeat]. rewrite repeat_cons, app_assoc.
      unfold outcome. rewrite last_snoc. reflexivity. }
    split; [exact Hin|]. split; [apply init_is_Some, Hin|].
    intros Hr split_loop ConvertSSA.
    apply (Inject_sure_abort _ _ _ _ b Hin).
    apply (visited_refers_sure_abort _ b); assumption.
  - intros evs Hev Hin. apply Hwalk in Hin. rewrite Hev in Hin.
    unfold outcome in Hin. rewrite last_snoc in Hin. discriminate Hin.
Qed.

Lemma Detector_order_sensitive_witness :
  get Sample.buf ∈ DoubleBufferDetector.run Case.reference_then_loop /\
  exists msg,
    InjectDoubleBuffer (fun s => s) Sample.heap Case.reference_then_loop 0
    = Fatal msg.
Proof.
  destruct (Detector_order_sensitive Case.reference_then_loop (get Sample.buf))
    as (_ & Hbefore & _).
  destruct (Hbefore 1%nat 0%nat Sample.heap eq_refl) as (Hin & _ & Habort).
  split; [exact Hin|]. apply (Habort eq_refl 0 (fun s => s)).
Defined.


(** * Further properties of the pass *)

(** ** What the detector keeps as a candidate *)

(** X1.  The detector never invents a candidate: a buffer that is in the
    set after the walk of a tree was in the set before it, or is named by a
    double-buffer scope annotation of the tree. *)
Theorem Detector_candidates_come_from_annotations
        (s : Stmt) (T : gset VarPtr) (b : VarPtr) :
  b ∈ DoubleBufferDetector.VisitStmt s T -> b ∈ T \/ annotates b s = true.
Proof.
  intros Hb. destruct (annotates b s) eqn:Ha; [right; reflexivity|].
  left. destruct (decide (b ∈ T)) as [Hin|Hout]; [exact Hin|].
  exfalso. revert Hb. apply Detector_VisitStmt_not_inserted; assumption.
Qed.

Lemma Detector_candidates_come_from_annotations_witness :
  get Sample.buf ∈ DoubleBufferDetector.VisitStmt Sample.loop8 ∅ /\
  (get Sample.buf ∈ (∅ : gset VarPtr) \/
   annotates (get Sample.buf) Sample.loop8 = true).
Proof.
  assert (H : get Sample.buf ∈ DoubleBufferDetector.VisitStmt Sample.loop8 ∅).
  { apply (proj1 (bool_decide_eq_true _)). vm_compute. reflexivity. }
  split; [exact H|].
  apply (Detector_candidates_come_from_annotations Sample.loop8 ∅ _ H).
Defined.

(** X2.  A buffer that a double-buffer scope annotation names and that the
    tree never refers to as a bare variable is a candidate, and the
    injector starts with a fresh storage entry for it, whose write-phase
    variable is on a node of its own. *)
Theorem Detector_unreferenced_annotation_is_candidate
        (s : Stmt) (b : VarPtr) (heap : nat) :
  annotates b s = true ->
  refers b s = false ->
  b ∈ DoubleBufferDetector.run s /\
  exists a,
    dbuffer_info_ (init (DoubleBufferDetector.run s) heap) !! b
    = Some (StorageEntry_init a)
    /\ (heap <= a < heap_ (init (DoubleBufferDetector.run s) heap))%nat.
Proof.
  intros Ha Hr.
  assert (Hin : b ∈ DoubleBufferDetector.run s)
    by (apply Detector_VisitStmt_annotated; assumption).
  split; [exact Hin|].
  destruct (proj2 (init_is_Some _ heap _) Hin) as [e He].
  destruct (init_lookup _ _ _ _ He) as [_ (a & -> & Hrange)].
  exists a. split; [exact He | exact Hrange].
Qed.

Lemma Detector_unreferenced_annotation_is_candidate_witness :
  annotates (get Sample.buf) Sample.loop8 = true /\
  refers (get Sample.buf) Sample.loop8 = false /\
  get Sample.buf ∈ DoubleBufferDetector.run Sample.loop8.
Proof.
  split; [reflexivity|]. split; [reflexivity|].
  apply (Detector_unreferenced_annotation_is_candidate
           Sample.loop8 (get Sample.buf) Sample.heap eq_refl eq_refl).
Defined.

(** X3.  A bare reference that no annotation of the same buffer accompanies
    removes the buffer: after the walk of a tree that refers to the buffer
    and does not annotate it, the buffer is not in the set, whatever the
    set was before. *)
Theorem Detector_reference_removes_candidate
        (s : Stmt) (T : gset VarPtr) (b : VarPtr) :
  annotates b s = false ->
  refers b s = true ->
  b ∉ DoubleBufferDetector.VisitStmt s T.
Proof.
  intros Ha Hr Hin.
  destruct (decides_VisitStmt b s) as (_ & Hc & _).
  destruct (Hc T Hin) as [H0|[_ H1]]; [|congruence].
  apply Detector_candidate_annotated in H0. congruence.
Qed.

Lemma Detector_reference_removes_candidate_witness :
  get Sample.buf ∉
    DoubleBufferDetector.VisitStmt (Evaluate (Variable_ Sample.buf))
                                   {[get Sample.buf]}.
Proof.
  apply (Detector_reference_removes_candidate
           (Evaluate (Variable_ Sample.buf)) {[get Sample.buf]}
           (get Sample.buf)); reflexivity.
Defined.

(** X4.  The detector decides each buffer on its own: a buffer is in the
    set after the walk of a tree exactly if the walk of that tree from the
    empty set yields it, or if it was in the set before and the tree does
    not refer to it as a bare variable. *)
Theorem Detector_decides_each_buffer (s : Stmt) (T : gset VarPtr) (b : VarPtr) :
  b ∈ DoubleBufferDetector.VisitStmt s T <->
  b ∈ DoubleBufferDetector.run s \/ (b ∈ T /\ refers b s = false).
Proof.
  destruct (decides_VisitStmt b s) as (Hm & Hc & Hk). split.
  - apply Hc.
  - intros [H0|[HT Hr]].
    + revert H0. apply Hm. set_solver.
    + apply Hk; assumption.
Qed.

(** ** The write-strip rewriter, continued *)

(** X5.  Stripping is idempotent: a stripped tree is left as it is by a
    second pass of the rewriter. *)
Theorem Strip_idempotent (s : Stmt) :
  StripDoubleBufferWrite.VisitStmt (StripDoubleBufferWrite.VisitStmt s)
  = StripDoubleBufferWrite.VisitStmt s.
Proof. apply Strip_unmarked, Strip_no_marker. Qed.

(** X6.  Stripping commutes with substitution: the tail copies of an
    unrolled loop, which substitute into the stripped body, are the stripped
    substituted bodies. *)
Theorem Strip_commutes_with_Substitute (vmap : gmap nat Expr) (s : Stmt) :
  StripDoubleBufferWrite.VisitStmt (Substitute vmap s)
  = Substitute vmap (StripDoubleBufferWrite.VisitStmt s).
Proof.
  stmt_induction s; cbn [StripDoubleBufferWrite.VisitStmt Substitute];
    try solve [f_equal; auto].
  - destruct (String.eqb k attr.double_buffer_write); [exact IHb|].
    cbn [Substitute]. f_equal. exact IHb.
  - rewrite IHt, IHe. reflexivity.
  - f_equal. induction IHl as [|y r Hy Hr IH]; [reflexivity|].
    cbn [map]. rewrite Hy, IH. reflexivity.
Qed.

Lemma Strip_has_attr key s :
  String.eqb key attr.double_buffer_write = false ->
  has_attr key (StripDoubleBufferWrite.VisitStmt s) = has_attr key s.
Proof.
  intros Hk.
  stmt_induction s; cbn [StripDoubleBufferWrite.VisitStmt has_attr]; auto.
  - destruct (String.eqb k attr.double_buffer_write) eqn:Ek.
    + apply String.eqb_eq in Ek. subst k. rewrite String.eqb_sym, Hk.
      exact IHb.
    + cbn [has_attr]. rewrite IHb. reflexivity.
  - rewrite IHt, IHe. reflexivity.
  - rewrite IHt. reflexivity.
  - induction IHl as [|y r Hy Hr IH]; [reflexivity|].
    cbn [map existsb]. rewrite Hy, IH. reflexivity.
Qed.

(** X7.  Stripping removes nothing but the prefetch-write markers: an
    attribute with any other key is in the stripped tree exactly if it is
    in the tree. *)
Theorem Strip_keeps_other_attributes (key : string) (s : Stmt) :
  key <> attr.double_buffer_write ->
  has_attr key (StripDoubleBufferWrite.VisitStmt s) = has_attr key s.
Proof. intros Hk. apply Strip_has_attr, String.eqb_neq, Hk. Qed.

Lemma Strip_keeps_other_attributes_witness :
  has_attr attr.storage_scope
           (StripDoubleBufferWrite.VisitStmt
              (AttrStmt (NodeVar Sample.buf) attr.double_buffer_write
                        (Sample.c 1) Sample.loop8))
  = true.
Proof.
  rewrite (Strip_keeps_other_attributes attr.storage_scope); [reflexivity|].
  discriminate.
Defined.

(** ** Invariants of the traversal *)

(** X8.  The brackets of the traversal are balanced: a successful visit of
    any tree leaves the loop stack as it found it, and does not leave the
    scope flag raised unless it found it raised. *)
Theorem VisitStmt_balances_brackets
        (split_loop : Z) (s : Stmt) (st : Injector) (r : Stmt) (st' : Injector) :
  VisitStmt split_loop s st = Ok (r, st') ->
  loop_nest_ st' = loop_nest_ st /\
  (in_double_buffer_scope_ st = false -> in_double_buffer_scope_ st' = false).
Proof.
  intros H. split.
  - apply (VisitStmt_same_stack split_loop s _ _ _ H).
  - intros Hf. destruct (in_double_buffer_scope_ st') eqn:F; [|reflexivity].
    rewrite (VisitStmt_flag_not_raised split_loop s _ _ _ H F) in Hf.
    discriminate Hf.
Qed.

Lemma VisitStmt_balances_brackets_witness :
  exists r st',
    VisitStmt 0 Sample.loop8 (init {[get Sample.buf]} Sample.heap) = Ok (r, st')
    /\ loop_nest_ st' = []
    /\ in_double_buffer_scope_ st' = false.
Proof.
  destruct (VisitStmt 0 Sample.loop8 (init {[get Sample.buf]} Sample.heap))
    as [[r st']|msg] eqn:E; [|vm_compute in E; discriminate E].
  exists r, st'. split; [reflexivity|].
  destruct (VisitStmt_balances_brackets 0 _ _ _ _ E) as [Hl Hf].
  split; [exact Hl | apply Hf; reflexivity].
Defined.

(** X9.  The traversal neither adds nor drops a storage entry: the buffers
    that are tracked after a successful visit are those that were tracked
    before it. *)
Theorem VisitStmt_keeps_tracked_buffers
        (split_loop : Z) (s : Stmt) (st : Injector) (r : Stmt) (st' : Injector)
        (b : VarPtr) :
  VisitStmt split_loop s st = Ok (r, st') ->
  (is_Some (dbuffer_info_ st' !! b) <-> is_Some (dbuffer_info_ st !! b)).
Proof. intros H. apply (VisitStmt_same_tracked split_loop s _ _ _ H). Qed.

Lemma VisitStmt_keeps_tracked_buffers_witness :
  exists r st',
    VisitStmt 0 Sample.loop8 (init {[get Sample.buf]} Sample.heap) = Ok (r, st')
    /\ is_Some (dbuffer_info_ st' !! get Sample.buf)
    /\ ~ is_Some (dbuffer_info_ st' !! get Sample.A).
Proof.
  destruct (VisitStmt 0 Sample.loop8 (init {[get Sample.buf]} Sample.heap))
    as [[r st']|msg] eqn:E; [|vm_compute in E; discriminate E].
  exists r, st'. split; [reflexivity|]. split.
  - apply (VisitStmt_keeps_tracked_buffers 0 _ _ _ _ (get Sample.buf) E).
    vm_compute. eauto.
  - intros H.
    apply (VisitStmt_keeps_tracked_buffers 0 _ _ _ _ (get Sample.A) E) in H.
    vm_compute in H. destruct H as [e He]. discriminate He.
Defined.

(** X10.  The tables of the injector only grow at their ends: after a
    successful visit, the prologue list and the hoisted allocations of every
    loop, and the list of warnings, are the ones from before with statements
    appended, and no variable address is handed out a second time. *)
Theorem VisitStmt_only_appends
        (split_loop : Z) (s : Stmt) (st : Injector) (r : Stmt) (st' : Injector) :
  VisitStmt split_loop s st = Ok (r, st') ->
  (forall a l, loop_pre_ st !! a = Some l ->
               exists more, loop_pre_ st' !! a = Some (l ++ more))
  /\ (forall a l, loop_allocs_ st !! a = Some l ->
                  exists more, loop_allocs_ st' !! a = Some (l ++ more))
  /\ (exists more, log_ st' = log_ st ++ more)
  /\ (heap_ st <= heap_ st')%nat.
Proof. intros H. apply (VisitStmt_only_grows split_loop s _ _ _ H). Qed.

Lemma VisitStmt_only_appends_witness :
  exists r st',
    VisitStmt 0 Sample.loop8 (init {[get Sample.buf]} Sample.heap) = Ok (r, st')
    /\ (heap_ (init {[get Sample.buf]} Sample.heap) <= heap_ st')%nat.
Proof.
  destruct (VisitStmt 0 Sample.loop8 (init {[get Sample.buf]} Sample.heap))
    as [[r st']|msg] eqn:E; [|vm_compute in E; discriminate E].
  exists r, st'. split; [reflexivity|].
  apply (VisitStmt_only_appends 0 _ _ _ _ E).
Defined.

(** ** Inputs that abort the pass *)

(** X11.  A candidate buffer must not occur as a bare variable: if a buffer
    that the detector reports is referred to as a bare variable anywhere the
    injector visits (that is, outside the value of a storage-scope or
    double-buffer scope attribute), the pass aborts.  Such a tree exists:
    the detector keeps a buffer that is referred to before its annotation. *)
Theorem bare_reference_to_candidate_aborts
        (split_loop : Z) (ConvertSSA : Stmt -> Stmt) (heap : nat)
        (stmt : Stmt) (b : VarPtr) :
  b ∈ DoubleBufferDetector.run stmt ->
  visited_refers b stmt = true ->
  exists msg, InjectDoubleBuffer ConvertSSA heap stmt split_loop = Fatal msg.
Proof.
  intros Hb Hr. apply (Inject_sure_abort _ _ _ _ b Hb).
  apply (visited_refers_sure_abort _ b); assumption.
Qed.

Lemma bare_reference_to_candidate_aborts_witness :
  exists msg,
    InjectDoubleBuffer (fun s => s) Sample.heap Case.reference_then_loop 0
    = Fatal msg.
Proof.
  apply (bare_reference_to_candidate_aborts
           0 (fun s => s) Sample.heap Case.reference_then_loop
           (get Sample.buf)).
  - apply (proj1 (bool_decide_eq_true _)). vm_compute. reflexivity.
  - reflexivity.
Defined.

(** X12.  A store to a candidate buffer must lie below a double-buffer scope
    annotation: if the tree holds a store to a buffer that the detector
    reports and no annotation encloses that store, the pass aborts. *)
Theorem store_outside_scope_aborts
        (split_loop : Z) (ConvertSSA : Stmt -> Stmt) (heap : nat)
        (stmt : Stmt) (b : VarPtr) :
  b ∈ DoubleBufferDetector.run stmt ->
  stores_unscoped b stmt = true ->
  exists msg, InjectDoubleBuffer ConvertSSA heap stmt split_loop = Fatal msg.
Proof.
  intros Hb Hr. apply (Inject_sure_abort _ _ _ _ b Hb).
  apply (stores_unscoped_sure_abort _ b); assumption.
Qed.

Lemma store_outside_scope_aborts_witness :
  exists msg,
    InjectDoubleBuffer (fun s => s) Sample.heap Case.early_store 0 = Fatal msg.
Proof.
  apply (store_outside_scope_aborts
           0 (fun s => s) Sample.heap Case.early_store (get Sample.buf)).
  - apply (proj1 (bool_decide_eq_true _)). vm_compute. reflexivity.
  - reflexivity.
Defined.

(** X13.  Every double-buffer scope annotation must lie inside a loop: if
    the detector reports some candidate and the tree holds an annotation
    that no loop encloses, the pass aborts, whichever buffer that annotation
    names. *)
Theorem annotation_outside_loops_aborts
        (split_loop : Z) (ConvertSSA : Stmt -> Stmt) (heap : nat)
        (stmt : Stmt) (b : VarPtr) :
  b ∈ DoubleBufferDetector.run stmt ->
  scope_outside_loop stmt = true ->
  exists msg, InjectDoubleBuffer ConvertSSA heap stmt split_loop = Fatal msg.
Proof.
  intros Hb Hr. apply (Inject_sure_abort _ _ _ _ b Hb).
  apply scope_outside_loop_sure_abort. exact Hr.
Qed.

Lemma annotation_outside_loops_aborts_witness :
  exists msg,
    InjectDoubleBuffer (fun s => s) Sample.heap Sample.stale_then_loop 2
    = Fatal msg.
Proof.
  apply (annotation_outside_loops_aborts
           2 (fun s => s) Sample.heap Sample.stale_then_loop (get Sample.buf)).
  - apply (proj1 (bool_decide_eq_true _)). vm_compute. reflexivity.
  - reflexivity.
Defined.

(** X14.  The node of a double-buffer scope annotation must be a variable:
    on a node of another kind the detector records the null pointer, which
    no reference removes, and the injector aborts when it reaches the
    annotation.  Hence the pass aborts on every tree that holds such an
    annotation. *)
Theorem non_variable_annotation_aborts
        (split_loop : Z) (ConvertSSA : Stmt -> Stmt) (heap : nat) (stmt : Stmt) :
  annotates None stmt = true ->
  None ∈ DoubleBufferDetector.run stmt /\
  exists msg, InjectDoubleBuffer ConvertSSA heap stmt split_loop = Fatal msg.
Proof.
  intros Ha.
  assert (Hin : None ∈ DoubleBufferDetector.run stmt).
  { apply Detector_VisitStmt_annotated; [exact Ha | apply refers_None]. }
  split; [exact Hin|].
  apply (Inject_sure_abort _ _ _ _ None Hin).
  apply annotates_None_sure_abort. exact Ha.
Qed.

Lemma non_variable_annotation_aborts_witness :
  exists msg,
    InjectDoubleBuffer (fun s => s) Sample.heap Case.odd_node 0 = Fatal msg.
Proof.
  apply (non_variable_annotation_aborts 0 (fun s => s) Sample.heap Case.odd_node).
  reflexivity.
Defined.

(** ** Trees that the injector leaves alone *)

(** X15.  The injector is the identity away from the tracked buffers: a
    tree that holds no double-buffer scope annotation and no storage scope,
    allocation, store, load or bare reference of a tracked buffer, and none
    of whose loops has a prologue or hoisted allocations pending, is returned
    as it is, with the members unchanged, whatever the unroll factor. *)
Theorem VisitStmt_untouched (split_loop : Z) (s : Stmt) :
  forall st : Injector,
    touches (dbuffer_info_ st) s = false ->
    (forall a, In a (loop_addrs s) ->
               loop_pre_ st !! a = None /\ loop_allocs_ st !! a = None) ->
    VisitStmt split_loop s st = Ok (s, st).
Proof.
  stmt_induction s; intros st Ht Hl; cbn [VisitStmt touches loop_addrs] in *;
    repeat match goal with
      | H : (_ || _)%bool = false |- _ =>
          apply orb_false_iff in H; destruct H
      end.
  - unfold bind. rewrite VisitExpr_untouched, IHb by assumption. reflexivity.
  - unfold VisitStmt_AttrStmt.
    match goal with
    | H : String.eqb k attr.double_buffer_scope = false |- _ => rewrite H
    end.
    assert (Hg : (let* value' := VisitExpr v in
                  let* body' := VisitStmt split_loop b in
                  ret (AttrStmt n k value' body')) st
                 = Ok (AttrStmt n k v b, st)).
    { unfold bind. rewrite VisitExpr_untouched, IHb by assumption. reflexivity. }
    destruct (String.eqb k attr.storage_scope); [|exact Hg].
    unfold bind at 1, this.
    match goal with
    | H : (true && bool_decide _)%bool = false |- _ =>
        cbn [andb] in H; apply bool_decide_eq_false in H;
        destruct (dbuffer_info_ st !! as_Variable n) as [e|] eqn:E;
        [exfalso; apply H; eauto | exact Hg]
    end.
  - unfold bind. rewrite !VisitExpr_untouched, IHb by assumption. reflexivity.
  - unfold bind. rewrite !VisitExpr_untouched by assumption.
    unfold VisitStmt_Store, bind, this.
    match goal with
    | H : bool_decide _ = false |- _ =>
        apply bool_decide_eq_false in H;
        destruct (dbuffer_info_ st !! get bv) as [e|] eqn:E;
        [exfalso; apply H; eauto | reflexivity]
    end.
  - unfold VisitStmt_Allocate, bind, this.
    match goal with
    | H : bool_decide _ = false |- _ =>
        apply bool_decide_eq_false in H;
        destruct (dbuffer_info_ st !! get bv) as [e|] eqn:E;
        [exfalso; apply H; eauto|]
    end.
    rewrite mapM_VisitExpr_untouched, IHb, VisitExpr_untouched by assumption.
    reflexivity.
  - reflexivity.
  - unfold VisitStmt_For, bind, modify, this.
    set (st0 := set_loop_nest (loop_nest_ st ++ [mkForPtr a lv mn ex]) st).
    rewrite !(VisitExpr_untouched _ st0) by assumption.
    rewrite (IHb st0); [|assumption|intros a' Ha'; apply Hl; right; exact Ha'].
    destruct (Hl a (or_introl eq_refl)) as [Hp Ha].
    change (loop_pre_ st0) with (loop_pre_ st). rewrite Hp.
    unfold ret. cbn beta iota.
    change (loop_allocs_ st0) with (loop_allocs_ st). rewrite Ha.
    subst st0. cbn [loop_nest_ set_loop_nest].
    rewrite pop_back_push. destruct st. reflexivity.
  - unfold bind. rewrite VisitExpr_untouched by assumption.
    rewrite IHt; [|assumption|intros a Ha; apply Hl, in_or_app; left; exact Ha].
    rewrite IHe; [|assumption|intros a Ha; apply Hl, in_or_app; right; exact Ha].
    reflexivity.
  - unfold bind. rewrite VisitExpr_untouched by assumption.
    rewrite IHt; [|assumption|intros a Ha; apply Hl, in_or_app; left; exact Ha].
    reflexivity.
  - change (VisitStmt split_loop (SeqStmt l) st = Ok (SeqStmt l, st)).
    rewrite VisitStmt_SeqStmt. unfold bind.
    rewrite mapM_untouched; [reflexivity|].
    induction IHl as [|y r Hy Hrest IH]; constructor.
    + cbn [existsb flat_map] in *. apply orb_false_iff in Ht as [Ht1 Ht2].
      apply Hy; [exact Ht1|]. intros a Ha. apply Hl, in_or_app. left. exact Ha.
    + cbn [existsb flat_map] in *. apply orb_false_iff in Ht as [Ht1 Ht2].
      apply IH; [exact Ht2|]. intros a Ha. apply Hl, in_or_app. right. exact Ha.
  - unfold bind. rewrite VisitExpr_untouched by assumption. reflexivity.
Qed.

Lemma VisitStmt_untouched_witness :
  VisitStmt 3 Sample.plain (init {[get Sample.buf]} Sample.heap)
  = Ok (Sample.plain, init {[get Sample.buf]} Sample.heap).
Proof.
  apply (VisitStmt_untouched 3 Sample.plain).
  - vm_compute. reflexivity.
  - intros a _. split; reflexivity.
Defined.

(** ** What the injector leaves of the annotations *)

Lemma existsb_flat_map {A B} (p : B -> bool) (f : A -> list B) l :
  existsb p (flat_map f l) = existsb (fun x => existsb p (f x)) l.
Proof.
  induction l as [|x r IH]; [reflexivity|].
  cbn [flat_map existsb]. rewrite existsb_app, IH. reflexivity.
Qed.

Lemma existsb_ext_Forall {A} (p q : A -> bool) l :
  Forall (fun x => p x = q x) l -> existsb p l = existsb q l.
Proof.
  induction 1 as [|x r Hx Hr IH]; [reflexivity|].
  cbn [existsb]. rewrite Hx, IH. reflexivity.
Qed.

Lemma existsb_map_false {A B} (p : B -> bool) (f : A -> B) l :
  (forall x, p (f x) = false) -> existsb p (map f l) = false.
Proof.
  intros H. induction l as [|x r IH]; [reflexivity|].
  cbn [map existsb]. rewrite H, IH. reflexivity.
Qed.

Lemma has_attr_flatten_into key s :
  existsb (has_attr key) (flatten_into s) = has_attr key s.
Proof.
  stmt_induction s; try (cbn [flatten_into existsb]; apply orb_false_r).
  rewrite flatten_into_SeqStmt, existsb_flat_map. cbn [has_attr].
  apply existsb_ext_Forall, IHl.
Qed.

Lemma has_attr_Flatten key l :
  has_attr key (Flatten l) = existsb (has_attr key) l.
Proof.
  assert (E : existsb (has_attr key) (flat_map flatten_into l)
              = existsb (has_attr key) l).
  { rewrite existsb_flat_map. apply existsb_ext_Forall, Forall_forall.
    intros x _. apply has_attr_flatten_into. }
  unfold Flatten. rewrite <- E.
  destruct (flat_map flatten_into l) as [|s [|s' r]]; cbn [has_attr existsb];
    rewrite ?orb_false_r; reflexivity.
Qed.

Lemma is_no_op_has_attr key b : is_no_op b = true -> has_attr key b = false.
Proof.
  destruct b as [| | | | | | | | l |]; try discriminate; [|reflexivity].
  destruct l; [reflexivity | discriminate].
Qed.

Lemma merge_one_has_attr key s body r :
  merge_one s body = Ok r ->
  has_attr key r = has_attr key s || has_attr key body.
Proof.
  destruct s as [v e b|n k v b|c m b|bv v i p|bv t ex c b|bv
                 |a lv mn ex ft da b|c t [e|]|l|e];
    cbn [merge_one]; try discriminate;
    try (destruct (is_no_op _) eqn:E; [|discriminate];
         intros [= <-]; cbn [has_attr];
         rewrite (is_no_op_has_attr key _ E), ?orb_false_r; reflexivity).
  destruct (last l) as [b|] eqn:El; [|discriminate].
  destruct (is_no_op b) eqn:E; [|discriminate]. intros [= <-].
  apply last_Some in El as [l' ->]. rewrite removelast_last.
  cbn [has_attr]. rewrite !existsb_app. cbn [existsb].
  rewrite (is_no_op_has_attr key _ E), !orb_false_r. reflexivity.
Qed.

Lemma MergeNest_has_attr key nest :
  forall body r,
    MergeNest nest body = Ok r ->
    has_attr key r = existsb (has_attr key) nest || has_attr key body.
Proof.
  induction nest as [|s nest IH]; intros body r H; cbn [MergeNest fold_right] in H.
  - inversion H; subst. reflexivity.
  - fold (MergeNest nest body) in H.
    destruct (MergeNest nest body) as [b|] eqn:E; [|discriminate H].
    rewrite (merge_one_has_attr key _ _ _ H), (IH _ _ E).
    cbn [existsb]. rewrite orb_assoc. reflexivity.
Qed.

Lemma clean_prologue key st a x :
  clean key st -> has_attr key x = false ->
  clean key (set_loop_pre
               (<[a := default [] (loop_pre_ st !! a) ++ [x]]> (loop_pre_ st))
               st).
Proof.
  intros [Hp Ha] Hx. split; [|exact Ha].
  intros a' l. cbn [loop_pre_ set_loop_pre].
  destruct (decide (a = a')) as [<-|Hne].
  - rewrite lookup_insert_eq. intros [= <-]. rewrite existsb_app.
    cbn [existsb]. rewrite Hx, orb_false_r.
    destruct (loop_pre_ st !! a) as [l0|] eqn:E; [apply (Hp a l0 E)|reflexivity].
  - rewrite lookup_insert_ne by exact Hne. apply Hp.
Qed.

Lemma clean_hoist key st a x y :
  clean key st -> has_attr key x = false -> has_attr key y = false ->
  clean key (set_loop_allocs
               (<[a := (default [] (loop_allocs_ st !! a) ++ [x]) ++ [y]]>
                  (loop_allocs_ st)) st).
Proof.
  intros [Hp Ha] Hx Hy. split; [exact Hp|].
  intros a' l. cbn [loop_allocs_ set_loop_allocs].
  destruct (decide (a = a')) as [<-|Hne].
  - rewrite lookup_insert_eq. intros [= <-]. rewrite !existsb_app.
    cbn [existsb]. rewrite Hx, Hy, !orb_false_r.
    destruct (loop_allocs_ st !! a) as [l0|] eqn:E; [apply (Ha a l0 E)|reflexivity].
  - rewrite lookup_insert_ne by exact Hne. apply Ha.
Qed.

Ltac use_clean_IH :=
  repeat match goal with
    | IH : forall st r st', clean _ st -> VisitStmt _ ?b st = Ok (r, st') -> _,
      H : VisitStmt _ ?b ?s = Ok _, Hc : clean ?key _ |- _ =>
        destruct (IH _ _ _ (Hc : clean key s) H) as [? ?]; clear H
    end.

Ltac attr_false :=
  cbn [has_attr existsb];
  rewrite ?Substitute_has_attr, ?has_attr_Flatten;
  repeat match goal with
    | H : has_attr _ _ = false |- _ => rewrite H
    | H : String.eqb _ _ = false |- _ => rewrite H
    end;
  try reflexivity.

Ltac clean_goal :=
  match goal with
  | |- clean _ (set_loop_pre _ ?x) =>
      refine (clean_prologue _ x _ _ _ _); [clean_goal | attr_false]
  | |- clean _ (set_loop_allocs _ ?x) =>
      refine (clean_hoist _ x _ _ _ _ _ _); [clean_goal | attr_false | attr_false]
  | Hc : clean ?key _ |- clean ?key ?s => exact (Hc : clean key s)
  end.

Lemma unroll_clean sl key addr lv mn ex ft da body st r st' :
  String.eqb key attr.double_buffer_write = false ->
  has_attr key body = false ->
  unroll sl addr lv mn ex ft da body st = Ok (r, st') ->
  has_attr key r = false /\ (clean key st -> clean key st').
Proof.
  intros Hk Hb H. unfold unroll in H. minv H. split; [|intros Hc; exact Hc].
  rewrite has_attr_Flatten. cbn [existsb has_attr].
  rewrite has_attr_Flatten, !existsb_map_false; [reflexivity|..].
  - intros x. cbn [has_attr].
    rewrite Substitute_has_attr, Strip_has_attr, Hb by exact Hk. reflexivity.
  - intros x. rewrite Substitute_has_attr. exact Hb.
Qed.

Lemma VisitStmt_clean sl s :
  forall st r st',
    clean attr.double_buffer_scope st ->
    VisitStmt sl s st = Ok (r, st') ->
    has_attr attr.double_buffer_scope r = false /\
    clean attr.double_buffer_scope st'.
Proof.
  stmt_induction s; intros st r st' Hc H.
  - cbn [VisitStmt] in H. minv H. use_clean_IH. split; assumption.
  - cbn [VisitStmt] in H. unfold VisitStmt_AttrStmt in H.
    destruct (String.eqb k attr.storage_scope) eqn:E1;
      [|destruct (String.eqb k attr.double_buffer_scope) eqn:E2].
    + apply String.eqb_eq in E1. subst k.
      munfold H. repeat mdestruct H; try (inversion H; subst; clear H);
        use_clean_IH; split; try assumption; attr_false.
    + unfold MakeProducer in H. destruct n as [buffer|key]; [|discriminate H].
      munfold H. repeat mdestruct H; try (inversion H; subst; clear H);
        use_clean_IH.
      * split; [attr_false | clean_goal].
      * split; assumption.
    + minv H. use_clean_IH. split; [attr_false | assumption].
  - cbn [VisitStmt] in H. minv H. use_clean_IH. split; assumption.
  - cbn [VisitStmt] in H. munfold H. repeat mdestruct H.
    unfold VisitStmt_Store in H. minv H; split; try reflexivity; assumption.
  - cbn [VisitStmt] in H. unfold VisitStmt_Allocate in H. munfold H.
    repeat mdestruct H.
    + unfold hoist_Allocate in H. minv H. use_clean_IH.
      split; [assumption | clean_goal].
    + inversion H; subst; clear H. use_clean_IH. split; [attr_false | assumption].
  - cbn [VisitStmt] in H. minv H. split; [reflexivity | assumption].
  - cbn [VisitStmt] in H. unfold VisitStmt_For in H. munfold H.
    repeat mdestruct H; inversion H; subst; clear H; use_clean_IH;
      try match goal with
        | Hu : unroll _ _ _ _ _ _ _ ?body _ = Ok _,
          Hb : has_attr _ ?body = false |- _ =>
            destruct (unroll_clean _ attr.double_buffer_scope
                                   _ _ _ _ _ _ _ _ _ _ eq_refl Hb Hu)
              as [? Hu']; clear Hu;
            match goal with
            | Hc' : clean _ _ |- _ => specialize (Hu' Hc')
            end
        end;
      repeat match goal with
        | Hc' : clean _ ?s', Hl : loop_pre_ ?s' !! _ = Some ?l |- _ =>
            lazymatch goal with
            | _ : existsb (has_attr attr.double_buffer_scope) l = false |- _ =>
                fail
            | _ => pose proof (proj1 Hc' _ _ Hl)
            end
        | Hc' : clean _ ?s', Hl : loop_allocs_ ?s' !! _ = Some ?l |- _ =>
            lazymatch goal with
            | _ : existsb (has_attr attr.double_buffer_scope) l = false |- _ =>
                fail
            | _ => pose proof (proj2 Hc' _ _ Hl)
            end
        end;
      (split; [|clean_goal]);
      repeat match goal with
        | Hm : MergeNest _ _ = Ok ?r |- has_attr _ ?r = false =>
            rewrite (MergeNest_has_attr attr.double_buffer_scope _ _ _ Hm)
        end;
      rewrite ?has_attr_Flatten, ?existsb_app; cbn [existsb has_attr];
      repeat match goal with
        | Hf : _ = false |- _ => rewrite Hf
        end;
      reflexivity.
  - cbn [VisitStmt] in H. minv H. use_clean_IH. split; [attr_false | assumption].
  - cbn [VisitStmt] in H. minv H. use_clean_IH. split; [attr_false | assumption].
  - rewrite VisitStmt_SeqStmt in H. munfold H.
    destruct (mapM (VisitStmt sl) l st) as [[l' st1]|] eqn:Hm; [|discriminate H].
    inversion H; subst; clear H. cbn [has_attr].
    revert st l' st' Hc Hm.
    induction IHl as [|y rest Hy Hrest IH]; intros st l' st' Hc Hm;
      cbn [mapM] in Hm; minv Hm.
    + split; [reflexivity | assumption].
    + match goal with
      | H1 : VisitStmt sl y st = Ok (_, ?s1), H2 : mapM _ rest ?s1 = Ok _ |- _ =>
          destruct (Hy _ _ _ Hc H1) as [A1 C1];
          destruct (IH _ _ _ C1 H2) as [A2 C2]
      end.
      split; [|exact C2]. cbn [existsb]. rewrite A1, A2. reflexivity.
  - cbn [VisitStmt] in H. minv H. split; [reflexivity | assumption].
Qed.

Lemma clean_init key T heap : clean key (init T heap).
Proof. split; intros a l H; cbn [init loop_pre_ loop_allocs_] in H;
         rewrite lookup_empty in H; discriminate H. Qed.

(** X16.  The injector consumes the double-buffer scope annotations: when
    the pass rewrites a tree (the detector reports a candidate) and
    succeeds, the result holds no double-buffer scope annotation, of a
    candidate or not, provided the renormalization adds none. *)
Theorem Inject_consumes_scope_annotations
        (split_loop : Z) (ConvertSSA : Stmt -> Stmt) (heap : nat)
        (stmt r : Stmt) (b : VarPtr) :
  (forall x, has_attr attr.double_buffer_scope x = false ->
             has_attr attr.double_buffer_scope (ConvertSSA x) = false) ->
  b ∈ DoubleBufferDetector.run stmt ->
  InjectDoubleBuffer ConvertSSA heap stmt split_loop = Ok r ->
  has_attr attr.double_buffer_scope r = false.
Proof.
  intros Hssa Hb H. unfold InjectDoubleBuffer, Inject in H.
  rewrite decide_False in H by set_solver.
  destruct (VisitStmt split_loop stmt _) as [[r0 st']|msg] eqn:E;
    [|discriminate H].
  inversion H; subst; clear H. apply Hssa.
  apply (VisitStmt_clean _ _ _ _ _ (clean_init _ _ _) E).
Qed.

Lemma Inject_consumes_scope_annotations_witness :
  exists r,
    InjectDoubleBuffer (fun s => s) Sample.heap Sample.loop8 2 = Ok r /\
    has_attr attr.double_buffer_scope Sample.loop8 = true /\
    has_attr attr.double_buffer_scope r = false.
Proof.
  destruct (InjectDoubleBuffer (fun s => s) Sample.heap Sample.loop8 2)
    as [r|msg] eqn:E; [|vm_compute in E; discriminate E].
  exists r. split; [reflexivity|]. split; [reflexivity|].
  apply (Inject_consumes_scope_annotations
           2 (fun s => s) Sample.heap Sample.loop8 r (get Sample.buf)).
  - intros x Hx. exact Hx.
  - apply (proj1 (bool_decide_eq_true _)). vm_compute. reflexivity.
  - exact E.
Defined.

(** ** What makes a loop visit fail *)

Lemma empty_slots_merge nest body :
  forallb empty_slot nest = true ->
  exists merged,
    MergeNest nest body = Ok merged /\
    forall env, exec env merged = exec env body.
Proof.
  induction nest as [|s nest IH]; intros Hs; cbn [forallb] in Hs.
  - exists body. split; reflexivity.
  - apply andb_true_iff in Hs as [Hs Hn].
    destruct (IH Hn) as (m & Hm & He).
    unfold MergeNest in *. cbn [fold_right]. rewrite Hm.
    destruct s as [| n k v b | | | bv t ex c b | | | | |]; try discriminate Hs.
    + destruct n; [|discriminate Hs]. destruct v; try discriminate Hs.
      destruct b as [| | | | | | | | | e]; try discriminate Hs.
      destruct e as [t z| | | | | | | | |]; try discriminate Hs.
      destruct z; try discriminate Hs.
      eexists. split; [reflexivity|]. intros env. cbn [exec]. apply He.
    + destruct b as [| | | | | | | | | e]; try discriminate Hs.
      destruct e as [t' z| | | | | | | | |]; try discriminate Hs.
      destruct z; try discriminate Hs.
      eexists. split; [reflexivity|]. intros env. cbn [exec]. apply He.
Qed.

Lemma allocs_ok_init T heap : allocs_ok (init T heap).
Proof.
  intros a nest H. cbn [init loop_allocs_] in H.
  rewrite lookup_empty in H. discriminate H.
Qed.

(** X17.  A loop visit fails only in its children or in the checks of the
    unrolling: once the bounds and the body are visited, a loop without
    prologue, or with factor [0], or with an accepted factor and the lower
    bound [0], is reassembled without failure.  In particular the merge
    with the hoisted allocations of the loop cannot fail, because every
    hoisted statement is a storage scope or an allocation around the
    placeholder [Evaluate(0)]. *)
Theorem For_fails_only_at_checks
        (split_loop : Z) (addr : nat) (lv : Var) (mn ex : Expr) (ft : ForType)
        (da : DeviceAPI) (body : Stmt) (st : Injector)
        (mn' ex' : Expr) (body' : Stmt) (st1 : Injector) :
  allocs_ok st ->
  let st0 := set_loop_nest (loop_nest_ st ++ [mkForPtr addr lv mn ex]) st in
  VisitExpr mn st0 = Ok (mn', st0) ->
  VisitExpr ex st0 = Ok (ex', st0) ->
  VisitStmt split_loop body st0 = Ok (body', st1) ->
  loop_pre_ st1 !! addr = None \/ split_loop = 0 \/
  ((Z.rem split_loop 2 = 0 \/ split_loop = 1) /\ is_zero mn' = true) ->
  exists r st',
    VisitStmt split_loop (For addr lv mn ex ft da body) st = Ok (r, st').
Proof.
  intros Hok st0 Hmn Hex Hbody Hcase.
  assert (Hok1 : allocs_ok st1).
  { apply (VisitStmt_allocs_step split_loop body _ _ _ Hbody). exact Hok. }
  assert (Hmerge : forall (s : Stmt) (st2 : Injector),
             loop_allocs_ st2 = loop_allocs_ st1 ->
             exists r,
               match loop_allocs_ st2 !! addr with
               | Some nest => lift (MergeNest nest s)
               | None => ret s
               end st2 = Ok (r, st2)).
  { intros s st2 E. rewrite E.
    destruct (loop_allocs_ st1 !! addr) as [nest|] eqn:En; [|eexists; reflexivity].
    destruct (empty_slots_merge nest s (Hok1 _ _ En)) as (m & Hm & _).
    exists m. unfold lift. rewrite Hm. reflexivity. }
  cbn [VisitStmt]. unfold VisitStmt_For, bind, modify, this. fold st0.
  rewrite Hmn, Hex, Hbody.
  destruct (loop_pre_ st1 !! addr) as [pre|] eqn:Hpre.
  - destruct Hcase as [Hc|[Hc|[Hpar Hz]]]; [discriminate Hc| |].
    + subst split_loop. cbn [Z.eqb negb]. unfold ret in *. cbn beta iota.
      destruct (Hmerge (Flatten (pre ++ [For addr lv mn' ex' ft da body'])) st1
                       eq_refl) as [r Hr].
      rewrite Hr. eexists _, _. reflexivity.
    + destruct (negb (split_loop =? 0)).
      * unfold unroll, bind, CHECK, new_Var. unfold ret in *.
        replace ((Z.rem split_loop 2 =? 0) || (split_loop =? 1))%bool
          with true
          by (symmetry; apply orb_true_iff; destruct Hpar; [left|right]; lia).
        rewrite Hz. cbn beta iota.
        match goal with
        | |- context [Flatten (pre ++ [?u])] =>
            destruct (Hmerge (Flatten (pre ++ [u]))
                             (set_heap (S (heap_ st1)) st1) eq_refl) as [r Hr]
        end.
        rewrite Hr. eexists _, _. reflexivity.
      * unfold ret in *. cbn beta iota.
        destruct (Hmerge (Flatten (pre ++ [For addr lv mn' ex' ft da body'])) st1
                         eq_refl) as [r Hr].
        rewrite Hr. eexists _, _. reflexivity.
  - unfold ret in *. cbn beta iota.
    destruct (Hmerge (For addr lv mn' ex' ft da body') st1 eq_refl) as [r Hr].
    rewrite Hr. eexists _, _. reflexivity.
Qed.

Lemma For_fails_only_at_checks_witness :
  exists r st',
    VisitStmt 2 Sample.loop8 (init {[get Sample.buf]} Sample.heap) = Ok (r, st').
Proof.
  epose proof (For_fails_only_at_checks
                 2 100 Sample.i (Sample.c 0) (Sample.c 8) Serial DevNone
                 (AttrStmt (NodeVar Sample.buf) attr.storage_scope
                           (StringImm "shared") Sample.allocation)
                 (init {[get Sample.buf]} Sample.heap) _ _ _ _) as H.
  apply H; clear H.
  - intros a nest Hn. vm_compute in Hn. discriminate Hn.
  - vm_compute. reflexivity.
  - vm_compute. reflexivity.
  - vm_compute. reflexivity.
  - right. right. split; [left; reflexivity | reflexivity].
Defined.

(** X18.  Explicit unrolling needs a loop that starts at the literal [0]:
    with a factor other than [0], a loop that received a prologue and whose
    lower bound is not the literal zero aborts the pass, whether or not the
    factor is acceptable. *)
Theorem unrolled_loop_needs_zero_min
        (split_loop : Z) (addr : nat) (lv : Var) (mn ex : Expr) (ft : ForType)
        (da : DeviceAPI) (body : Stmt) (st : Injector)
        (mn' ex' : Expr) (body' : Stmt) (st1 : Injector) (pre : list Stmt) :
  split_loop <> 0 ->
  let st0 := set_loop_nest (loop_nest_ st ++ [mkForPtr addr lv mn ex]) st in
  VisitExpr mn st0 = Ok (mn', st0) ->
  VisitExpr ex st0 = Ok (ex', st0) ->
  VisitStmt split_loop body st0 = Ok (body', st1) ->
  loop_pre_ st1 !! addr = Some pre ->
  is_zero mn' = false ->
  exists msg,
    VisitStmt split_loop (For addr lv mn ex ft da body) st = Fatal msg.
Proof.
  intros Hk st0 Hmn Hex Hbody Hpre Hz.
  cbn [VisitStmt]. unfold VisitStmt_For, bind, modify, this. fold st0.
  rewrite Hmn, Hex, Hbody, Hpre.
  destruct (Z.eqb_spec split_loop 0) as [?|_]; [contradiction|].
  cbn [negb]. unfold unroll, bind, CHECK. rewrite Hz.
  destruct ((Z.rem split_loop 2 =? 0) || (split_loop =? 1))%bool;
    eexists; reflexivity.
Qed.

Lemma unrolled_loop_needs_zero_min_witness :
  exists msg,
    VisitStmt 2 Case.loop_from_1 (init {[get Sample.buf]} Sample.heap)
    = Fatal msg.
Proof.
  epose proof (unrolled_loop_needs_zero_min
                 2 100 Sample.i (Sample.c 1) (Sample.c 8) Serial DevNone
                 (AttrStmt (NodeVar Sample.buf) attr.storage_scope
                           (StringImm "shared") Sample.allocation)
                 (init {[get Sample.buf]} Sample.heap) _ _ _ _ _) as H.
  apply H; clear H.
  - discriminate.
  - vm_compute. reflexivity.
  - vm_compute. reflexivity.
  - vm_compute. reflexivity.
  - vm_compute. reflexivity.
  - reflexivity.
Defined.

(** ** The pipelined loop runs the producer once per iteration *)

Section Pipeline.
Variables (addr : nat) (i buffer : Var) (t0 : DataType) (N : Z)
          (ft : ForType) (da : DeviceAPI) (value : Expr) (st : Injector)
          (e : StorageEntry).
Hypothesis Htracked : dbuffer_info_ st !! get buffer = Some e.
Hypothesis Hloop_var : dbuffer_info_ st !! get i = None.
Hypothesis Hno_pre : loop_pre_ st !! addr = None.
Hypothesis Hno_allocs : loop_allocs_ st !! addr = None.
Hypothesis Hheap : (var_id i < heap_ st)%nat.

Let op : ForPtr := mkForPtr addr i (IntImm t0 0) (IntImm t0 N).
Let st0 : Injector := set_loop_nest (loop_nest_ st ++ [op]) st.
Let w : Var := mkVar (heap_ st) (name_hint i ++ ".db")%string (var_dtype i).
Let e1 : StorageEntry :=
  mkStorageEntry (stride e) (Some op) w (Some (read_phase i)) (scope e).
Let prefetch : Stmt :=
  IfThenElse (lt_ (shifted i) (IntImm t0 N))
             (AttrStmt (NodeVar buffer) attr.double_buffer_write
                       (IntImm Int32 1) (Evaluate (shifted i)))
             None.
Let st1 : Injector :=
  set_loop_pre
    (<[addr := [Evaluate (make_const (var_dtype i) 0)]]> (loop_pre_ st))
    (set_in_scope false
       (set_dbuffer_info (<[get buffer := e1]> (dbuffer_info_ st))
                         (set_heap (S (heap_ st)) st0))).

Lemma probe_producer sl :
  VisitStmt sl (AttrStmt (NodeVar buffer) attr.double_buffer_scope value
                         (probe i)) st0
  = Ok (prefetch, st1).
Proof.
  cbn [VisitStmt]. unfold VisitStmt_AttrStmt.
  replace (String.eqb attr.double_buffer_scope attr.storage_scope)
    with false by reflexivity.
  rewrite String.eqb_refl. unfold MakeProducer, bind, this, CHECK.
  assert (Hlen : negb (Nat.eqb (length (loop_nest_ st0)) 0) = true).
  { subst st0. cbn [loop_nest_ set_loop_nest]. rewrite length_app.
    cbn [length]. rewrite Nat.add_1_r. reflexivity. }
  assert (Hback : back (loop_nest_ st0) = Some op).
  { subst st0. cbn [loop_nest_ set_loop_nest]. apply last_snoc. }
  assert (Hne : get buffer <> get i).
  { intros E. rewrite E in Htracked. congruence. }
  assert (Hw : var_id w <> var_id i) by (cbn [var_id w]; lia).
  rewrite Hlen, Hback.
  change (dbuffer_info_ st0) with (dbuffer_info_ st). rewrite Htracked.
  unfold new_Var, modify. cbn beta iota.
  cbn [VisitStmt probe VisitExpr]. unfold bind, VisitExpr_Variable, bind, this, CHECK.
  cbn [dbuffer_info_ set_in_scope set_dbuffer_info set_heap for_loop_var op].
  rewrite lookup_insert_ne by exact Hne.
  change (dbuffer_info_ st0) with (dbuffer_info_ st). rewrite Hloop_var.
  rewrite bool_decide_eq_false_2 by (intros [? ?]; discriminate).
  cbn [negb]. unfold ret. cbn beta iota.
  cbn [dbuffer_info_ set_in_scope set_dbuffer_info set_heap].
  rewrite lookup_insert_eq. cbn [loop switch_write_var for_loop_var for_addr].
  cbn [loop_pre_ set_in_scope set_dbuffer_info set_heap set_loop_nest st0].
  cbn [for_addr for_loop_var for_extent op]. rewrite Hno_pre.
  change (heap_ st0) with (heap_ st). fold w.
  cbn [default app Substitute Substitute_expr].
  unfold vmap_steady, vmap_prologue.
  rewrite (lookup_insert_ne _ (var_id w)) by exact Hw.
  rewrite !lookup_insert_eq. reflexivity.
Qed.

Lemma prefetch_run env :
  1 <= N ->
  flat_map (fun v => exec (bind_var env i v) prefetch) (iota N)
  = map (fun v => v + 1) (iota (N - 1)).
Proof.
  intros HN.
  rewrite (flat_map_In_ext _ (fun v => if v + 1 <? N then [v + 1] else [])).
  - rewrite (guarded_prefetch_indices N (fun v => [v + 1]) HN).
    apply flat_map_singleton.
  - intros v _. cbn [prefetch exec eval lt_ shifted add_ make_const eval_binop].
    unfold bind_var. rewrite Nat.eqb_refl.
    destruct (v + 1 <? N); reflexivity.
Qed.

Lemma iota_shift : 1 <= N -> 0 :: map (fun v => v + 1) (iota (N - 1)) = iota N.
Proof.
  intros HN. unfold iota.
  replace (Z.to_nat N) with (S (Z.to_nat (N - 1))) by lia.
  cbn [seq map]. f_equal. rewrite <- seq_shift, !map_map.
  apply map_ext. intros n. lia.
Qed.

(** X19.  Pipelining keeps the sequence of producer runs.  A loop over
    [[0, N)] whose body is the annotated producer of a tracked buffer, here
    the probe that reports the loop variable, is rewritten into a prologue
    and a loop (factor [0]) or an unrolled loop with its tail (factor [1]
    or even) in which the producer runs for the same indices in the same
    order as in the original loop: once in the prologue for index [0], and
    in iteration [i] for index [i+1] while [i+1 < N]. *)
Theorem pipelined_loop_runs_producer_once_per_index (split_loop : Z) :
  1 <= N ->
  split_loop = 0 \/
  (1 <= split_loop /\ (Z.rem split_loop 2 = 0 \/ split_loop = 1)) ->
  let s := For addr i (IntImm t0 0) (IntImm t0 N) ft da
               (AttrStmt (NodeVar buffer) attr.double_buffer_scope value
                         (probe i)) in
  exists r st',
    VisitStmt split_loop s st = Ok (r, st') /\
    forall env, exec env r = iota N /\ exec env s = iota N.
Proof.
  intros HN Hk s.
  assert (Hs : forall env, exec env s = iota N).
  { intros env. subst s. cbn [exec eval].
    rewrite (flat_map_In_ext _ (fun j => [j])).
    - rewrite flat_map_singleton. apply map_id.
    - intros j _. cbn [probe exec eval]. unfold bind_var.
      rewrite Nat.eqb_refl. reflexivity. }
  assert (Hloop : forall env,
             exec env (For addr i (IntImm t0 0) (IntImm t0 N) ft da prefetch)
             = map (fun v => v + 1) (iota (N - 1))).
  { intros env. cbn [exec eval]. rewrite <- (prefetch_run env HN).
    apply flat_map_In_ext. intros j _. reflexivity. }
  subst s. cbn [VisitStmt]. unfold VisitStmt_For, bind, modify, this.
  fold op. fold st0. cbn [VisitExpr]. unfold ret at 1 2. cbn beta iota.
  change (VisitStmt_AttrStmt (VisitStmt split_loop (probe i)) (NodeVar buffer)
                             attr.double_buffer_scope value st0)
    with (VisitStmt split_loop
                    (AttrStmt (NodeVar buffer) attr.double_buffer_scope value
                              (probe i)) st0).
  rewrite probe_producer.
  assert (Hpre : loop_pre_ st1 !! addr
                 = Some [Evaluate (make_const (var_dtype i) 0)]).
  { cbn [st1 loop_pre_ set_loop_pre]. apply lookup_insert_eq. }
  rewrite Hpre.
  destruct Hk as [->|(Hk1 & Hpar)].
  - cbn [Z.eqb negb]. unfold ret. cbn beta iota.
    change (loop_allocs_ st1) with (loop_allocs_ st). rewrite Hno_allocs.
    eexists _, _. split; [reflexivity|]. intros env. split; [|apply Hs].
    rewrite exec_Flatten. cbn [app flat_map]. rewrite Hloop, app_nil_r.
    cbn [exec eval make_const app]. apply iota_shift, HN.
  - destruct (Z.eqb_spec split_loop 0) as [?|_]; [lia|]. cbn [negb].
    assert (Hrun : forall env,
               exists u st2,
                 unroll split_loop addr i (IntImm t0 0) (IntImm t0 N) ft da
                        prefetch st1 = Ok (u, st2) /\
                 exec env u = map (fun v => v + 1) (iota (N - 1))).
    { intros env.
      destruct (unroll_runs_body split_loop N addr i t0 (IntImm t0 N) ft da
                                 prefetch env st1)
        as (u & st2 & Hu & He); try assumption.
      - intros env' _. reflexivity.
      - reflexivity.
      - cbn [prefetch uses uses_expr lt_ shifted add_ make_const].
        cbn [st1 heap_ set_loop_pre set_in_scope set_dbuffer_info set_heap].
        cbn [st0 heap_ set_loop_nest].
        assert (Nat.eqb (var_id i) (S (heap_ st)) = false) as ->
            by (apply Nat.eqb_neq; lia).
        reflexivity.
      - exists u, st2. split; [exact Hu|]. rewrite He. apply prefetch_run, HN. }
    destruct (Hrun (fun _ => 0)) as (u & st2 & Hu & _).
    rewrite Hu. unfold ret. cbn beta iota.
    assert (Hal : loop_allocs_ st2 !! addr = None).
    { unfold unroll in Hu. minv Hu. exact Hno_allocs. }
    rewrite Hal. eexists _, _. split; [reflexivity|].
    intros env. split; [|apply Hs].
    destruct (Hrun env) as (u' & st2' & Hu' & He').
    rewrite Hu in Hu'. inversion Hu'; subst u' st2'.
    rewrite exec_Flatten. cbn [app flat_map]. rewrite He', app_nil_r.
    cbn [exec eval make_const app]. apply iota_shift, HN.
Qed.
End Pipeline.

Lemma pipelined_loop_runs_producer_once_per_index_witness :
  exists r st',
    VisitStmt 2
              (For 100 Sample.i (Sample.c 0) (Sample.c 8) Serial DevNone
                   (AttrStmt (NodeVar Sample.buf) attr.double_buffer_scope
                             (Sample.c 1) (probe Sample.i)))
              (init {[get Sample.buf]} Sample.heap)
    = Ok (r, st') /\
    forall env, exec env r = [0; 1; 2; 3; 4; 5; 6; 7].
Proof.
  assert (H1 : dbuffer_info_ (init {[get Sample.buf]} Sample.heap)
                 !! get Sample.buf = Some (StorageEntry_init Sample.heap))
    by (vm_compute; reflexivity).
  assert (H2 : dbuffer_info_ (init {[get Sample.buf]} Sample.heap)
                 !! get Sample.i = None)
    by (vm_compute; reflexivity).
  assert (H3 : loop_pre_ (init {[get Sample.buf]} Sample.heap) !! 100%nat = None)
    by reflexivity.
  assert (H4 : loop_allocs_ (init {[get Sample.buf]} Sample.heap) !! 100%nat
               = None)
    by reflexivity.
  assert (H5 : (var_id Sample.i < heap_ (init {[get Sample.buf]} Sample.heap))%nat)
    by (vm_compute; lia).
  assert (H6 : 1 <= 8) by lia.
  assert (H7 : 2 = 0 \/ (1 <= 2 /\ (Z.rem 2 2 = 0 \/ 2 = 1)))
    by (right; split; [lia | left; reflexivity]).
  destruct (pipelined_loop_runs_producer_once_per_index
              100 Sample.i Sample.buf Int32 8 Serial DevNone (Sample.c 1)
              (init {[get Sample.buf]} Sample.heap)
              (StorageEntry_init Sample.heap)
              H1 H2 H3 H4 H5 2 H6 H7) as (r & st' & Hr & He).
  exists r, st'. split; [exact Hr|]. intros env. apply (He env).
Defined.

(** ** Factors that the check lets through *)

(** X20.  An even negative factor passes the check of the unrolling, and
    the loop body is lost: the copy loops run zero times, so the loop is
    replaced by an outer loop around the empty sequence, without tail, and
    nothing of the body is executed. *)
Theorem negative_even_factor_drops_body
        (split_loop : Z) (addr : nat) (lv : Var) (mn ex : Expr) (ft : ForType)
        (da : DeviceAPI) (body : Stmt) (st : Injector) :
  split_loop < 0 ->
  Z.rem split_loop 2 = 0 ->
  is_zero mn = true ->
  exists outer_var outer_ext st',
    unroll split_loop addr lv mn ex ft da body st
    = Ok (For addr outer_var mn outer_ext ft da (SeqStmt []), st') /\
    forall env,
      exec env (For addr outer_var mn outer_ext ft da (SeqStmt [])) = [].
Proof.
  intros Hneg Hpar Hz. unfold unroll, bind, CHECK, new_Var, ret.
  rewrite Hz. replace (Z.rem split_loop 2 =? 0) with true by (symmetry; lia).
  cbn [orb].
  assert (E : iota split_loop = []).
  { unfold iota. replace (Z.to_nat split_loop) with 0%nat by lia. reflexivity. }
  rewrite E. cbn [map]. eexists _, _, _. split; [reflexivity|].
  intros env. cbn [exec].
  destruct (eval env mn); [|reflexivity].
  match goal with
  | |- context [eval env ?x] => destruct (eval env x); [|reflexivity]
  end.
  apply flat_map_nil.
Qed.

Lemma negative_even_factor_drops_body_witness :
  exists outer_var outer_ext st',
    unroll (-2) 100 Sample.i (Sample.c 0) (Sample.c 8) Serial DevNone
           (probe Sample.i) (init ∅ Sample.heap)
    = Ok (For 100 outer_var (Sample.c 0) outer_ext Serial DevNone (SeqStmt []),
          st').
Proof.
  destruct (negative_even_factor_drops_body
              (-2) 100 Sample.i (Sample.c 0) (Sample.c 8) Serial DevNone
              (probe Sample.i) (init ∅ Sample.heap))
    as (v & x & st' & H & _); [lia | reflexivity | reflexivity |].
  exists v, x, st'. exact H.
Defined.

(** ** Consumers that run ahead of the producer *)

Lemma unresolved_keeps x st st' :
  keeps x st st' -> unresolved x st -> unresolved x st'.
Proof.
  intros Hk (e & He & Hr). destruct (Hk e He) as (e' & He' & (_ & _ & E)).
  exists e'. split; [exact He' | congruence].
Qed.

Lemma unresolved_step x sl s st r st' :
  annotates x s = false ->
  VisitStmt sl s st = Ok (r, st') -> unresolved x st -> unresolved x st'.
Proof.
  intros Ha H. apply unresolved_keeps.
  apply (VisitStmt_keeps sl x s Ha _ _ _ H).
Qed.

Lemma VisitExpr_loads x e :
  forall st e' st',
    unresolved x st -> loads_expr x e = true ->
    VisitExpr e st = Ok (e', st') -> False.
Proof.
  expr_induction e; intros st e' st' Hu Hr H;
    try rewrite VisitExpr_Call in H; cbn [VisitExpr loads_expr] in *;
    try discriminate Hr; monad_inv; expr_states; orb_true Hr; eauto.
  - apply bool_decide_eq_true in Hr. subst x. destruct Hu as (e0 & He0 & Hrd).
    unfold VisitExpr_Load in H. monad_inv. rewrite He0 in H.
    destruct (stride e0); [|discriminate H]. rewrite Hrd in H. discriminate H.
  - match goal with
    | Hm : mapM VisitExpr args _ = Ok (?l, _) |- _ => revert Hm; generalize l
    end.
    induction IHargs as [|y r Hy Hrest IH]; intros l' Hm; [discriminate Hr|].
    cbn [mapM existsb] in *. monad_inv. expr_states. orb_true Hr; eauto.
Qed.

Lemma mapM_VisitExpr_loads x l :
  forall st l' st',
    unresolved x st -> existsb (loads_expr x) l = true ->
    mapM VisitExpr l st = Ok (l', st') -> False.
Proof.
  induction l as [|y r IH]; intros st l' st' Hu Hr H; [discriminate Hr|].
  cbn [mapM existsb] in *. monad_inv. expr_states. orb_true Hr.
  - eapply VisitExpr_loads; eauto.
  - eapply IH; eauto.
Qed.

Lemma unresolved_entry x st buf e e' :
  dbuffer_info_ st !! buf = Some e ->
  switch_read_var e' = switch_read_var e ->
  unresolved x st ->
  unresolved x (set_dbuffer_info (<[buf := e']> (dbuffer_info_ st)) st).
Proof.
  intros He Hrd (e0 & He0 & Hr0). unfold unresolved.
  cbn [dbuffer_info_ set_dbuffer_info].
  destruct (decide (buf = x)) as [->|Hne].
  - rewrite lookup_insert_eq. exists e'. split; [reflexivity|]. congruence.
  - rewrite lookup_insert_ne by exact Hne. exists e0. split; assumption.
Qed.

Lemma unresolved_other x st buf e' st1 :
  buf <> x ->
  dbuffer_info_ st1 = <[buf := e']> (dbuffer_info_ st) ->
  unresolved x st -> unresolved x st1.
Proof.
  intros Hne E (e0 & He0 & Hr0). exists e0. split; [|exact Hr0].
  rewrite E, lookup_insert_ne by exact Hne. exact He0.
Qed.

Lemma early_load_sound x sl s :
  forall st r st',
    unresolved x st -> early_load x s = true ->
    VisitStmt sl s st = Ok (r, st') -> False.
Proof.
  stmt_induction s; intros st r st' Hu Ha H;
    cbn [VisitStmt early_load] in *.
  - monad_inv. expr_states. orb_true Ha.
    + eapply VisitExpr_loads; eauto.
    + eapply IHb; eauto.
  - unfold VisitStmt_AttrStmt in H.
    destruct (String.eqb k attr.storage_scope) eqn:E1;
      [|destruct (String.eqb k attr.double_buffer_scope) eqn:E2].
    + monad_inv.
      destruct (dbuffer_info_ _ !! as_Variable n) as [e|] eqn:En.
      * destruct v; try discriminate H. monad_inv.
        eapply IHb; [|exact Ha|exact H].
        apply (unresolved_entry _ _ _ e); [assumption|reflexivity|assumption].
      * monad_inv. expr_states. eapply IHb; eauto.
    + apply andb_true_iff in Ha as [Hn Ha]. apply negb_true_iff in Hn.
      apply bool_decide_eq_false in Hn.
      unfold MakeProducer in H. destruct n as [buffer|key]; [|discriminate H].
      cbn [as_Variable] in Hn.
      munfold H. repeat mdestruct H;
        match goal with
        | Hb : VisitStmt sl b ?st1 = Ok _ |- _ =>
            eapply (IHb st1); [|exact Ha|exact Hb]
        end.
      * eapply unresolved_other; [exact Hn|reflexivity|exact Hu].
      * exact Hu.
    + monad_inv. expr_states. orb_true Ha.
      * eapply VisitExpr_loads; eauto.
      * eapply IHb; eauto.
  - monad_inv. expr_states. orb_true Ha.
    + eapply VisitExpr_loads; eauto.
    + eapply VisitExpr_loads; eauto.
    + eapply IHb; eauto.
  - monad_inv. expr_states.
    orb_true Ha; eapply VisitExpr_loads; eauto.
  - unfold VisitStmt_Allocate in H. monad_inv.
    destruct (dbuffer_info_ _ !! get bv) as [e0|] eqn:En.
    + destruct (ComputeReduce_Mul ex) as [prod|]; [|discriminate H].
      monad_inv. expr_states.
      match goal with
      | Hb : VisitStmt sl b ?st1 = Ok (_, ?st2) |- _ =>
          assert (Hu1 : unresolved x st1)
            by (apply (unresolved_entry _ _ _ e0);
                [assumption|reflexivity|assumption])
      end.
      orb_true Ha.
      * eapply mapM_VisitExpr_loads; [exact Hu1| |]; eauto.
      * eapply IHb; [exact Hu1 | exact Ha | eassumption].
      * apply andb_true_iff in Ha as [Hn Ha]. apply negb_true_iff in Hn.
        match goal with
        | Hb : VisitStmt sl b _ = Ok _ |- _ =>
            pose proof (unresolved_step _ _ _ _ _ _ Hn Hb Hu1) as Hu2
        end.
        eapply VisitExpr_loads; [exact Hu2| |]; eauto.
    + monad_inv. expr_states. orb_true Ha.
      * eapply mapM_VisitExpr_loads; [exact Hu| |]; eauto.
      * eapply IHb; [exact Hu | exact Ha | eassumption].
      * apply andb_true_iff in Ha as [Hn Ha]. apply negb_true_iff in Hn.
        match goal with
        | Hb : VisitStmt sl b _ = Ok _ |- _ =>
            pose proof (unresolved_step _ _ _ _ _ _ Hn Hb Hu) as Hu2
        end.
        eapply VisitExpr_loads; [exact Hu2| |]; eauto.
  - discriminate Ha.
  - unfold VisitStmt_For in H. monad_inv. expr_states.
    match goal with
    | Hb : VisitStmt sl b ?st1 = Ok _ |- _ =>
        assert (Hu1 : unresolved x st1) by exact Hu
    end.
    orb_true Ha.
    + eapply VisitExpr_loads; [exact Hu1| |]; eauto.
    + eapply VisitExpr_loads; [exact Hu1| |]; eauto.
    + eapply IHb; eauto.
  - monad_inv. expr_states. orb_true Ha.
    + eapply VisitExpr_loads; eauto.
    + eapply IHt; [exact Hu | exact Ha | eassumption].
    + apply andb_true_iff in Ha as [Hn Ha]. apply negb_true_iff in Hn.
      match goal with
      | Hb : VisitStmt sl t _ = Ok _ |- _ =>
          pose proof (unresolved_step _ _ _ _ _ _ Hn Hb Hu) as Hu2
      end.
      eapply IHe; [exact Hu2 | exact Ha | eassumption].
  - monad_inv. expr_states. rewrite andb_false_r, orb_false_r in Ha.
    orb_true Ha.
    + eapply VisitExpr_loads; eauto.
    + eapply IHt; eauto.
  - change (VisitStmt sl (SeqStmt l) st = Ok (r, st')) in H.
    rewrite VisitStmt_SeqStmt in H. monad_inv.
    match goal with
    | Hm : mapM (VisitStmt sl) l st = Ok (?l0, _) |- _ =>
        revert Hm; generalize l0
    end.
    revert st Hu.
    induction IHl as [|y rest Hy Hrest IH]; intros st Hu l' Hm;
      [discriminate Ha|].
    cbn [mapM] in *. monad_inv. orb_true Ha.
    + eapply Hy; eauto.
    + apply andb_true_iff in Ha as [Hn Ha]. apply negb_true_iff in Hn.
      eapply IH; [exact Ha| |eassumption].
      eapply unresolved_step; eauto.
  - monad_inv. expr_states. eapply VisitExpr_loads; eauto.
Qed.

(** X21.  The producer must come first: if, in the order of the traversal,
    a load from a candidate buffer is visited before any double-buffer scope
    annotation of that buffer, its read phase is still unresolved and the
    pass aborts. *)
Theorem consumer_before_producer_aborts
        (split_loop : Z) (ConvertSSA : Stmt -> Stmt) (heap : nat)
        (stmt : Stmt) (b : VarPtr) :
  b ∈ DoubleBufferDetector.run stmt ->
  early_load b stmt = true ->
  exists msg, InjectDoubleBuffer ConvertSSA heap stmt split_loop = Fatal msg.
Proof.
  intros Hb Ha. unfold InjectDoubleBuffer, Inject.
  rewrite decide_False by set_solver.
  destruct (VisitStmt split_loop stmt _) as [[r st']|msg] eqn:E; [|eauto].
  exfalso. eapply early_load_sound; [|exact Ha|exact E].
  destruct (proj2 (init_is_Some _ heap _) Hb) as [e He].
  destruct (init_lookup _ _ _ _ He) as [_ (a & -> & _)].
  exists (StorageEntry_init a). split; [exact He | reflexivity].
Qed.

Lemma consumer_before_producer_aborts_witness :
  exists msg,
    InjectDoubleBuffer (fun s => s) Sample.heap Case.consumer_first 0
    = Fatal msg.
Proof.
  apply (consumer_before_producer_aborts
           0 (fun s => s) Sample.heap Case.consumer_first (get Sample.buf)).
  - apply (proj1 (bool_decide_eq_true _)). vm_compute. reflexivity.
  - reflexivity.
Defined.
